(** * cpp-quick-reference: the term annotator and the content loader

    A shallow embedding of [js/tooltip-manager.js] (pattern matcher, term
    annotator and popover), [js/content-loader.js] (content cache and
    fetcher), [js/app.js] (the controller's loader, tab switching and
    heading ids), [js/utils.js] ([throttle], [debounce], [EventEmitter])
    and [js/config.js].

    JavaScript numbers that hold offsets, counters and timestamps are [Z];
    strings are [string], read as sequences of code units in the Latin-1
    range; [Map] objects keyed by strings are stdpp [gmap]s. *)

From Stdlib Require Import ZArith Ascii String List Lia Sorted.
From stdpp Require Import gmap strings list option pretty.

(** ** JavaScript string primitives used by the sources *)

Module JS.

(** Relative index resolution of [String.prototype.slice]. *)
Definition clamp_index (len i : Z) : Z :=
  if (i <? 0)%Z then Z.max (len + i) 0 else Z.min i len.

(** [s.slice(a, b)] *)
Definition slice (s : string) (a b : Z) : string :=
  let len := Z.of_nat (String.length s) in
  let from := clamp_index len a in
  let to := clamp_index len b in
  substring (Z.to_nat from) (Z.to_nat (to - from)) s.

(** [s.slice(a)] *)
Definition slice_from (s : string) (a : Z) : string :=
  slice s a (Z.of_nat (String.length s)).

(** White space and line terminators, as far as they fit in one byte:
    TAB, LF, VT, FF, CR, SP and NBSP. *)
Definition is_whitespace (c : ascii) : bool :=
  let n := nat_of_ascii c in
  ((9 <=? n) && (n <=? 13)) || (n =? 32) || (n =? 160).

Fixpoint trimStart (s : string) : string :=
  match s with
  | EmptyString => EmptyString
  | String c s' => if is_whitespace c then trimStart s' else s
  end.

Fixpoint trimEnd (s : string) : string :=
  match s with
  | EmptyString => EmptyString
  | String c s' =>
      match trimEnd s' with
      | EmptyString => if is_whitespace c then EmptyString else String c EmptyString
      | t => String c t
      end
  end.

(** [s.trim()] *)
Definition trim (s : string) : string := trimEnd (trimStart s).

(** Truthiness of a string value: only the empty string is falsy. *)
Definition truthy (s : string) : bool := negb (String.eqb s "").

End JS.

(** ** Regular expressions

    The sources use the host's [RegExp] objects, always with the global flag
    (the [TooltipManager] constructor adds it).  The matcher is written
    against the interface [RegExp]: [exec p text lastIndex] is
    [p.exec(text)] on a pattern whose [lastIndex] property holds
    [lastIndex]; on success the host sets [lastIndex] to
    [index + matched.length], on failure to [0]. *)

Record ExecResult := { index : nat; matched : string }.

Class RegExp (P : Type) := exec : P → string → nat → option ExecResult.

(** What the language guarantees of every [exec]: the search starts at
    [lastIndex], and [result[0]] is the part of the text at [result.index]. *)
Class RegExpLaws (P : Type) `{RegExp P} : Prop := {
  exec_from_lastIndex p text i r :
    exec p text i = Some r → i ≤ index r;
  exec_in_text p text i r :
    exec p text i = Some r →
    index r + String.length (matched r) ≤ String.length text
    ∧ matched r = substring (index r) (String.length (matched r)) text
}.

(** A backtracking engine for the constructs that occur in the trigger
    patterns of [DEFAULT_TOOLTIP_DEFINITIONS]. *)
Module Regex.

Inductive t :=
| Lit (l : string)            (* a run of literal characters *)
| Space                       (* \s *)
| NoneOf (cs : string)        (* [^...] *)
| WordBoundary                (* \b *)
| Seq (r1 r2 : t)
| Alt (r1 r2 : t)             (* r1|r2 *)
| Star (r : t)                (* r*, greedy *)
| LookAhead (r : t)           (* (?=r) *)
| NegLookAhead (r : t).       (* (?!r) *)

Definition is_word (c : ascii) : bool :=
  let n := nat_of_ascii c in
  ((48 <=? n) && (n <=? 57)) || ((65 <=? n) && (n <=? 90))
  || ((97 <=? n) && (n <=? 122)) || (n =? 95).

Definition word_at (s : string) (i : nat) : bool :=
  match String.get i s with Some c => is_word c | None => false end.

Definition boundary (s : string) (i : nat) : bool :=
  xorb (match i with 0 => false | S j => word_at s j end) (word_at s i).

(** Greedy iteration; an iteration that consumes nothing is not repeated. *)
Fixpoint star (step : nat → list nat) (fuel i : nat) : list nat :=
  match fuel with
  | 0 => [i]
  | S fuel' =>
      flat_map (λ j, if i <? j then star step fuel' j else []) (step i) ++ [i]
  end.

(** All end offsets of a match of [r] that starts at offset [i], in the
    order in which backtracking tries them. *)
Fixpoint ends (r : t) (s : string) (i : nat) : list nat :=
  match r with
  | Lit l =>
      if String.eqb (substring i (String.length l) s) l
      then [i + String.length l] else []
  | Space =>
      match String.get i s with
      | Some c => if JS.is_whitespace c then [S i] else []
      | None => []
      end
  | NoneOf cs =>
      match String.get i s with
      | Some c =>
          if existsb (Ascii.eqb c) (list_ascii_of_string cs) then [] else [S i]
      | None => []
      end
  | WordBoundary => if boundary s i then [i] else []
  | Seq r1 r2 => flat_map (ends r2 s) (ends r1 s i)
  | Alt r1 r2 => ends r1 s i ++ ends r2 s i
  | Star r1 => star (ends r1 s) (S (String.length s - i)) i
  | LookAhead r1 => match ends r1 s i with [] => [] | _ :: _ => [i] end
  | NegLookAhead r1 => match ends r1 s i with [] => [i] | _ :: _ => [] end
  end.

(** Leftmost match at or after offset [i], trying [n] start offsets. *)
Fixpoint search (r : t) (s : string) (i n : nat) : option ExecResult :=
  match n with
  | 0 => None
  | S n' =>
      match ends r s i with
      | j :: _ => Some {| index := i; matched := substring i (j - i) s |}
      | [] => search r s (S i) n'
      end
  end.

Definition exec (r : t) (s : string) (lastIndex : nat) : option ExecResult :=
  if String.length s <? lastIndex then None
  else search r s lastIndex (S (String.length s - lastIndex)).

End Regex.

#[export] Instance Regex_RegExp : RegExp Regex.t := Regex.exec.

(** ** [Array.prototype.sort] with a comparator

    The language fixes the result for a consistent comparator: the elements
    in ascending comparator order, equal elements in their original order.
    Insertion from the right computes exactly that. *)

Section ArraySort.
Context {A : Type} (cmp : A → A → Z).

Fixpoint sort_insert (x : A) (l : list A) : list A :=
  match l with
  | [] => [x]
  | y :: l' => if (cmp x y <=? 0)%Z then x :: l else y :: sort_insert x l'
  end.

Fixpoint array_sort (l : list A) : list A :=
  match l with
  | [] => []
  | x :: l' => sort_insert x (array_sort l')
  end.
End ArraySort.

(** ** js/tooltip-manager.js: the pattern matcher *)

(** An entry of the definition table ([def.triggers || []] is the list). *)
Module Def.
Record t (P : Type) := make {
  id : string;
  triggers : list P;
  title : string;
  body : string
}.
Arguments make {P}.
Arguments id {P}.
Arguments triggers {P}.
Arguments title {P}.
Arguments body {P}.
End Def.

(** The objects pushed by [findMatches]. *)
Module Match.
Record t (P : Type) := make {
  start : Z;
  end_ : Z;
  length : Z;
  text : string;
  definitionId : string;
  context : Def.t P
}.
Arguments make {P}.
Arguments start {P}.
Arguments end_ {P}.
Arguments length {P}.
Arguments text {P}.
Arguments definitionId {P}.
Arguments context {P}.
End Match.

(** ** The document tree

    What [decorate] reads and writes of the DOM: text nodes with their
    [nodeValue]; elements with [tagName], [classList], [dataset.tooltipId]
    and [childNodes].  [tabIndex], listeners and layout are left out. *)

#[local] Set Warnings "-register-all".

Inductive node :=
| TextNode (nodeValue : string)
| Element (tagName : string) (classList : list string)
    (tooltipId : option string) (childNodes : list node).

(** [node.textContent] *)
Fixpoint textContent (n : node) : string :=
  match n with
  | TextNode nodeValue => nodeValue
  | Element _ _ _ children =>
      foldr (λ child rest, textContent child +:+ rest) "" children
  end.

(** The text of a run of sibling nodes. *)
Definition textContent_of (nodes : list node) : string :=
  foldr (λ child rest, textContent child +:+ rest) "" nodes.

(** An element seen from below: the chain of these, nearest first, is what
    [parentElement], [parentNode] and [closest] walk. *)
Record Ancestor := { anc_tagName : string; anc_classList : list string }.

Section OptionTraversal.
Context {A B : Type} (f : A → option (list B)).

(** Replace every element by the list [f] gives, failing if [f] does. *)
Fixpoint flat_mapM (l : list A) : option (list B) :=
  match l with
  | [] => Some []
  | x :: l' => y ← f x; rest ← flat_mapM l'; Some (y ++ rest)
  end.
End OptionTraversal.

Module TooltipManager.
Section Matcher.
Context {P : Type} `{RegExp P}.

(** The [TooltipManager] object, as far as the matcher and the lookup by
    id use it. *)
Record t := make {
  definitions : list (Def.t P);
  definitionMap : gmap string (Def.t P)
}.

(** [constructor(definitions)]: [definitionMap.set(def.id, def)] for each
    definition in order. *)
Definition constructor (defs : list (Def.t P)) : t :=
  {| definitions := defs;
     definitionMap := foldl (λ m def, <[Def.id def := def]> m) ∅ defs |}.

(** The definition [showTooltip] displays for a marker whose
    [dataset.tooltipId] is [tooltipId]. *)
Definition lookup_definition (tm : t) (tooltipId : string) : option (Def.t P) :=
  definitionMap tm !! tooltipId.

(** The object [findMatches] pushes for a [result] of [exec]. *)
Definition pushed (definition : Def.t P) (result : ExecResult) : Match.t P :=
  {| Match.start := Z.of_nat (index result);
     Match.end_ := Z.of_nat (index result) + Z.of_nat (String.length (matched result));
     Match.length := Z.of_nat (String.length (matched result));
     Match.text := matched result;
     Match.definitionId := Def.id definition;
     Match.context := definition |}.

(** The loop [while ((result = pattern.exec(text)) !== null) push(...)],
    started with [pattern.lastIndex = lastIndex].  [None]: the loop is
    still running after [fuel] calls of [exec]. *)
Fixpoint scan (fuel : nat) (definition : Def.t P) (pattern : P)
    (text : string) (lastIndex : nat) : option (list (Match.t P)) :=
  match fuel with
  | 0 => None
  | S fuel' =>
      match exec pattern text lastIndex with
      | None => Some []
      | Some result =>
          rest ← scan fuel' definition pattern text
                   (index result + String.length (matched result));
          Some (pushed definition result :: rest)
      end
  end.

(** [definition.triggers.forEach(pattern => ...)] *)
Fixpoint scan_triggers (fuel : nat) (definition : Def.t P)
    (patterns : list P) (text : string) : option (list (Match.t P)) :=
  match patterns with
  | [] => Some []
  | pattern :: patterns' =>
      found ← scan fuel definition pattern text 0;
      rest ← scan_triggers fuel definition patterns' text;
      Some (found ++ rest)
  end.

(** [this.definitions.forEach(definition => ...)]: the raw matches. *)
Fixpoint collect (fuel : nat) (defs : list (Def.t P)) (text : string)
    : option (list (Match.t P)) :=
  match defs with
  | [] => Some []
  | definition :: defs' =>
      found ← scan_triggers fuel definition (Def.triggers definition) text;
      rest ← collect fuel defs' text;
      Some (found ++ rest)
  end.

(** The comparator handed to [matches.sort]. *)
Definition compare_matches (a b : Match.t P) : Z :=
  if (Match.start a =? Match.start b)%Z
  then (Match.length b - Match.length a)%Z
  else (Match.start a - Match.start b)%Z.

(** The sweep that fills [filtered]. *)
Fixpoint sweep (currentEnd : Z) (matches : list (Match.t P)) : list (Match.t P) :=
  match matches with
  | [] => []
  | m :: matches' =>
      if (currentEnd <=? Match.start m)%Z
      then m :: sweep (Match.end_ m) matches'
      else sweep currentEnd matches'
  end.

(** No trigger of the table produces an empty match on [text], whatever
    [lastIndex] within the text it is started from. *)
Definition never_empty_on (tm : t) (text : string) : bool :=
  forallb (λ definition,
    forallb (λ pattern,
      forallb (λ lastIndex,
        match exec pattern text lastIndex with
        | Some result => JS.truthy (matched result)
        | None => true
        end) (seq 0 (S (String.length text))))
      (Def.triggers definition))
    (definitions tm).

(** [findMatches(text)] *)
Definition findMatches (fuel : nat) (tm : t) (text : string)
    : option (list (Match.t P)) :=
  matches ← collect fuel (definitions tm) text;
  match matches with
  | [] => Some matches
  | _ :: _ => Some (sweep (-1) (array_sort compare_matches matches))
  end.

(** *** The term annotator *)

Definition has_class (cls : string) (a : Ancestor) : bool :=
  existsb (String.eqb cls) (anc_classList a).

(** [parentElement.closest('.' + cls)], truthy or not. *)
Definition closest (cls : string) (ancestors : list Ancestor) : bool :=
  existsb (has_class cls) ancestors.

(** [shouldProcessNode(node)] for a text node with the given [nodeValue]
    below [ancestors]; [true] is [FILTER_ACCEPT]. *)
Definition shouldProcessNode (ancestors : list Ancestor) (nodeValue : string) : bool :=
  if negb (JS.truthy nodeValue) || negb (JS.truthy (JS.trim nodeValue)) then false
  else match ancestors with
  | [] => false
  | parentElement :: _ =>
      if closest "tooltip-term" ancestors || closest "tooltip-popover" ancestors
      then false
      else if String.eqb (anc_tagName parentElement) "SCRIPT"
              || String.eqb (anc_tagName parentElement) "STYLE"
      then false
      else true
  end.

(** [isCodeContext(node)], walking up from the original parent. *)
Fixpoint isCodeContext (ancestors : list Ancestor) : bool :=
  match ancestors with
  | [] => false
  | current :: up =>
      if has_class "tooltip-term" current then false
      else if String.eqb (anc_tagName current) "CODE" then true
      else if String.eqb (anc_tagName current) "PRE" then true
      else isCodeContext up
  end.

(** [createTermNode(match, originalParent)]; setting [textContent] to the
    empty string leaves the span without children. *)
Definition createTermNode (m : Match.t P) (originalParent : list Ancestor) : node :=
  Element "SPAN"
    ("tooltip-term" ::
       if isCodeContext originalParent then ["tooltip-term--code"] else [])
    (Some (Match.definitionId m))
    (if JS.truthy (Match.text m) then [TextNode (Match.text m)] else []).

(** The body of [matches.forEach] in [processTextNode] and the tail that
    follows it, threading [lastIndex]. *)
Fixpoint fragments (ancestors : list Ancestor) (text : string) (lastIndex : Z)
    (matches : list (Match.t P)) : list node :=
  match matches with
  | [] =>
      if (lastIndex <? Z.of_nat (String.length text))%Z
      then [TextNode (JS.slice_from text lastIndex)] else []
  | m :: matches' =>
      (if (lastIndex <? Match.start m)%Z
       then [TextNode (JS.slice text lastIndex (Match.start m))] else [])
      ++ createTermNode m ancestors :: fragments ancestors text (Match.end_ m) matches'
  end.

(** [processTextNode(node)]: the nodes that stand in the node's place
    afterwards. *)
Definition processTextNode (fuel : nat) (tm : t) (ancestors : list Ancestor)
    (text : string) : option (list node) :=
  if negb (JS.truthy text) then Some [TextNode text]
  else
    matches ← findMatches fuel tm text;
    match matches with
    | [] => Some [TextNode text]
    | _ :: _ => Some (fragments ancestors text 0 matches)
    end.

(** The tree walk of [decorate] below one node: text nodes the filter
    accepts are processed, elements are descended into. *)
Fixpoint decorate_node (fuel : nat) (tm : t) (ancestors : list Ancestor)
    (n : node) : option (list node) :=
  match n with
  | TextNode nodeValue =>
      if shouldProcessNode ancestors nodeValue
      then processTextNode fuel tm ancestors nodeValue
      else Some [n]
  | Element tag cls tid children =>
      let here := {| anc_tagName := tag; anc_classList := cls |} in
      children' ← flat_mapM (decorate_node fuel tm (here :: ancestors)) children;
      Some [Element tag cls tid children']
  end.

(** [decorate(root)], for a root that sits below [ancestors] in the
    document.  The walker never returns the root itself. *)
Definition decorate (fuel : nat) (tm : t) (ancestors : list Ancestor)
    (root : node) : option node :=
  match root with
  | TextNode _ => Some root
  | Element tag cls tid children =>
      let here := {| anc_tagName := tag; anc_classList := cls |} in
      children' ← flat_mapM (decorate_node fuel tm (here :: ancestors)) children;
      Some (Element tag cls tid children')
  end.

End Matcher.
Arguments t P : clear implicits.
End TooltipManager.

(** ** The definition table (excerpt)

    The entries of [DEFAULT_TOOLTIP_DEFINITIONS] that the properties below
    mention, in table order; each body is cut down to its first paragraph.
    The texts that are evaluated on this table below hold no match of a
    trigger that is left out, so the whole table returns the same matches
    on them. *)

Module Defaults.
Import Regex.

(* /\bdecltype\b/ *)
Definition re_decltype : Regex.t :=
  Seq WordBoundary (Seq (Lit "decltype") WordBoundary).
(* /std::move/ *)
Definition re_std_move : Regex.t := Lit "std::move".
(* /\bmove\b(?=\s*\()/ *)
Definition re_move_call : Regex.t :=
  Seq WordBoundary
    (Seq (Lit "move") (Seq WordBoundary (LookAhead (Seq (Star Space) (Lit "("))))).
(* /std::forward/ *)
Definition re_std_forward : Regex.t := Lit "std::forward".
(* /\bemplace_back\b/ and /\bemplace\b/ *)
Definition re_emplace_back : Regex.t :=
  Seq WordBoundary (Seq (Lit "emplace_back") WordBoundary).
Definition re_emplace : Regex.t :=
  Seq WordBoundary (Seq (Lit "emplace") WordBoundary).

Definition decltype_first : Def.t Regex.t :=
  Def.make "decltype" [re_decltype] "decltype"
    "<p>Deduce the type of an expression at compile time without evaluating it.</p>".
Definition std_move : Def.t Regex.t :=
  Def.make "std-move" [re_std_move; re_move_call] "std::move"
    "<p>Cast an object to an rvalue so move-aware APIs can transfer its resources.</p>".
Definition std_forward : Def.t Regex.t :=
  Def.make "std-forward" [re_std_forward] "std::forward"
    "<p>Preserve the value category of a forwarded template argument inside forwarding functions.</p>".
Definition emplace : Def.t Regex.t :=
  Def.make "emplace" [re_emplace_back; re_emplace] "emplace*"
    "<p>Construct elements in-place inside a container, forwarding constructor arguments.</p>".
Definition decltype_second : Def.t Regex.t :=
  Def.make "decltype" [re_decltype] "decltype"
    "<p>Compile-time type deduction operator that returns the type of an expression without evaluating it.</p>".

Definition DEFAULT_TOOLTIP_DEFINITIONS : list (Def.t Regex.t) :=
  [decltype_first; std_move; std_forward; emplace; decltype_second].

Definition manager : TooltipManager.t Regex.t :=
  TooltipManager.constructor DEFAULT_TOOLTIP_DEFINITIONS.
End Defaults.

(** ** js/tooltip-manager.js: the popover

    The part of [TooltipManager] that shows and hides the popover: the
    fields [activeTerm] and [hideTimeout], the attributes of
    [tooltipElement] that the handlers write, and the timers of the host.
    [positionTooltip], and with it [handleScroll], writes [style.top] and
    [style.left] only; these are left out. *)

Module Popover.

(** A marker as the handlers see it: which element it is, and its
    [dataset.tooltipId]. *)
Record Term := { element : nat; tooltipId : option string }.

Section Handlers.
Context {P : Type}.

(** [tooltipElement]: the definition whose title and body were written to
    [innerHTML] last, the attribute [aria-hidden], [style.visibility] and
    whether [classList] has [visible]. *)
Record Element := {
  innerHTML : option (Def.t P);
  ariaHidden : bool;
  visibilityHidden : bool;
  classVisible : bool
}.

(** The manager and the host: [timers] are the timeouts that are set and
    have neither fired nor been cleared, with the time each is due;
    [created] counts the calls of [setTimeout]; [now] is the clock. *)
Record t := make {
  activeTerm : option Term;
  hideTimeout : option nat;
  tooltipElement : Element;
  timers : list (nat * Z);
  created : nat;
  now : Z
}.

(** [createTooltipElement()] and the fields the constructor sets. *)
Definition createTooltipElement : Element :=
  {| innerHTML := None; ariaHidden := true; visibilityHidden := true;
     classVisible := false |}.

Definition constructor (clock : Z) : t :=
  make None None createTooltipElement [] 0 clock.

(** [clearTimeout(id)]; nothing happens for [null] and for an id that is
    not pending. *)
Definition clearTimeout (id : option nat) (st : t) : t :=
  match id with
  | None => st
  | Some id =>
      make (activeTerm st) (hideTimeout st) (tooltipElement st)
        (List.filter (λ timer, negb (fst timer =? id)) (timers st))
        (created st) (now st)
  end.

(** [setTimeout(callback, delay)]; the only callback of the class is
    [() => this.hideTooltip()]. *)
Definition setTimeout (delay : Z) (st : t) : nat * t :=
  (S (created st),
   make (activeTerm st) (hideTimeout st) (tooltipElement st)
     (timers st ++ [(S (created st), now st + delay)%Z])
     (S (created st)) (now st)).

(** [showTooltip(term)] *)
Definition showTooltip (tm : TooltipManager.t P) (term : Term) (st : t) : t :=
  match tooltipId term ≫= TooltipManager.lookup_definition tm with
  | None => st
  | Some definition =>
      let st := clearTimeout (hideTimeout st) st in
      make (Some term) (hideTimeout st)
        {| innerHTML := Some definition; ariaHidden := false;
           visibilityHidden := false; classVisible := true |}
        (timers st) (created st) (now st)
  end.

(** [scheduleHide()] *)
Definition scheduleHide (st : t) : t :=
  let st := clearTimeout (hideTimeout st) st in
  let '(id, st) := setTimeout 150 st in
  make (activeTerm st) (Some id) (tooltipElement st) (timers st) (created st) (now st).

(** [hideTooltip()] *)
Definition hideTooltip (st : t) : t :=
  make None (hideTimeout st)
    {| innerHTML := innerHTML (tooltipElement st); ariaHidden := true;
       visibilityHidden := true; classVisible := false |}
    (timers st) (created st) (now st).

(** What the listeners of the constructor receive.  [term] is
    [event.target.closest('.tooltip-term')]; [inside] is
    [event.relatedTarget && term.contains(event.relatedTarget)]. *)
Inductive Event :=
| mouseover (term : option Term)
| mouseout (term : option Term) (inside : bool)
| focusin (term : option Term)
| focusout (term : option Term)
| timeout (id : nat)              (* the timer [id] fires *)
| tick (elapsed : Z).             (* time passes *)

Definition handlePointerEnter (tm : TooltipManager.t P) (term : option Term) (st : t) : t :=
  match term with
  | None => st
  | Some term => showTooltip tm term st
  end.

Definition handlePointerLeave (term : option Term) (inside : bool) (st : t) : t :=
  match term with
  | None => st
  | Some term => if inside then st else scheduleHide st
  end.

Definition handleFocus (tm : TooltipManager.t P) (term : option Term) (st : t) : t :=
  match term with
  | None => st
  | Some term => showTooltip tm term st
  end.

Definition handleBlur (term : option Term) (st : t) : t :=
  match term with
  | None => st
  | Some term => scheduleHide st
  end.

(** One turn of the event loop; [None] when the event cannot happen in
    this state: a timer fires once, when it is pending and due, and the
    clock does not run backwards. *)
Definition step (tm : TooltipManager.t P) (ev : Event) (st : t) : option t :=
  match ev with
  | mouseover term => Some (handlePointerEnter tm term st)
  | mouseout term inside => Some (handlePointerLeave term inside st)
  | focusin term => Some (handleFocus tm term st)
  | focusout term => Some (handleBlur term st)
  | timeout id =>
      match find (λ timer, fst timer =? id) (timers st) with
      | Some (_, due) =>
          if (due <=? now st)%Z
          then Some (hideTooltip
                       (make (activeTerm st) (hideTimeout st) (tooltipElement st)
                          (List.filter (λ timer, negb (fst timer =? id)) (timers st))
                          (created st) (now st)))
          else None
      | None => None
      end
  | tick elapsed =>
      if (0 <=? elapsed)%Z
      then Some (make (activeTerm st) (hideTimeout st) (tooltipElement st) (timers st)
                   (created st) (now st + elapsed)%Z)
      else None
  end.

Fixpoint run (tm : TooltipManager.t P) (events : list Event) (st : t) : option t :=
  match events with
  | [] => Some st
  | ev :: events' => st' ← step tm ev st; run tm events' st'
  end.

End Handlers.

Arguments Element : clear implicits.
Arguments t : clear implicits.
Arguments Event : clear implicits.

End Popover.



(** ** js/config.js *)

Module Config.
Record Tab := { id : string; title : string; description : string }.
Record Content := {
  basePath : string;
  fileExtension : string;
  cacheTimeout : Z;
  retryAttempts : Z;
  retryDelay : Z
}.
Record t := { tabs : list Tab; content : Content }.
End Config.

Definition APP_CONFIG : Config.t :=
  {| Config.tabs :=
       [ Config.Build_Tab "string" "std::string" "String manipulation and utilities";
         Config.Build_Tab "stringstream" "std::stringstream" "String stream operations";
         Config.Build_Tab "vector" "std::vector" "Dynamic arrays";
         Config.Build_Tab "map" "std::map" "Ordered key-value pairs";
         Config.Build_Tab "unordered_map" "std::unordered_map" "Hash-based key-value pairs";
         Config.Build_Tab "set" "std::set" "Ordered unique elements";
         Config.Build_Tab "unordered_set" "std::unordered_set" "Hash-based unique elements";
         Config.Build_Tab "priority_queue" "std::priority_queue" "Heap-based priority queue";
         Config.Build_Tab "list" "std::list" "Doubly-linked list";
         Config.Build_Tab "queue" "std::queue" "FIFO queue";
         Config.Build_Tab "stack" "std::stack" "LIFO stack";
         Config.Build_Tab "deque" "std::deque" "Double-ended queue";
         Config.Build_Tab "algorithms" "Algorithms" "STL algorithms and utilities";
         Config.Build_Tab "smart_pointers" "Smart Pointers" "Memory management";
         Config.Build_Tab "concurrency" "Concurrency" "Multithreading primitives";
         Config.Build_Tab "coroutines" "Coroutines" "C++20 coroutines";
         Config.Build_Tab "oop" "OOP Concepts" "Object-oriented programming";
         Config.Build_Tab "custom_types" "Custom Types" "Using custom types in containers" ];
     Config.content :=
       {| Config.basePath := "./content/";
          Config.fileExtension := ".html";
          Config.cacheTimeout := 5 * 60 * 1000;
          Config.retryAttempts := 3;
          Config.retryDelay := 1000 |} |}.

(** ** The host: network, clock, completions *)

(** How a [fetch] followed by [response.text()] ends: a rejection with an
    [Error], or a response with its [ok], [status], [statusText] and body. *)
Inductive Response :=
| Rejected (message : string)
| Replied (ok : bool) (status : Z) (statusText : string) (body : string).

(** The network, as an oracle: what the [n]-th request made so far (counted
    from 0, over all URLs) receives, and how long that takes. *)
Record Network := {
  respond : string → nat → Response;
  latency : string → nat → Z
}.

(** [Date.now()] and the URLs handed to [fetch] so far, oldest first. *)
Record World := { now : Z; requests : list string }.

Definition fetch (net : Network) (url : string) (w : World) : Response * World :=
  let n := length (requests w) in
  (respond net url n,
   {| now := now w + latency net url n; requests := requests w ++ [url] |}).

(** [await new Promise(resolve => setTimeout(resolve, delay))] *)
Definition sleep (delay : Z) (w : World) : World :=
  {| now := now w + delay; requests := requests w |}.

(** How an evaluation ends: [return v] or [throw new Error(message)]. *)
Inductive Completion (A : Type) :=
| Return (v : A)
| Throw (message : string).
Arguments Return {A}.
Arguments Throw {A}.

(** ** js/content-loader.js *)

Module ContentLoader.

Record CacheEntry := { content : string; timestamp : Z }.

Inductive Event :=
| contentLoaded (tabId content : string)
| contentError (tabId error : string).

(** The [ContentLoader] object with the host state it runs against.
    Promises are numbered as they are created.  No listener is registered
    anywhere in the sources, so [emit] is recorded in [emitted]. *)
Record t := make {
  cache : gmap string CacheEntry;
  loadingPromises : gmap string nat;
  retryCount : gmap string Z;
  emitted : list Event;
  created : nat;
  world : World
}.

(** [constructor()] *)
Definition constructor (w : World) : t :=
  make ∅ ∅ ∅ [] 0 w.

Definition with_cache (f : gmap string CacheEntry → gmap string CacheEntry) (st : t) : t :=
  make (f (cache st)) (loadingPromises st) (retryCount st) (emitted st) (created st) (world st).
Definition with_loadingPromises (f : gmap string nat → gmap string nat) (st : t) : t :=
  make (cache st) (f (loadingPromises st)) (retryCount st) (emitted st) (created st) (world st).
Definition with_retryCount (f : gmap string Z → gmap string Z) (st : t) : t :=
  make (cache st) (loadingPromises st) (f (retryCount st)) (emitted st) (created st) (world st).
Definition with_world (f : World → World) (st : t) : t :=
  make (cache st) (loadingPromises st) (retryCount st) (emitted st) (created st) (f (world st)).
Definition emit (e : Event) (st : t) : t :=
  make (cache st) (loadingPromises st) (retryCount st) (emitted st ++ [e]) (created st) (world st).
Definition new_promise (st : t) : nat * t :=
  (created st,
   make (cache st) (loadingPromises st) (retryCount st) (emitted st) (S (created st)) (world st)).

Definition dq : string := String (ascii_of_nat 34) EmptyString.

(** [_getFallbackContent(tabId, error)]; the template literal with its
    line breaks and indentation dropped, the warning sign in its UTF-8
    bytes. *)
Definition _getFallbackContent (cfg : Config.t) (tabId error : string) : string :=
  let tabConfig := find (λ tab, String.eqb (Config.id tab) tabId) (Config.tabs cfg) in
  let tabTitle := match tabConfig with Some tab => Config.title tab | None => tabId end in
  "<div class=" +:+ dq +:+ "content-error" +:+ dq +:+ ">"
  +:+ "<div class=" +:+ dq +:+ "text-center py-12" +:+ dq +:+ ">"
  +:+ "<div class=" +:+ dq +:+ "text-6xl text-red-400 mb-4" +:+ dq +:+ ">⚠️</div>"
  +:+ "<h2 class=" +:+ dq +:+ "text-2xl font-bold text-red-400 mb-4" +:+ dq +:+ ">Content Unavailable</h2>"
  +:+ "<p class=" +:+ dq +:+ "text-gray-400 mb-6" +:+ dq +:+ ">"
  +:+ "Sorry, we couldn't load the content for <strong>" +:+ tabTitle +:+ "</strong>."
  +:+ "</p>"
  +:+ "<div class=" +:+ dq +:+ "text-sm text-gray-500 mb-6" +:+ dq +:+ ">"
  +:+ "Error: " +:+ error
  +:+ "</div>"
  +:+ "<button onclick=" +:+ dq +:+ "window.contentLoader.loadContent('" +:+ tabId +:+ "', false)" +:+ dq
  +:+ " class=" +:+ dq +:+ "bg-cyan-500 hover:bg-cyan-600 text-white px-6 py-2 rounded-lg transition-colors" +:+ dq +:+ ">"
  +:+ "Try Again"
  +:+ "</button>"
  +:+ "</div>"
  +:+ "</div>".

(** The [try] block of [_fetchContent] once the response is in: the
    content it returns, or the error its [catch] receives. *)
Definition received (resp : Response) : Completion string :=
  match resp with
  | Rejected message => Throw message
  | Replied ok status statusText body =>
      if negb ok then Throw ("HTTP " +:+ pretty status +:+ ": " +:+ statusText)
      else if negb (JS.truthy (JS.trim body)) then Throw "Empty content received"
      else Return body
  end.

(** What the [catch] block of [_fetchContent] decides. *)
Inductive Recovery :=
| Retry (delay : Z)
| Fallback (content : string).

(** The [catch] block of [_fetchContent] up to its [await] or [return]. *)
Definition recover (cfg : Config.t) (tabId : string) (retries : Z) (error : string)
    (st : t) : Recovery * t :=
  if (retries <? Config.retryAttempts (Config.content cfg))%Z
  then (Retry (Config.retryDelay (Config.content cfg) * (retries + 1)),
        with_retryCount (insert tabId (retries + 1)%Z) st)
  else (Fallback (_getFallbackContent cfg tabId error), st).

Definition content_url (cfg : Config.t) (tabId : string) : string :=
  Config.basePath (Config.content cfg) +:+ tabId
  +:+ Config.fileExtension (Config.content cfg).

(** [this.retryCount.get(tabId) || 0] *)
Definition retries_of (st : t) (tabId : string) : Z :=
  default 0%Z (retryCount st !! tabId).

(** [_fetchContent(tabId)], run to the end with nothing else interleaved.
    [None]: still retrying after [fuel] requests. *)
Fixpoint _fetchContent (fuel : nat) (cfg : Config.t) (net : Network)
    (tabId : string) (st : t) : option (Completion string * t) :=
  match fuel with
  | 0 => None
  | S fuel' =>
      let url := content_url cfg tabId in
      let retries := retries_of st tabId in
      let '(resp, w) := fetch net url (world st) in
      let st := with_world (λ _, w) st in
      match received resp with
      | Return content => Some (Return content, st)
      | Throw error =>
          match recover cfg tabId retries error st with
          | (Retry delay, st) =>
              _fetchContent fuel' cfg net tabId (with_world (sleep delay) st)
          | (Fallback content, st) => Some (Return content, st)
          end
      end
  end.

(** The cache check at the head of [loadContent]. *)
Definition cached (cfg : Config.t) (tabId : string) (st : t) : option string :=
  match cache st !! tabId with
  | Some entry =>
      if (now (world st) - timestamp entry <? Config.cacheTimeout (Config.content cfg))%Z
      then Some (content entry) else None
  | None => None
  end.

(** What a call of [loadContent] hands to its caller. *)
Inductive Outcome :=
| FromCache (content : string)
| SamePromise (promise : nat)
| Loaded (result : Completion string).

(** [loadContent] from [await loadPromise] on: the [try] body, [catch]
    and [finally]. *)
Definition resume (tabId : string) (result : Completion string) (st : t)
    : Completion string * t :=
  let st :=
    match result with
    | Return content =>
        let st := with_cache
                    (insert tabId {| content := content; timestamp := now (world st) |}) st in
        let st := with_retryCount (delete tabId) st in
        emit (contentLoaded tabId content) st
    | Throw error => emit (contentError tabId error) st
    end in
  (result, with_loadingPromises (delete tabId) st).

(** [loadContent(tabId, useCache)], run to the end with nothing else
    interleaved. *)
Definition loadContent (fuel : nat) (cfg : Config.t) (net : Network)
    (tabId : string) (useCache : bool) (st : t) : option (Outcome * t) :=
  match (if useCache then cached cfg tabId st else None) with
  | Some content => Some (FromCache content, st)
  | None =>
      match loadingPromises st !! tabId with
      | Some promise => Some (SamePromise promise, st)
      | None =>
          let '(loadPromise, st) := new_promise st in
          let st := with_loadingPromises (insert tabId loadPromise) st in
          '(result, st) ← _fetchContent fuel cfg net tabId st;
          let '(result, st) := resume tabId result st in
          Some (Loaded result, st)
      end
  end.

(** [clearCache(tabId)]; [None] is the call without argument. *)
Definition clearCache (tabId : option string) (st : t) : t :=
  match tabId with
  | Some tabId =>
      if JS.truthy tabId
      then with_retryCount (delete tabId) (with_cache (delete tabId) st)
      else with_retryCount (λ _, ∅) (with_cache (λ _, ∅) st)
  | None => with_retryCount (λ _, ∅) (with_cache (λ _, ∅) st)
  end.

End ContentLoader.


(** ** The content loader on the event loop

    [loadContent] and [_fetchContent] are [async]: each runs until its next
    [await] and is resumed by the event loop later, with other calls in
    between.  The machine below cuts the two functions at their [await]s;
    between the cuts it runs the same code as the sequential reading above
    ([cached], [received], [recover], [resume]).  Responses and the passing
    of time are events, so every network and every schedule is covered. *)

Module EventLoop.
Import ContentLoader.

(** Where an activation of [_fetchContent], with the [loadContent] that
    awaits it, is suspended. *)
Inductive Phase :=
| AwaitFetch (retries : Z)             (* in the [try] block, [retries] already read *)
| AwaitTimer (delay : Z)                (* in the [catch] block, before the retry *)
| AwaitResume (result : Completion string).  (* settled; [loadContent] not resumed yet *)

Record Task := { key : string; promise : nat; phase : Phase }.

Record t := { loader : ContentLoader.t; tasks : list Task }.

Definition init (w : World) : t :=
  {| loader := ContentLoader.constructor w; tasks := [] |}.

Inductive Event :=
| Call (tabId : string) (useCache : bool)   (* somebody calls [loadContent] *)
| FetchSettles (promise : nat) (resp : Response)
| TimerFires (promise : nat)
| Resumes (promise : nat)                   (* [loadContent] continues after its [await] *)
| ClearCache (tabId : option string)        (* somebody calls [clearCache] *)
| Tick (elapsed : Z).

(** What a call of [loadContent] hands back at once. *)
Inductive Answer :=
| Cached (content : string)
| Joined (promise : nat)       (* the promise found in [loadingPromises] *)
| Started (promise : nat).     (* the promise of a new [_fetchContent] *)

(** [_fetchContent] from its entry to [await fetch(url, ...)]. *)
Definition issue (cfg : Config.t) (tabId : string) (st : ContentLoader.t)
    : Z * ContentLoader.t :=
  (retries_of st tabId,
   with_world (λ w, {| now := now w;
                       requests := requests w ++ [content_url cfg tabId] |}) st).

(** [loadContent] from its entry to its first [return] or [await]. *)
Definition call (cfg : Config.t) (tabId : string) (useCache : bool) (m : t)
    : Answer * t :=
  match (if useCache then cached cfg tabId (loader m) else None) with
  | Some content => (Cached content, m)
  | None =>
      match loadingPromises (loader m) !! tabId with
      | Some promise => (Joined promise, m)
      | None =>
          let '(retries, st) := issue cfg tabId (loader m) in
          let '(loadPromise, st) := new_promise st in
          let st := with_loadingPromises (insert tabId loadPromise) st in
          (Started loadPromise,
           {| loader := st;
              tasks := tasks m ++ [{| key := tabId; promise := loadPromise;
                                      phase := AwaitFetch retries |}] |})
      end
  end.

Definition find_task (p : nat) (ts : list Task) : option Task :=
  find (λ task, promise task =? p) ts.

Definition set_phase (p : nat) (ph : Phase) (ts : list Task) : list Task :=
  map (λ task, if promise task =? p
               then {| key := key task; promise := p; phase := ph |}
               else task) ts.

Definition remove_task (p : nat) (ts : list Task) : list Task :=
  List.filter (λ task, negb (promise task =? p)) ts.

(** One turn of the event loop; [None] when the event cannot happen in
    this state. *)
Definition step (cfg : Config.t) (ev : Event) (m : t) : option t :=
  match ev with
  | Call tabId useCache => Some (snd (call cfg tabId useCache m))
  | FetchSettles p resp =>
      task ← find_task p (tasks m);
      match phase task with
      | AwaitFetch retries =>
          match received resp with
          | Return content =>
              Some {| loader := loader m;
                      tasks := set_phase p (AwaitResume (Return content)) (tasks m) |}
          | Throw error =>
              match recover cfg (key task) retries error (loader m) with
              | (Retry delay, st) =>
                  Some {| loader := st;
                          tasks := set_phase p (AwaitTimer delay) (tasks m) |}
              | (Fallback content, st) =>
                  Some {| loader := st;
                          tasks := set_phase p (AwaitResume (Return content)) (tasks m) |}
              end
          end
      | _ => None
      end
  | TimerFires p =>
      task ← find_task p (tasks m);
      match phase task with
      | AwaitTimer _ =>
          let '(retries, st) := issue cfg (key task) (loader m) in
          Some {| loader := st; tasks := set_phase p (AwaitFetch retries) (tasks m) |}
      | _ => None
      end
  | Resumes p =>
      task ← find_task p (tasks m);
      match phase task with
      | AwaitResume result =>
          Some {| loader := snd (resume (key task) result (loader m));
                  tasks := remove_task p (tasks m) |}
      | _ => None
      end
  | ClearCache tabId =>
      Some {| loader := clearCache tabId (loader m); tasks := tasks m |}
  | Tick elapsed =>
      Some {| loader := with_world (sleep elapsed) (loader m); tasks := tasks m |}
  end.

Fixpoint run (cfg : Config.t) (events : list Event) (m : t) : option t :=
  match events with
  | [] => Some m
  | ev :: events' => m' ← step cfg ev m; run cfg events' m'
  end.

(** A request of an activation for [tabId] is on the network. *)
Definition fetching (m : t) (tabId : string) : list Task :=
  List.filter (λ task, String.eqb (key task) tabId
                       && match phase task with AwaitFetch _ => true | _ => false end)
    (tasks m).

(** The activations for [tabId] that have not been resumed yet. *)
Definition in_flight (m : t) (tabId : string) : list Task :=
  List.filter (λ task, String.eqb (key task) tabId) (tasks m).

(** The turns of the activation behind promise [p] when nothing else
    happens in between: each response arrives after its latency, each timer
    fires after its delay.  [fuel] bounds the number of requests. *)
Fixpoint settle (fuel : nat) (cfg : Config.t) (net : Network) (p : nat) (m : t)
    : option t :=
  match fuel with
  | 0 => None
  | S fuel' =>
      task ← find_task p (tasks m);
      let url := content_url cfg (key task) in
      let n := pred (length (requests (world (loader m)))) in
      m ← step cfg (Tick (latency net url n)) m;
      m ← step cfg (FetchSettles p (respond net url n)) m;
      task ← find_task p (tasks m);
      match phase task with
      | AwaitTimer delay =>
          m ← step cfg (Tick delay) m;
          m ← step cfg (TimerFires p) m;
          settle fuel' cfg net p m
      | AwaitResume _ => step cfg (Resumes p) m
      | AwaitFetch _ => None
      end
  end.

(** A call of [loadContent] and, if it started an activation, the turns of
    that activation with nothing else in between. *)
Definition alone (fuel : nat) (cfg : Config.t) (net : Network) (tabId : string)
    (useCache : bool) (m : t) : option (Answer * t) :=
  let '(answer, m) := call cfg tabId useCache m in
  match answer with
  | Started p => m ← settle fuel cfg net p m; Some (answer, m)
  | _ => Some (answer, m)
  end.

End EventLoop.

(** [preloadContent(tabIds)] up to its [await]: the calls of [loadContent]
    that [tabIds.map] makes, in the order of the array, each run to its
    first [return] or [await], with the promises they hand back.  [None]
    is an argument that is not an array. *)
Definition preloadContent (cfg : Config.t) (tabIds : option (list string))
    (m : EventLoop.t) : list EventLoop.Answer * EventLoop.t :=
  match tabIds with
  | None => ([], m)
  | Some tabIds =>
      foldl (λ '(promises, m) tabId,
               let '(promise, m) := EventLoop.call cfg tabId true m in
               (promises ++ [promise], m))
        ([], m) tabIds
  end.

(** ** js/app.js: the controller's own loader *)

Module CPPGuideApp.

Record TabConfig := { id : string; label : string; file : string }.

Record t := make {
  contentCache : gmap string string;
  tabsConfig : list TabConfig;
  world : World
}.

(** [constructor()], as far as [loadContent] depends on it. *)
Definition constructor (w : World) : t :=
  make ∅
    [ Build_TabConfig "string" "std::string" "string.html";
      Build_TabConfig "stringstream" "std::stringstream" "stringstream.html";
      Build_TabConfig "vector" "std::vector" "vector.html";
      Build_TabConfig "map" "std::map" "map.html";
      Build_TabConfig "unordered_map" "std::unordered_map" "unordered_map.html";
      Build_TabConfig "set" "std::set" "set.html";
      Build_TabConfig "unordered_set" "std::unordered_set" "unordered_set.html";
      Build_TabConfig "priority_queue" "std::priority_queue" "priority_queue.html";
      Build_TabConfig "list" "std::list" "list.html";
      Build_TabConfig "queue" "std::queue" "queue.html";
      Build_TabConfig "stack" "std::stack" "stack.html";
      Build_TabConfig "deque" "std::deque" "deque.html";
      Build_TabConfig "algorithms" "Algorithms" "algorithms.html";
      Build_TabConfig "smart_pointers" "Smart Pointers" "smart_pointers.html";
      Build_TabConfig "concurrency" "Concurrency" "concurrency.html";
      Build_TabConfig "coroutines" "Coroutines" "coroutines.html";
      Build_TabConfig "oop" "OOP Concepts" "oop.html";
      Build_TabConfig "custom_types" "Custom Types" "custom_types.html" ]
    w.

(** [loadContent(tabId)], run to the end with nothing else interleaved. *)
Definition loadContent (net : Network) (tabId : string) (app : t)
    : Completion string * t :=
  match contentCache app !! tabId with
  | Some content => (Return content, app)
  | None =>
      match find (λ tab, String.eqb (id tab) tabId) (tabsConfig app) with
      | None => (Throw ("Tab configuration not found for: " +:+ tabId), app)
      | Some tabConfig =>
          let '(resp, w) := fetch net ("content/" +:+ file tabConfig) (world app) in
          let app := make (contentCache app) (tabsConfig app) w in
          match resp with
          | Rejected message => (Throw message, app)
          | Replied ok status _ content =>
              if negb ok
              then (Throw ("HTTP error! status: " +:+ pretty status), app)
              else (Return content,
                    make (<[tabId := content]> (contentCache app)) (tabsConfig app) w)
          end
      end
  end.

End CPPGuideApp.

(** ** js/app.js: switching tabs

    [switchTab] on the event loop, in a document that has [#tab-container]
    and [#content-container].  A call runs to the [await fetch(...)] of
    [loadContent], or to its end when the content is cached or the tab is
    not configured; it goes on when the response is in, after whatever
    other calls and responses came in between.  ([loadContent] awaits the
    response and then its text, and writes nothing between the two: one
    event stands for both.)  Of the page, the model keeps the buttons of
    the tab bar with their state classes and the document that was
    assigned to [innerHTML] of [#content-container] last.  What
    [highlightSyntax] and [generateTOC] then change inside that document
    (highlighting, ids of headings, inline tables removed) is not kept;
    both, and [setupScrollSpy], are taken to complete normally. *)

Module Page.

(** A [.tab-button]: its [dataset.tab], and whether [className] has the
    classes of the active state ([bg-cyan-500 text-white]). *)
Record Button := { tab : string; activeClasses : bool }.

(** What was assigned to [innerHTML] of [#content-container] last. *)
Inductive Container :=
| Untouched
| LoadingIndicator
| Content (content : string)
| ErrorMessage (message : string).

(** A [switchTab] that awaits the response to the request with the given
    number in [requests]. *)
Record Pending := { request : nat; tabId : string }.

Record t := make {
  app : CPPGuideApp.t;
  currentTab : option string;
  buttons : list Button;
  container : Container;
  pending : list Pending
}.

(** [createTabs()] *)
Definition createTabs (tabsConfig : list CPPGuideApp.TabConfig) : list Button :=
  map (λ tab, {| tab := CPPGuideApp.id tab; activeClasses := false |}) tabsConfig.

(** The constructor with the part of [init] that precedes the first
    [switchTab]. *)
Definition constructor (w : World) : t :=
  let app := CPPGuideApp.constructor w in
  make app None (createTabs (CPPGuideApp.tabsConfig app)) Untouched [].

(** [showLoading()] *)
Definition showLoading (page : t) : t :=
  make (app page) (currentTab page) (buttons page) LoadingIndicator (pending page).

(** [updateTabStates(activeTabId)] *)
Definition updateTabStates (activeTabId : string) (page : t) : t :=
  make (app page) (currentTab page)
    (map (λ button, {| tab := tab button;
                       activeClasses := String.eqb (tab button) activeTabId |})
       (buttons page))
    (container page) (pending page).

(** [displayContent(content)] *)
Definition displayContent (content : string) (page : t) : t :=
  make (app page) (currentTab page) (buttons page) (Content content) (pending page).

(** [showError(message)] *)
Definition showError (message : string) (page : t) : t :=
  make (app page) (currentTab page) (buttons page) (ErrorMessage message) (pending page).

(** [hideLoading()]: the element [#loading] is removed if the container
    still holds the indicator. *)
Definition hideLoading (page : t) : t :=
  match container page with
  | LoadingIndicator =>
      make (app page) (currentTab page) (buttons page) Untouched (pending page)
  | _ => page
  end.

(** [switchTab(tabId)] from the point where [loadContent] has returned
    [content] or thrown: the rest of the [try] block or the [catch] block,
    and [finally]. *)
Definition finish (tabId : string) (result : Completion string) (page : t) : t :=
  let page :=
    match result with
    | Return content =>
        let page := displayContent content page in
        make (app page) (Some tabId) (buttons page) (container page) (pending page)
    | Throw _ => showError "Failed to load content. Please try again." page
    end in
  hideLoading page.

(** [switchTab(tabId)] from its entry to the [await fetch(...)] of
    [loadContent], or to its end where [loadContent] does not get that
    far. *)
Definition switchTab (tabId : string) (page : t) : t :=
  let page := showLoading page in
  let page := updateTabStates tabId page in
  match CPPGuideApp.contentCache (app page) !! tabId with
  | Some content => finish tabId (Return content) page
  | None =>
      match find (λ tab, String.eqb (CPPGuideApp.id tab) tabId)
              (CPPGuideApp.tabsConfig (app page)) with
      | None => finish tabId (Throw ("Tab configuration not found for: " +:+ tabId)) page
      | Some tabConfig =>
          let w := CPPGuideApp.world (app page) in
          make (CPPGuideApp.make (CPPGuideApp.contentCache (app page))
                  (CPPGuideApp.tabsConfig (app page))
                  {| now := now w;
                     requests := requests w ++ ["content/" +:+ CPPGuideApp.file tabConfig] |})
            (currentTab page) (buttons page) (container page)
            (pending page ++ [{| request := length (requests w); tabId := tabId |}])
      end
  end.

(** [loadContent] and [switchTab] from the [await fetch(...)] on, for the
    activation [activation] and the response [resp]. *)
Definition resume (activation : Pending) (resp : Response) (page : t) : t :=
  let tabId := tabId activation in
  match resp with
  | Rejected message => finish tabId (Throw message) page
  | Replied ok status _ content =>
      if negb ok
      then finish tabId (Throw ("HTTP error! status: " +:+ pretty status)) page
      else
        let app :=
          CPPGuideApp.make (<[tabId := content]> (CPPGuideApp.contentCache (app page)))
            (CPPGuideApp.tabsConfig (app page)) (CPPGuideApp.world (app page)) in
        finish tabId (Return content)
          (make app (currentTab page) (buttons page) (container page) (pending page))
  end.

(** What happens to the page: a call of [switchTab] (by [init], by the
    click listener of the tab bar or by [goToTab]), and the arrival of a
    response. *)
Inductive Event :=
| click (tabId : string)
| responds (request : nat) (resp : Response).

(** One turn of the event loop; [None] when no [switchTab] awaits the
    response. *)
Definition step (ev : Event) (page : t) : option t :=
  match ev with
  | click tabId => Some (switchTab tabId page)
  | responds request resp =>
      activation ← find (λ activation, Page.request activation =? request) (pending page);
      Some (resume activation resp
              (make (app page) (currentTab page) (buttons page) (container page)
                 (List.filter (λ activation, negb (Page.request activation =? request))
                    (pending page))))
  end.

Fixpoint run (events : list Event) (page : t) : option t :=
  match events with
  | [] => Some page
  | ev :: events' => page' ← step ev page; run events' page'
  end.

End Page.

(** ** js/utils.js: [throttle] and [debounce]

    The closures that [throttle] and [debounce] return, with the timers of
    the host and the clock.  [func] is taken to return normally; what is
    kept of it is the list of its calls, each with the time of the call and
    the arguments.  A delay below zero counts as zero, as [setTimeout] has
    it.  The [throttle] method of [CPPGuideApp] in [js/app.js] is the same
    code. *)

Module Throttle.
Section Closure.
Context {A : Type}.

Record t := make {
  inThrottle : bool;                (* [undefined] counts as [false] *)
  timers : list (nat * Z);          (* pending [() => inThrottle = false], with the time due *)
  created : nat;
  now : Z;
  applied : list (Z * A)            (* [func.apply(this, args)] so far, oldest first *)
}.

(** [throttle(func, limit)] *)
Definition throttle (clock : Z) : t := make false [] 0 clock [].

(** A call of the returned function. *)
Definition invoke (limit : Z) (args : A) (st : t) : t :=
  if inThrottle st then st
  else make true
         (timers st ++ [(S (created st), now st + Z.max limit 0)%Z])
         (S (created st)) (now st)
         (applied st ++ [(now st, args)]).

Inductive Event :=
| call (args : A)
| timeout (id : nat)
| tick (elapsed : Z).

Definition step (limit : Z) (ev : Event) (st : t) : option t :=
  match ev with
  | call args => Some (invoke limit args st)
  | timeout id =>
      match find (λ timer, fst timer =? id) (timers st) with
      | Some (_, due) =>
          if (due <=? now st)%Z
          then Some (make false
                       (List.filter (λ timer, negb (fst timer =? id)) (timers st))
                       (created st) (now st) (applied st))
          else None
      | None => None
      end
  | tick elapsed =>
      if (0 <=? elapsed)%Z
      then Some (make (inThrottle st) (timers st) (created st) (now st + elapsed)%Z
                   (applied st))
      else None
  end.

Fixpoint run (limit : Z) (events : list Event) (st : t) : option t :=
  match events with
  | [] => Some st
  | ev :: events' => st' ← step limit ev st; run limit events' st'
  end.

End Closure.
Arguments t : clear implicits.
Arguments Event : clear implicits.
End Throttle.

Module Debounce.
Section Closure.
Context {A : Type}.

Record t := make {
  timeout_ : option nat;            (* the variable [timeout]; [None] is [undefined] or [null] *)
  timers : list (nat * Z * A);      (* pending [later], with the time due and the [args] it closed over *)
  created : nat;
  now : Z;
  called : list (Z * A);            (* the calls of the returned function so far *)
  applied : list (Z * A)            (* [func.apply(this, args)] so far, oldest first *)
}.

(** [debounce(func, wait, immediate)] *)
Definition debounce (clock : Z) : t := make None [] 0 clock [] [].

(** [clearTimeout(timeout)] *)
Definition clearTimeout (id : option nat) (timers : list (nat * Z * A))
    : list (nat * Z * A) :=
  match id with
  | None => timers
  | Some id => List.filter (λ timer, negb (fst (fst timer) =? id)) timers
  end.

(** A call of [executedFunction]. *)
Definition executedFunction (wait : Z) (immediate : bool) (args : A) (st : t) : t :=
  let callNow := immediate && negb (bool_decide (is_Some (timeout_ st))) in
  let timers := clearTimeout (timeout_ st) (timers st) in
  let id := S (created st) in
  make (Some id)
    (timers ++ [(id, now st + Z.max wait 0, args)%Z])
    id (now st)
    (called st ++ [(now st, args)])
    (if callNow then applied st ++ [(now st, args)] else applied st).

(** [later], for the call that was made with [args]. *)
Definition later (immediate : bool) (args : A) (st : t) : t :=
  make None (timers st) (created st) (now st) (called st)
    (if negb immediate then applied st ++ [(now st, args)] else applied st).

Inductive Event :=
| call (args : A)
| timeout (id : nat)
| tick (elapsed : Z).

Definition step (wait : Z) (immediate : bool) (ev : Event) (st : t) : option t :=
  match ev with
  | call args => Some (executedFunction wait immediate args st)
  | timeout id =>
      match find (λ timer, fst (fst timer) =? id) (timers st) with
      | Some (_, due, args) =>
          if (due <=? now st)%Z
          then Some (later immediate args
                       (make (timeout_ st)
                          (List.filter (λ timer, negb (fst (fst timer) =? id)) (timers st))
                          (created st) (now st) (called st) (applied st)))
          else None
      | None => None
      end
  | tick elapsed =>
      if (0 <=? elapsed)%Z
      then Some (make (timeout_ st) (timers st) (created st) (now st + elapsed)%Z
                   (called st) (applied st))
      else None
  end.

Fixpoint run (wait : Z) (immediate : bool) (events : list Event) (st : t) : option t :=
  match events with
  | [] => Some st
  | ev :: events' => st' ← step wait immediate ev st; run wait immediate events' st'
  end.

End Closure.
Arguments t : clear implicits.
Arguments Event : clear implicits.
End Debounce.

(** ** js/utils.js: [EventEmitter]

    Callbacks are numbered; two registrations are of the same function
    when they have the same number.  [this.events] is an object literal,
    so the names that [Object.prototype] defines are found in it before
    anything is registered, with values that have no [push], [filter] or
    [forEach].  Callbacks are taken not to call the emitter. *)

Module EventEmitter.

Record t := { events : gmap string (list nat) }.

(** [constructor()] *)
Definition constructor : t := {| events := ∅ |}.

(** The properties every object literal inherits. *)
Definition inherited (event : string) : bool :=
  existsb (String.eqb event)
    [ "constructor"; "__defineGetter__"; "__defineSetter__"; "hasOwnProperty";
      "__lookupGetter__"; "__lookupSetter__"; "isPrototypeOf";
      "propertyIsEnumerable"; "toString"; "valueOf"; "__proto__";
      "toLocaleString" ].

(** [on(event, callback)]; the function it returns is
    [() => this.off(event, callback)]. *)
Definition on (event : string) (callback : nat) (st : t) : Completion unit * t :=
  if inherited event
  then (Throw "this.events[event].push is not a function", st)
  else
    let registered := default [] (events st !! event) in
    (Return (), {| events := <[event := registered ++ [callback]]> (events st) |}).

(** [off(event, callback)] *)
Definition off (event : string) (callback : nat) (st : t) : Completion unit * t :=
  if inherited event
  then (Throw "this.events[event].filter is not a function", st)
  else
    match events st !! event with
    | None => (Return (), st)
    | Some registered =>
        (Return (),
         {| events := <[event := List.filter (λ cb, negb (cb =? callback)) registered]>
                        (events st) |})
    end.

(** [forEach(callback => callback(data))]: the callbacks called, up to the
    first that throws. *)
Fixpoint forEach (throws : nat → bool) (callbacks : list nat) : Completion unit * list nat :=
  match callbacks with
  | [] => (Return (), [])
  | callback :: callbacks' =>
      if throws callback then (Throw "callback", [callback])
      else let '(result, called) := forEach throws callbacks' in
           (result, callback :: called)
  end.

(** [emit(event, data)], with the callbacks it calls, in order. *)
Definition emit (throws : nat → bool) (event : string) (st : t)
    : Completion unit * list nat :=
  if inherited event
  then (Throw "this.events[event].forEach is not a function", [])
  else
    match events st !! event with
    | None => (Return (), [])
    | Some registered => forEach throws registered
    end.

(** Registrations and removals, one after the other; one that throws
    leaves the emitter as it was. *)
Inductive Op :=
| On (event : string) (callback : nat)
| Off (event : string) (callback : nat).

Definition apply (op : Op) (st : t) : t :=
  match op with
  | On event callback => snd (on event callback st)
  | Off event callback => snd (off event callback st)
  end.

Definition run (ops : list Op) (st : t) : t :=
  foldl (λ st op, apply op st) st ops.

End EventEmitter.

(** ** js/app.js: the heading ids of [generateTOC] *)

Module TOC.

(** A heading of the content ([h2] to [h5]) and a link of the table. *)
Record Heading := { id : string; textContent : string; tagName : string }.
Record Link := { href : string; text : string; className : string }.

Definition dash : ascii := ascii_of_nat 45.

(** [toLowerCase()], code unit by code unit: [A] to [Z] and the capital
    letters of Latin-1. *)
Definition lower (c : ascii) : ascii :=
  let n := nat_of_ascii c in
  if ((65 <=? n) && (n <=? 90)) || ((192 <=? n) && (n <=? 222) && negb (n =? 215))
  then ascii_of_nat (n + 32)
  else c.

Fixpoint toLowerCase (s : string) : string :=
  match s with
  | EmptyString => EmptyString
  | String c s' => String (lower c) (toLowerCase s')
  end.

(** The class [[a-z0-9]]. *)
Definition alnum (c : ascii) : bool :=
  let n := nat_of_ascii c in
  ((97 <=? n) && (n <=? 122)) || ((48 <=? n) && (n <=? 57)).

(** [.replace(/[^a-z0-9]/g, '-')] *)
Fixpoint replace_other (s : string) : string :=
  match s with
  | EmptyString => EmptyString
  | String c s' => String (if alnum c then c else dash) (replace_other s')
  end.

(** [.replace(/-+/g, '-')] *)
Fixpoint replace_runs (s : string) : string :=
  match s with
  | EmptyString => EmptyString
  | String c s' =>
      if Ascii.eqb c dash
      then match s' with
           | String c' _ => if Ascii.eqb c' dash then replace_runs s'
                            else String c (replace_runs s')
           | EmptyString => String c EmptyString
           end
      else String c (replace_runs s')
  end.

(** The alternative [-$] of the last [replace]. *)
Fixpoint drop_last_dash (s : string) : string :=
  match s with
  | EmptyString => EmptyString
  | String c EmptyString => if Ascii.eqb c dash then EmptyString else s
  | String c s' => String c (drop_last_dash s')
  end.

(** [.replace(/^-|-$/g, '')] *)
Definition replace_ends (s : string) : string :=
  match s with
  | String c s' => if Ascii.eqb c dash then drop_last_dash s' else drop_last_dash s
  | EmptyString => EmptyString
  end.

Definition slug (textContent : string) : string :=
  replace_ends (replace_runs (replace_other (toLowerCase textContent))).

(** The id given to the heading at [index] when it has none. *)
Definition heading_id (index : nat) (heading : Heading) : string :=
  "heading-" +:+ pretty index +:+ "-" +:+ slug (textContent heading).

(** The body of [headings.forEach((heading, index) => ...)]: the heading
    with its id, and its link. *)
Definition entry (index : nat) (heading : Heading) : Heading * Link :=
  let heading :=
    if negb (JS.truthy (id heading))
    then {| id := heading_id index heading; textContent := textContent heading;
            tagName := tagName heading |}
    else heading in
  (heading,
   {| href := "#" +:+ id heading;
      text := textContent heading;
      className := "toc-link toc-level-" +:+ toLowerCase (tagName heading) |}).

Fixpoint forEach (index : nat) (headings : list Heading) : list (Heading * Link) :=
  match headings with
  | [] => []
  | heading :: headings' => entry index heading :: forEach (S index) headings'
  end.

(** [generateTOC()] on the headings of the content, in document order:
    the headings as it leaves them and the links of the list.  (With no
    heading the sidebar gets a message instead of a list.) *)
Definition generateTOC (headings : list Heading) : list Heading * list Link :=
  (map fst (forEach 0 headings), map snd (forEach 0 headings)).

End TOC.

(** ** Vocabulary of the matcher properties *)

Section MatcherVocabulary.
Context {P : Type}.

(** [a] is not sorted after [b]. *)
Definition before (a b : Match.t P) : Prop := (TooltipManager.compare_matches a b ≤ 0)%Z.

(** Each match starts at or after the end of the one before it, the first
    at or after [e]. *)
Fixpoint chained (e : Z) (ms : list (Match.t P)) : Prop :=
  match ms with
  | [] => True
  | m :: ms' => (e ≤ Match.start m)%Z ∧ chained (Match.end_ m) ms'
  end.

(** The match lies in the text and records the text it covers. *)
Definition placed (text : string) (m : Match.t P) : Prop :=
  (0 ≤ Match.start m)%Z
  ∧ Match.end_ m = (Match.start m + Match.length m)%Z
  ∧ Match.length m = Z.of_nat (String.length (Match.text m))
  ∧ (Match.end_ m ≤ Z.of_nat (String.length text))%Z
  ∧ Match.text m
    = substring (Z.to_nat (Match.start m)) (String.length (Match.text m)) text.

End MatcherVocabulary.

(** ** Vocabulary of the annotator properties *)

(** A marker is an element with the class [tooltip-term]; the popover is
    the element with the class [tooltip-popover]. *)
Definition is_marker (cls : list string) : bool :=
  existsb (String.eqb "tooltip-term") cls.
Definition is_popover (cls : list string) : bool :=
  existsb (String.eqb "tooltip-popover") cls.

(** Some element of the chain is a marker or the popover. *)
Definition shielded (ancestors : list Ancestor) : bool :=
  TooltipManager.closest "tooltip-term" ancestors
  || TooltipManager.closest "tooltip-popover" ancestors.

(** The number of markers in the tree that lie inside a marker or inside
    the popover; [inside] tells whether the tree itself does. *)
Fixpoint nested_markers (inside : bool) (n : node) : nat :=
  match n with
  | TextNode _ => 0
  | Element _ cls _ children =>
      (if inside && is_marker cls then 1 else 0)
      + foldr (λ child rest,
                 nested_markers (is_marker cls || is_popover cls || inside) child + rest)
              0 children
  end.

(** The outermost markers and popovers of the tree with all they contain,
    in document order. *)
Fixpoint shielded_subtrees (n : node) : list node :=
  match n with
  | TextNode _ => []
  | Element _ cls _ children =>
      if is_marker cls || is_popover cls then [n]
      else flat_map shielded_subtrees children
  end.

(** The nested markers of a run of siblings. *)
Definition count_nested (inside : bool) (nodes : list node) : nat :=
  foldr (λ child rest, nested_markers inside child + rest) 0 nodes.

(** Induction on trees, with the property at hand for every child. *)
Section NodeInduction.
Context (Q : node → Prop).
Hypothesis Htext : ∀ v, Q (TextNode v).
Hypothesis Helem : ∀ tag cls tid children,
    Forall Q children → Q (Element tag cls tid children).

Fixpoint node_rect_nested (n : node) : Q n :=
  match n with
  | TextNode v => Htext v
  | Element tag cls tid children =>
      Helem tag cls tid children
        ((fix all (l : list node) : Forall Q l :=
            match l with
            | [] => @List.Forall_nil node Q
            | c :: l' => @List.Forall_cons node Q c l' (node_rect_nested c) (all l')
            end) children)
  end.
End NodeInduction.

(** The values of the text nodes of the tree, in document order. *)
Fixpoint all_texts (n : node) : list string :=
  match n with
  | TextNode nodeValue => [nodeValue]
  | Element _ _ _ children => flat_map all_texts children
  end.

(** The length of the longest of these. *)
Definition longest_text (n : node) : nat :=
  foldr (λ v rest, Nat.max (String.length v) rest) 0 (all_texts n).

(** ** Vocabulary of the content loader properties *)

(** The attempt that receives [resp] ends in the [catch] block. *)
Definition failed (resp : Response) : bool :=
  match ContentLoader.received resp with
  | Return _ => false
  | Throw _ => true
  end.

(** Every request for [url] fails, whenever it is made. *)
Definition permanently_failing (net : Network) (url : string) : Prop :=
  ∀ n, failed (respond net url n) = true.

(** The cache of the controller holds configured keys only. *)
Definition cache_within_config (app : CPPGuideApp.t) : Prop :=
  ∀ tabId, is_Some (CPPGuideApp.contentCache app !! tabId) →
    is_Some (find (λ tab, String.eqb (CPPGuideApp.id tab) tabId)
               (CPPGuideApp.tabsConfig app)).

(** The suspended activations have distinct keys, and each is the one
    recorded for its key in [loadingPromises]. *)
Definition coalesced (m : EventLoop.t) : Prop :=
  NoDup (map EventLoop.key (EventLoop.tasks m))
  ∧ ∀ task, In task (EventLoop.tasks m) →
      ContentLoader.loadingPromises (EventLoop.loader m) !! EventLoop.key task
      = Some (EventLoop.promise task).

(** The event neither resumes the [loadContent] behind promise [p] nor sets
    the clock back. *)
Definition leaves_pending (p : nat) (ev : EventLoop.Event) : Prop :=
  match ev with
  | EventLoop.Resumes q => q ≠ p
  | EventLoop.Tick elapsed => (0 ≤ elapsed)%Z
  | _ => True
  end.

(** The activation behind promise [p] is suspended, for the key [tabId]. *)
Definition pending (m : EventLoop.t) (tabId : string) (p : nat) : Prop :=
  ∃ task, In task (EventLoop.tasks m)
          ∧ EventLoop.key task = tabId ∧ EventLoop.promise task = p.

(** ** Vocabulary of the further annotator properties *)

(** Every marker of the tree carries an id that [definitionMap] knows. *)
Fixpoint markers_defined {P : Type} (tm : TooltipManager.t P) (n : node) : bool :=
  match n with
  | TextNode _ => true
  | Element _ cls tid children =>
      (if is_marker cls
       then match tid with
            | Some id => bool_decide (is_Some (TooltipManager.lookup_definition tm id))
            | None => false
            end
       else true)
      && forallb (markers_defined tm) children
  end.

(** Some element of the chain is a [CODE] or a [PRE]. *)
Definition in_code (ancestors : list Ancestor) : bool :=
  existsb (λ a, String.eqb (anc_tagName a) "CODE" || String.eqb (anc_tagName a) "PRE")
    ancestors.

(** Every marker of the tree, seen below [ancestors], has the class
    [tooltip-term--code] exactly when it sits in code. *)
Fixpoint code_classes_right (ancestors : list Ancestor) (n : node) : bool :=
  match n with
  | TextNode _ => true
  | Element tag cls _ children =>
      (if is_marker cls
       then Bool.eqb (existsb (String.eqb "tooltip-term--code") cls) (in_code ancestors)
       else true)
      && forallb (code_classes_right
                    ({| anc_tagName := tag; anc_classList := cls |} :: ancestors))
           children
  end.

(** No trigger matches in any text of the tree. *)
Definition no_term_in {P : Type} `{RegExp P} (fuel : nat) (tm : TooltipManager.t P)
    (n : node) : bool :=
  forallb (λ v, match TooltipManager.findMatches fuel tm v with
                | Some [] => true
                | _ => false
                end) (all_texts n).

(** ** Vocabulary of the further loader properties *)

(** [!content.trim()] *)
Definition blank (content : string) : bool := negb (JS.truthy (JS.trim content)).

(** What a suspended activation holds at its [await]: a retry count read
    from the counter, or a result that is a document. *)
Definition phase_settled (ph : EventLoop.Phase) : Prop :=
  match ph with
  | EventLoop.AwaitFetch retries => (0 ≤ retries)%Z
  | EventLoop.AwaitTimer _ => True
  | EventLoop.AwaitResume result =>
      ∃ content, result = Return content ∧ blank content = false
  end.

(** The books of the loader agree with the suspended activations: the
    promises are distinct and were created by the loader, [loadingPromises]
    and [retryCount] have entries for keys of activations only, the
    counters lie between 1 and [retryAttempts], and no cached document is
    blank. *)
Definition accounted (cfg : Config.t) (m : EventLoop.t) : Prop :=
  let st := EventLoop.loader m in
  let ts := EventLoop.tasks m in
  NoDup (map EventLoop.promise ts)
  ∧ (∀ task, In task ts →
       EventLoop.promise task < ContentLoader.created st
       ∧ phase_settled (EventLoop.phase task))
  ∧ (∀ k, is_Some (ContentLoader.loadingPromises st !! k) → In k (map EventLoop.key ts))
  ∧ (∀ k r, ContentLoader.retryCount st !! k = Some r →
       In k (map EventLoop.key ts)
       ∧ (1 ≤ r ≤ Config.retryAttempts (Config.content cfg))%Z)
  ∧ (∀ k entry, ContentLoader.cache st !! k = Some entry →
       blank (ContentLoader.content entry) = false).

(** The latencies of [count] requests for [url], the first of which is
    request number [n]. *)
Definition total_latency (net : Network) (url : string) (n count : nat) : Z :=
  foldr Z.add 0%Z (map (latency net url) (seq n count)).

(** ** Vocabulary of the popover properties *)

(** The attributes of the popover agree with each other and with
    [activeTerm], and what the popover shows is the definition of the
    active marker. *)
Definition popover_consistent {P : Type} (tm : TooltipManager.t P) (st : Popover.t P)
    : Prop :=
  let el := Popover.tooltipElement st in
  Popover.ariaHidden el = negb (Popover.classVisible el)
  ∧ Popover.visibilityHidden el = negb (Popover.classVisible el)
  ∧ (Popover.classVisible el = true ↔ is_Some (Popover.activeTerm st))
  ∧ ∀ term, Popover.activeTerm st = Some term →
      ∃ id definition,
        Popover.tooltipId term = Some id
        ∧ TooltipManager.lookup_definition tm id = Some definition
        ∧ Popover.innerHTML el = Some definition.

(** At most one timeout is pending, and [hideTimeout] holds its id. *)
Definition one_hide_timer {P : Type} (st : Popover.t P) : Prop :=
  Popover.timers st = []
  ∨ ∃ id due, Popover.timers st = [(id, due)] ∧ Popover.hideTimeout st = Some id.

(** The event makes a handler call [scheduleHide]. *)
Definition schedules_hide (ev : Popover.Event) : bool :=
  match ev with
  | Popover.mouseout (Some _) false => true
  | Popover.focusout (Some _) => true
  | _ => false
  end.

(** ** Vocabulary of the controller properties *)


(** [currentTab], when set, is a configured tab whose content is cached,
    and a document that [displayContent] was the last to write to
    [#content-container] is the cached one of [currentTab]. *)
Definition page_in_step (page : Page.t) : Prop :=
  (∀ tabId, Page.currentTab page = Some tabId →
     is_Some (find (λ tab, String.eqb (CPPGuideApp.id tab) tabId)
                (CPPGuideApp.tabsConfig (Page.app page)))
     ∧ is_Some (CPPGuideApp.contentCache (Page.app page) !! tabId))
  ∧ (∀ content, Page.container page = Page.Content content →
       ∃ tabId, Page.currentTab page = Some tabId
                ∧ CPPGuideApp.contentCache (Page.app page) !! tabId = Some content).

(** ** Vocabulary of the [throttle] and [debounce] properties *)

(** Each time of the list is at least [limit] after the one before. *)
Definition spaced (limit : Z) (times : list Z) : Prop :=
  ∀ i t1 t2, times !! i = Some t1 → times !! S i = Some t2 → (t1 + limit ≤ t2)%Z.

(** Where the closure of [throttle] stands after the last call of [func]:
    throttled with the one timeout that ends it pending, or free again
    with [limit] gone by. *)
Definition throttled {A : Type} (limit : Z) (st : Throttle.t A) : Prop :=
  spaced limit (map fst (Throttle.applied st))
  ∧ match last (Throttle.applied st) with
    | None => Throttle.inThrottle st = false ∧ Throttle.timers st = []
    | Some (tl, _) =>
        (tl ≤ Throttle.now st)%Z
        ∧ if Throttle.inThrottle st
          then ∃ id, Throttle.timers st = [(id, tl + Z.max limit 0)%Z]
          else Throttle.timers st = [] ∧ (tl + limit ≤ Throttle.now st)%Z
    end.

(** Where the closure of [debounce] stands: no timeout pending and every
    call at least [wait] ago, or the timeout of the last call pending. *)
Definition debouncing {A : Type} (wait : Z) (st : Debounce.t A) : Prop :=
  Forall (λ c, fst c ≤ Debounce.now st)%Z (Debounce.called st)
  ∧ Forall (λ c, fst c ≤ Debounce.now st)%Z (Debounce.applied st)
  ∧ ((Debounce.timeout_ st = None ∧ Debounce.timers st = []
      ∧ Forall (λ c, fst c + wait ≤ Debounce.now st)%Z (Debounce.called st))
     ∨ ∃ id t0 args,
         Debounce.timeout_ st = Some id
         ∧ Debounce.timers st = [(id, t0 + Z.max wait 0, args)%Z]
         ∧ In (t0, args) (Debounce.called st)
         ∧ Forall (λ c, fst c ≤ t0)%Z (Debounce.called st)).

(** [func] was applied at time [t] to the arguments of a call that was
    made at least [wait] before, with no call since. *)
Definition after_silence {A : Type} (wait : Z) (called : list (Z * A)) (app : Z * A)
    : Prop :=
  ∃ t0, In (t0, snd app) called
        ∧ (t0 + wait ≤ fst app)%Z
        ∧ ∀ c, In c called → (fst c ≤ t0)%Z ∨ (fst app ≤ fst c)%Z.

(** [func] was applied in a call of the wrapper, and every earlier call
    was made at least [wait] before that one. *)
Definition at_leading_edge {A : Type} (wait : Z) (called : list (Z * A)) (app : Z * A)
    : Prop :=
  In app called
  ∧ ∀ c, In c called → (fst c < fst app)%Z → (fst c + wait ≤ fst app)%Z.

(** ** Vocabulary of the [EventEmitter] property *)

(** [off(event, callback)] occurs in the list. *)
Definition removed_by (event : string) (callback : nat) (ops : list EventEmitter.Op)
    : bool :=
  existsb (λ op, match op with
                 | EventEmitter.Off e cb => String.eqb e event && (cb =? callback)
                 | EventEmitter.On _ _ => false
                 end) ops.

(** The callbacks of the registrations for [event] in the list that no
    later [off] of the list removes, in the order of the registrations. *)
Fixpoint listening (event : string) (ops : list EventEmitter.Op) : list nat :=
  match ops with
  | [] => []
  | EventEmitter.On e callback :: ops' =>
      if String.eqb e event && negb (removed_by event callback ops')
      then callback :: listening event ops'
      else listening event ops'
  | EventEmitter.Off _ _ :: ops' => listening event ops'
  end.

(** ** Vocabulary of the heading id properties *)

(** Every character is of [[a-z0-9]] or a dash. *)
Fixpoint slug_alphabet (s : string) : bool :=
  match s with
  | EmptyString => true
  | String c s' => (TOC.alnum c || Ascii.eqb c TOC.dash) && slug_alphabet s'
  end.

Definition starts_with_dash (s : string) : bool :=
  match s with
  | String c _ => Ascii.eqb c TOC.dash
  | EmptyString => false
  end.

Fixpoint ends_with_dash (s : string) : bool :=
  match s with
  | EmptyString => false
  | String c EmptyString => Ascii.eqb c TOC.dash
  | String _ s' => ends_with_dash s'
  end.

(** Two dashes in a row occur in the string. *)
Fixpoint has_double_dash (s : string) : bool :=
  match s with
  | EmptyString => false
  | String c s' => (Ascii.eqb c TOC.dash && starts_with_dash s') || has_double_dash s'
  end.

(** Every character is a decimal digit. *)
Fixpoint all_digits (s : string) : bool :=
  match s with
  | EmptyString => true
  | String c s' =>
      ((48 <=? nat_of_ascii c) && (nat_of_ascii c <=? 57)) && all_digits s'
  end.

(** ** A definition list with a trigger that matches a prefix of another

    [std] is listed before [std::move]: on [std::move] both triggers match
    at the same offset, the shorter one first in the order of the table. *)
Definition std_namespace : Def.t Regex.t :=
  Def.make "std" [Regex.Lit "std"] "std"
    "<p>The namespace of the standard library.</p>".

Definition prefix_definitions : list (Def.t Regex.t) :=
  [std_namespace; Defaults.std_move].

(** The document tells its reader that the content for [title] could not
    be loaded. *)
Definition names (title document : string) : Prop :=
  ∃ before after,
    document
    = before +:+ "Sorry, we couldn't load the content for <strong>"
      +:+ title +:+ "</strong>." +:+ after.

(** * Properties *)

(** ** Strings *)

Section StringFacts.

Lemma append_cons (c : ascii) (s t : string) :
  String c s +:+ t = String c (s +:+ t).
Proof. reflexivity. Qed.

Lemma append_nil_l (s : string) : "" +:+ s = s.
Proof. reflexivity. Qed.

Lemma append_nil_r (s : string) : s +:+ "" = s.
Proof. induction s as [|c s IH]; [done | by rewrite append_cons, IH]. Qed.

Lemma append_assoc (s1 s2 s3 : string) : (s1 +:+ s2) +:+ s3 = s1 +:+ (s2 +:+ s3).
Proof. induction s1 as [|c s1 IH]; [done | by rewrite !append_cons, IH]. Qed.

Lemma substring_zero (n : nat) (s : string) : substring n 0 s = "".
Proof.
  revert n; induction s as [|c s IH]; intros [|n]; simpl; auto.
Qed.

Lemma substring_length (n m : nat) (s : string) :
  String.length (substring n m s) = Nat.min m (String.length s - n).
Proof.
  revert n m; induction s as [|c s IH]; intros [|n] [|m]; simpl; auto;
    rewrite IH; simpl; lia.
Qed.

Lemma substring_all (s : string) : substring 0 (String.length s) s = s.
Proof. induction s as [|c s IH]; simpl; [done | by rewrite IH]. Qed.

Lemma substring_split (n m1 m2 : nat) (s : string) :
  substring n (m1 + m2) s = substring n m1 s +:+ substring (n + m1) m2 s.
Proof.
  revert n m1; induction s as [|c s IH]; intros n m1.
  - destruct n, m1, m2; reflexivity.
  - destruct n as [|n].
    + destruct m1 as [|m1]; simpl; [done |].
      by rewrite (IH 0 m1), append_cons.
    + simpl. apply IH.
Qed.

Lemma get_Some_lt (i : nat) (s : string) (c : ascii) :
  String.get i s = Some c → i < String.length s.
Proof.
  revert i; induction s as [|d s IH]; intros [|i]; simpl; try done; try lia.
  intros Hg. apply IH in Hg. lia.
Qed.

Lemma slice_substring (s : string) (a b : nat) :
  a ≤ b → b ≤ String.length s →
  JS.slice s (Z.of_nat a) (Z.of_nat b) = substring a (b - a) s.
Proof.
  intros Hab Hb. unfold JS.slice, JS.clamp_index.
  destruct (Z.ltb_spec (Z.of_nat a) 0); [lia |].
  destruct (Z.ltb_spec (Z.of_nat b) 0); [lia |].
  rewrite !Z.min_l by lia.
  f_equal; lia.
Qed.

Lemma slice_from_substring (s : string) (a : nat) :
  a ≤ String.length s →
  JS.slice_from s (Z.of_nat a) = substring a (String.length s - a) s.
Proof. intros Ha. unfold JS.slice_from. by apply slice_substring. Qed.

End StringFacts.

(** ** The backtracking engine obeys the laws of [exec] *)

Module RegexFacts.
Import Regex.

Lemma star_bounds (step : nat → list nat) (L : nat) :
  (∀ i j, i ≤ L → In j (step i) → i ≤ j ≤ L) →
  ∀ fuel i j, i ≤ L → In j (star step fuel i) → i ≤ j ≤ L.
Proof.
  intros Hstep. induction fuel as [|fuel IH]; intros i j Hi Hin; simpl in Hin.
  - destruct Hin as [<- | []]. lia.
  - apply in_app_or in Hin as [Hin | [<- | []]]; [| lia].
    apply in_flat_map in Hin as (k & Hk & Hin).
    destruct (Nat.ltb_spec i k); [| by destruct Hin].
    destruct (Hstep i k Hi Hk) as [_ HkL].
    specialize (IH k j HkL Hin). lia.
Qed.

Lemma ends_bounds (r : Regex.t) (s : string) :
  ∀ i j, i ≤ String.length s → In j (ends r s i) → i ≤ j ≤ String.length s.
Proof.
  induction r as [l | | cs | | r1 IH1 r2 IH2 | r1 IH1 r2 IH2 | r IH | r IH | r IH];
    intros i j Hi Hin; simpl in Hin.
  - destruct (String.eqb_spec (substring i (String.length l) s) l) as [He |];
      [| by destruct Hin].
    destruct Hin as [<- | []].
    apply (f_equal String.length) in He. rewrite substring_length in He. lia.
  - destruct (String.get i s) as [c |] eqn:Hg; [| by destruct Hin].
    apply get_Some_lt in Hg.
    destruct (JS.is_whitespace c); [| by destruct Hin].
    destruct Hin as [<- | []]. lia.
  - destruct (String.get i s) as [c |] eqn:Hg; [| by destruct Hin].
    apply get_Some_lt in Hg.
    destruct (existsb _ _); [by destruct Hin |].
    destruct Hin as [<- | []]. lia.
  - destruct (boundary s i); [| by destruct Hin].
    destruct Hin as [<- | []]. lia.
  - apply in_flat_map in Hin as (k & Hk & Hin).
    destruct (IH1 i k Hi Hk) as [? HkL].
    specialize (IH2 k j HkL Hin). lia.
  - apply in_app_or in Hin as [Hin | Hin]; eauto.
  - exact (star_bounds (ends r s) (String.length s) IH (S (String.length s - i)) i j Hi Hin).
  - destruct (ends r s i); [by destruct Hin |].
    destruct Hin as [<- | []]. lia.
  - destruct (ends r s i); [| by destruct Hin].
    destruct Hin as [<- | []]. lia.
Qed.

Lemma search_spec (r : Regex.t) (s : string) (n i : nat) (res : ExecResult) :
  i + n ≤ S (String.length s) →
  search r s i n = Some res →
  i ≤ index res
  ∧ index res + String.length (matched res) ≤ String.length s
  ∧ matched res = substring (index res) (String.length (matched res)) s.
Proof.
  revert i; induction n as [|n IH]; intros i Hn Hs; simpl in Hs; [done |].
  destruct (ends r s i) as [|j js] eqn:He.
  - apply IH in Hs; [| lia]. destruct Hs as (? & ? & ?). auto with lia.
  - injection Hs as <-. simpl.
    destruct (ends_bounds r s i j) as [Hij Hj]; [lia | rewrite He; by left |].
    rewrite substring_length.
    replace (Nat.min (j - i) (String.length s - i)) with (j - i) by lia.
    repeat split; lia.
Qed.

Lemma exec_spec (r : Regex.t) (s : string) (i : nat) (res : ExecResult) :
  Regex.exec r s i = Some res →
  i ≤ index res
  ∧ index res + String.length (matched res) ≤ String.length s
  ∧ matched res = substring (index res) (String.length (matched res)) s.
Proof.
  unfold Regex.exec. destruct (Nat.ltb_spec (String.length s) i); [done |].
  apply search_spec. lia.
Qed.

End RegexFacts.

#[export] Instance Regex_RegExpLaws : RegExpLaws Regex.t.
Proof.
  split; intros p text i r Hex; apply RegexFacts.exec_spec in Hex; tauto.
Qed.

(** ** [Array.prototype.sort] *)

Section ArraySortFacts.
Context {A : Type} (cmp : A → A → Z).
Hypothesis cmp_total : ∀ a b, (cmp a b ≤ 0)%Z ∨ (cmp b a ≤ 0)%Z.
Hypothesis cmp_trans : ∀ a b c, (cmp a b ≤ 0)%Z → (cmp b c ≤ 0)%Z → (cmp a c ≤ 0)%Z.

Lemma sort_insert_perm (x : A) (l : list A) : sort_insert cmp x l ≡ₚ x :: l.
Proof.
  induction l as [|y l IH]; simpl; [done |].
  destruct (cmp x y <=? 0)%Z; [done |].
  rewrite IH. apply Permutation_swap.
Qed.

Lemma array_sort_perm (l : list A) : array_sort cmp l ≡ₚ l.
Proof.
  induction l as [|x l IH]; simpl; [done |].
  by rewrite sort_insert_perm, IH.
Qed.

Lemma sort_insert_sorted (x : A) (l : list A) :
  StronglySorted (λ a b, (cmp a b ≤ 0)%Z) l →
  StronglySorted (λ a b, (cmp a b ≤ 0)%Z) (sort_insert cmp x l).
Proof.
  induction 1 as [|y l Hl IH Hy]; simpl.
  - repeat constructor.
  - destruct (Z.leb_spec (cmp x y) 0) as [Hxy | Hxy].
    + constructor; [by constructor |].
      constructor; [done |].
      eapply Forall_impl; [exact Hy |]. intros z Hyz. by eapply cmp_trans.
    + constructor; [done |].
      rewrite sort_insert_perm. constructor; [| done].
      destruct (cmp_total x y); [lia | done].
Qed.

Lemma array_sort_sorted (l : list A) :
  StronglySorted (λ a b, (cmp a b ≤ 0)%Z) (array_sort cmp l).
Proof.
  induction l as [|x l IH]; simpl; [constructor | by apply sort_insert_sorted].
Qed.
End ArraySortFacts.

(** ** The pattern matcher *)

Module MatcherFacts.
Import TooltipManager.
Section Facts.
Context {P : Type} `{RegExp P}.

Lemma before_spec (a b : Match.t P) :
  before a b ↔
  (Match.start a < Match.start b)%Z
  ∨ (Match.start a = Match.start b ∧ Match.length b ≤ Match.length a)%Z.
Proof.
  unfold before, compare_matches.
  destruct (Z.eqb_spec (Match.start a) (Match.start b)); lia.
Qed.

Lemma compare_matches_total (a b : Match.t P) :
  (compare_matches a b ≤ 0)%Z ∨ (compare_matches b a ≤ 0)%Z.
Proof.
  unfold compare_matches.
  destruct (Z.eqb_spec (Match.start a) (Match.start b)),
           (Z.eqb_spec (Match.start b) (Match.start a)); lia.
Qed.

Lemma compare_matches_trans (a b c : Match.t P) :
  (compare_matches a b ≤ 0)%Z → (compare_matches b c ≤ 0)%Z →
  (compare_matches a c ≤ 0)%Z.
Proof.
  intros Hab Hbc. apply before_spec. apply before_spec in Hab, Hbc. lia.
Qed.

Lemma sorted_matches (l : list (Match.t P)) :
  StronglySorted before (array_sort compare_matches l).
Proof.
  apply array_sort_sorted;
    [apply compare_matches_total | apply compare_matches_trans].
Qed.

Lemma sweep_chained (ms : list (Match.t P)) :
  ∀ e, chained e (sweep e ms).
Proof.
  induction ms as [|m ms IH]; intros e; simpl; [done |].
  destruct (Z.leb_spec e (Match.start m)); simpl; auto.
Qed.

Lemma sweep_sublist (ms : list (Match.t P)) :
  ∀ e, sweep e ms `sublist_of` ms.
Proof.
  induction ms as [|m ms IH]; intros e; simpl; [done |].
  destruct (e <=? Match.start m)%Z; [apply sublist_skip | apply sublist_cons]; apply IH.
Qed.

Lemma chained_from (ms : list (Match.t P)) :
  Forall (λ m, (Match.start m ≤ Match.end_ m)%Z) ms →
  ∀ e m, chained e ms → m ∈ ms → (e ≤ Match.start m)%Z.
Proof.
  induction 1 as [|m0 ms Hm0 Hms IH]; intros e m Hch Hin.
  - by apply elem_of_nil in Hin.
  - destruct Hch as [He Hch].
    apply elem_of_cons in Hin as [-> | Hin]; [done |].
    specialize (IH _ _ Hch Hin). lia.
Qed.

Lemma chained_lookup (ms : list (Match.t P)) :
  Forall (λ m, (Match.start m ≤ Match.end_ m)%Z) ms →
  ∀ e i j m1 m2, chained e ms → i < j →
    ms !! i = Some m1 → ms !! j = Some m2 →
    (Match.end_ m1 ≤ Match.start m2)%Z.
Proof.
  induction 1 as [|m0 ms Hm0 Hms IH]; intros e i j m1 m2 Hch Hij H1 H2.
  - done.
  - destruct Hch as [He Hch].
    destruct j as [|j]; [lia |]. simpl in H2.
    destruct i as [|i]; simpl in H1.
    + injection H1 as <-.
      eapply chained_from; eauto. eapply list_elem_of_lookup_2; eauto.
    + eapply (IH _ i j); [exact Hch | lia | exact H1 | exact H2].
Qed.

(** *** What every raw match looks like *)

Section Collected.
Context (text : string) (Q : Match.t P → Prop) (I : nat → Prop).

Lemma scan_Forall (definition : Def.t P) (pattern : P) :
  (∀ i r, I i → exec pattern text i = Some r →
          Q (pushed definition r) ∧ I (index r + String.length (matched r))) →
  ∀ fuel i ms, I i → scan fuel definition pattern text i = Some ms → Forall Q ms.
Proof.
  intros Hstep. induction fuel as [|fuel IH]; intros i ms Hi Hscan; [done |].
  simpl in Hscan. destruct (exec pattern text i) as [r |] eqn:Hex.
  - destruct (Hstep i r Hi Hex) as [HQ HI].
    destruct (scan fuel _ _ _ _) as [rest |] eqn:Hrest; [| done].
    simpl in Hscan. injection Hscan as <-.
    constructor; [done |]. eapply IH; eauto.
  - injection Hscan as <-. constructor.
Qed.

Lemma scan_triggers_Forall (definition : Def.t P) (patterns : list P) :
  I 0 →
  (∀ pattern i r, pattern ∈ patterns → I i → exec pattern text i = Some r →
          Q (pushed definition r) ∧ I (index r + String.length (matched r))) →
  ∀ fuel ms, scan_triggers fuel definition patterns text = Some ms → Forall Q ms.
Proof.
  intros H0. induction patterns as [|p ps IH]; intros Hstep fuel ms Hscan;
    simpl in Hscan.
  - injection Hscan as <-. constructor.
  - destruct (scan fuel definition p text 0) as [found |] eqn:Hfound; [| done].
    destruct (scan_triggers fuel definition ps text) as [rest |] eqn:Hrest; [| done].
    simpl in Hscan. injection Hscan as <-.
    apply Forall_app. split.
    + eapply scan_Forall; [| exact H0 | exact Hfound].
      intros i r. apply Hstep. by left.
    + eapply IH; [| exact Hrest].
      intros pattern i r Hin. apply Hstep. by right.
Qed.

Lemma collect_Forall (defs : list (Def.t P)) :
  I 0 →
  (∀ definition pattern i r,
      definition ∈ defs → pattern ∈ Def.triggers definition →
      I i → exec pattern text i = Some r →
      Q (pushed definition r) ∧ I (index r + String.length (matched r))) →
  ∀ fuel ms, collect fuel defs text = Some ms → Forall Q ms.
Proof.
  intros H0. induction defs as [|d ds IH]; intros Hstep fuel ms Hc; simpl in Hc.
  - injection Hc as <-. constructor.
  - destruct (scan_triggers fuel d (Def.triggers d) text) as [found |] eqn:Hfound;
      [| done].
    destruct (collect fuel ds text) as [rest |] eqn:Hrest; [| done].
    simpl in Hc. injection Hc as <-.
    apply Forall_app. split.
    + eapply scan_triggers_Forall; [exact H0 | | exact Hfound].
      intros pattern i r. apply Hstep. by left.
    + eapply IH; [| exact Hrest].
      intros definition pattern i r Hin. apply Hstep. by right.
Qed.
End Collected.

(** What [findMatches] returns is a sub-sequence of the sorted raw
    matches. *)
Lemma findMatches_inv (fuel : nat) (tm : TooltipManager.t P) (text : string) (ms : list (Match.t P)) :
  findMatches fuel tm text = Some ms →
  ∃ raw, collect fuel (definitions tm) text = Some raw
         ∧ ms = sweep (-1) (array_sort compare_matches raw).
Proof.
  unfold findMatches. intros Hf.
  destruct (collect fuel (definitions tm) text) as [raw |]; [| done].
  exists raw. split; [done |].
  simpl in Hf. destruct raw; by injection Hf as <-.
Qed.

Lemma kept_Forall (Q : Match.t P → Prop) (raw : list (Match.t P)) :
  Forall Q raw → Forall Q (sweep (-1) (array_sort compare_matches raw)).
Proof.
  intros HQ. apply Forall_forall. intros m Hm.
  eapply elem_of_sublist in Hm; [| apply sweep_sublist].
  rewrite array_sort_perm in Hm.
  by eapply Forall_forall in HQ.
Qed.

Lemma collect_ordered (fuel : nat) (defs : list (Def.t P)) (text : string)
    (raw : list (Match.t P)) :
  collect fuel defs text = Some raw →
  Forall (λ m, (0 ≤ Match.start m ∧ Match.start m ≤ Match.end_ m)%Z) raw.
Proof.
  apply (collect_Forall text _ (λ _, True)); [done |].
  intros definition pattern i r _ _ _ _. split; [| done]. simpl. lia.
Qed.

(** The [length] of a raw match is its extent. *)
Lemma collect_extent (fuel : nat) (defs : list (Def.t P)) (text : string)
    (raw : list (Match.t P)) :
  collect fuel defs text = Some raw →
  Forall (λ m, Match.end_ m = Match.start m + Match.length m)%Z raw.
Proof.
  apply (collect_Forall text _ (λ _, True)); [done |].
  by intros definition pattern i r _ _ _ _.
Qed.

End Facts.
End MatcherFacts.

Section MatcherClaims.
Import TooltipManager MatcherFacts.
Context {P : Type} `{RegExp P}.

(** A match the sweep passes over starts inside the span held by
    [currentEnd], and that span belongs to a match sorted before it. *)
Lemma sweep_decides (ms : list (Match.t P)) :
  StronglySorted before ms →
  ∀ e m, m ∈ ms →
    m ∈ sweep e ms
    ∨ (Match.start m < e)%Z
    ∨ ∃ k, k ∈ sweep e ms ∧ before k m ∧ (Match.start m < Match.end_ k)%Z.
Proof.
  induction 1 as [|m0 ms Hms IH Hm0]; intros e m Hin.
  - by apply elem_of_nil in Hin.
  - simpl. destruct (Z.leb_spec e (Match.start m0)) as [Hle | Hlt].
    + apply elem_of_cons in Hin as [-> | Hin]; [left; by left |].
      destruct (IH (Match.end_ m0) m Hin) as [Hk | [Hlt | (k & Hk & Hb & Hlt)]].
      * left. by right.
      * right. right. exists m0. split; [by left |]. split; [| done].
        eapply Forall_forall in Hm0; eauto.
      * right. right. exists k. split; [by right | done].
    + apply elem_of_cons in Hin as [-> | Hin]; [right; by left |].
      apply IH, Hin.
Qed.

Lemma definitionMap_lookup (defs : list (Def.t P)) :
  ∀ (m0 : gmap string (Def.t P)) (k : string),
    foldl (λ m def, <[Def.id def := def]> m) m0 defs !! k
    = match last (filter (λ d, Def.id d = k) defs) with
      | Some d => Some d
      | None => m0 !! k
      end.
Proof.
  induction defs as [|d defs IH] using rev_ind; intros m0 k; [done |].
  rewrite foldl_snoc, filter_app, last_app.
  destruct (decide (Def.id d = k)) as [Heq | Hne].
  - rewrite filter_cons_True by done. simpl. subst k. apply lookup_insert_eq.
  - rewrite filter_cons_False by done. simpl.
    rewrite lookup_insert_ne by done. apply IH.
Qed.

End MatcherClaims.

(** C4: in the sequence [findMatches] returns no two matches overlap
    ([m1.start < m2.end] and [m2.start < m1.end] never hold together for
    matches at different positions of the sequence), and the sequence is in
    ascending order of [start]. *)
Theorem findMatches_disjoint_sorted {P : Type} `{RegExp P}
    (fuel : nat) (tm : TooltipManager.t P) (text : string) (ms : list (Match.t P)) :
  TooltipManager.findMatches fuel tm text = Some ms →
  ∀ i j m1 m2, ms !! i = Some m1 → ms !! j = Some m2 →
    (i ≠ j → ¬ (Match.start m1 < Match.end_ m2 ∧ Match.start m2 < Match.end_ m1)%Z)
    ∧ (i < j → (Match.start m1 ≤ Match.start m2)%Z).
Proof.
  intros Hf i j m1 m2 H1 H2.
  apply MatcherFacts.findMatches_inv in Hf as (raw & Hraw & ->).
  apply MatcherFacts.collect_ordered in Hraw.
  assert (Hord : Forall (λ m : Match.t P, (Match.start m ≤ Match.end_ m)%Z)
                   (TooltipManager.sweep (-1)
                      (array_sort TooltipManager.compare_matches raw))).
  { apply MatcherFacts.kept_Forall. eapply Forall_impl; [exact Hraw |].
    intros m [_ Hm]. exact Hm. }
  pose proof (MatcherFacts.sweep_chained
                (array_sort TooltipManager.compare_matches raw) (-1)) as Hch.
  pose proof (MatcherFacts.chained_lookup _ Hord (-1)%Z) as Hlk.
  assert (Hs1 : (Match.start m1 ≤ Match.end_ m1)%Z).
  { eapply Forall_forall in Hord; [exact Hord |]. eapply list_elem_of_lookup_2; eauto. }
  assert (Hs2 : (Match.start m2 ≤ Match.end_ m2)%Z).
  { eapply Forall_forall in Hord; [exact Hord |]. eapply list_elem_of_lookup_2; eauto. }
  split.
  - intros Hne [Ha Hb].
    destruct (Nat.lt_total i j) as [Hij | [Heq | Hji]]; [| done |].
    + specialize (Hlk i j m1 m2 Hch Hij H1 H2). lia.
    + specialize (Hlk j i m2 m1 Hch Hji H2 H1). lia.
  - intros Hij. specialize (Hlk i j m1 m2 Hch Hij H1 H2). lia.
Qed.

Lemma findMatches_disjoint_sorted_witness :
  let text := "x = std::move (y); decltype(a) move(b)" in
  let ms := [ TooltipManager.pushed Defaults.std_move {| index := 4; matched := "std::move" |};
              TooltipManager.pushed Defaults.decltype_first {| index := 19; matched := "decltype" |};
              TooltipManager.pushed Defaults.std_move {| index := 31; matched := "move" |} ] in
  TooltipManager.findMatches 40 Defaults.manager text = Some ms
  ∧ ∀ i j m1 m2, ms !! i = Some m1 → ms !! j = Some m2 →
      (i ≠ j → ¬ (Match.start m1 < Match.end_ m2 ∧ Match.start m2 < Match.end_ m1)%Z)
      ∧ (i < j → (Match.start m1 ≤ Match.start m2)%Z).
Proof.
  intros text ms.
  assert (Hf : TooltipManager.findMatches 40 Defaults.manager text = Some ms)
    by (vm_compute; reflexivity).
  split; [exact Hf |].
  exact (findMatches_disjoint_sorted 40 Defaults.manager text ms Hf).
Defined.

Section TieBreak.
Import TooltipManager.
Context {P : Type} `{RegExp P}.

(** What the sweep keeps starts at or after [currentEnd]. *)
Lemma sweep_from (ms : list (Match.t P)) :
  Forall (λ m, Match.start m ≤ Match.end_ m)%Z ms →
  ∀ e m, m ∈ sweep e ms → (e ≤ Match.start m)%Z.
Proof.
  induction 1 as [|m0 ms Hm0 _ IH]; intros e m Hin; [by apply elem_of_nil in Hin |].
  cbn [sweep] in Hin. destruct (Z.leb_spec e (Match.start m0)) as [Hle | Hlt].
  - apply elem_of_cons in Hin as [-> | Hin]; [done |]. apply IH in Hin. lia.
  - by apply IH.
Qed.

(** Of two matches that start together, the sweep keeps none that ends
    before the other. *)
Lemma sweep_drops_shorter (ms : list (Match.t P)) :
  StronglySorted before ms →
  Forall (λ m, Match.start m ≤ Match.end_ m
               ∧ Match.end_ m = Match.start m + Match.length m)%Z ms →
  ∀ e a b, a ∈ ms → b ∈ ms →
    Match.start a = Match.start b → (Match.end_ b < Match.end_ a)%Z →
    b ∉ sweep e ms.
Proof.
  induction 1 as [|m0 ms Hms IH Hm0]; intros Hall e a b Ha Hb Hstart Hend Hkept;
    [by apply elem_of_nil in Ha |].
  apply Forall_cons in Hall as [[Hle0 Hext0] Hall].
  assert (Hord : Forall (λ m, Match.start m ≤ Match.end_ m)%Z ms).
  { eapply Forall_impl; [exact Hall |]. by intros m [? _]. }
  assert (Hexta : (Match.end_ a = Match.start a + Match.length a)%Z).
  { apply elem_of_cons in Ha as [-> | Ha]; [done |].
    eapply Forall_forall in Hall; [| exact Ha]. by destruct Hall. }
  assert (Hextb : (Match.start b ≤ Match.end_ b
                   ∧ Match.end_ b = Match.start b + Match.length b)%Z).
  { apply elem_of_cons in Hb as [-> | Hb]; [done |].
    eapply Forall_forall in Hall; [| exact Hb]. done. }
  assert (Hne : b ≠ m0).
  { intros ->. apply elem_of_cons in Ha as [-> | Ha]; [lia |].
    eapply Forall_forall in Hm0; [| exact Ha].
    apply MatcherFacts.before_spec in Hm0. lia. }
  apply elem_of_cons in Hb as [-> | Hb]; [done |].
  cbn [sweep] in Hkept. destruct (Z.leb_spec e (Match.start m0)) as [Hle | Hlt].
  - apply elem_of_cons in Hkept as [-> | Hkept]; [done |].
    apply elem_of_cons in Ha as [-> | Ha].
    + apply (sweep_from ms Hord) in Hkept. lia.
    + by eapply (IH Hall (Match.end_ m0) a b).
  - apply elem_of_cons in Ha as [-> | Ha].
    + apply (sweep_from ms Hord) in Hkept. lia.
    + by eapply (IH Hall e a b).
Qed.

End TieBreak.

(** C5: [findMatches] settles overlaps in favour of the earlier start and,
    at equal start, of the longer match: a raw match that is not returned
    starts inside a returned match that starts earlier, or that starts at
    the same offset and ends no sooner (its [end] and its [length] are at
    least those of the match passed over), and every returned match is a
    raw one; of two raw matches that start at the same offset, the one
    that ends sooner is never returned.  On [std::move(x)] the triggers [std::move] and [move] both
    match; the result holds the [std::move] match alone.  Where a table
    lists [std] before [std::move], both match at offset 0 and the result
    holds the longer one. *)
Theorem findMatches_prefers_earlier_then_longer :
  (∀ (P : Type) (R : RegExp P) (fuel : nat) (tm : TooltipManager.t P)
     (text : string) (raw ms : list (Match.t P)),
     TooltipManager.collect fuel (TooltipManager.definitions tm) text = Some raw →
     TooltipManager.findMatches fuel tm text = Some ms →
     (∀ m, m ∈ ms → m ∈ raw)
     ∧ (∀ m, m ∈ raw →
          m ∈ ms
          ∨ ∃ k, k ∈ ms
                 ∧ (Match.start k ≤ Match.start m < Match.end_ k)%Z
                 ∧ ((Match.start k < Match.start m)%Z
                    ∨ (Match.start k = Match.start m
                       ∧ Match.end_ m ≤ Match.end_ k
                       ∧ Match.length m ≤ Match.length k)%Z))
     ∧ (∀ a b, a ∈ raw → b ∈ raw →
          Match.start a = Match.start b → (Match.end_ b < Match.end_ a)%Z →
          b ∉ ms))
  ∧ (let long := TooltipManager.pushed Defaults.std_move {| index := 0; matched := "std::move" |} in
     let short := TooltipManager.pushed Defaults.std_move {| index := 5; matched := "move" |} in
     TooltipManager.collect 20 Defaults.DEFAULT_TOOLTIP_DEFINITIONS "std::move(x)"
       = Some [long; short]
     ∧ TooltipManager.findMatches 20 Defaults.manager "std::move(x)" = Some [long]
     ∧ TooltipManager.findMatches 20 Defaults.manager "std::move" = Some [long])
  ∧ (let prefix := TooltipManager.pushed std_namespace {| index := 0; matched := "std" |} in
     let long := TooltipManager.pushed Defaults.std_move {| index := 0; matched := "std::move" |} in
     let short := TooltipManager.pushed Defaults.std_move {| index := 5; matched := "move" |} in
     TooltipManager.collect 20 prefix_definitions "std::move(x)"
       = Some [prefix; long; short]
     ∧ TooltipManager.findMatches 20 (TooltipManager.constructor prefix_definitions)
         "std::move(x)" = Some [long]).
Proof.
  split; [| split].
  - intros P R fuel tm text raw ms Hraw Hf.
    apply MatcherFacts.findMatches_inv in Hf as (raw' & Hraw' & ->).
    rewrite Hraw in Hraw'. injection Hraw' as <-.
    pose proof (MatcherFacts.collect_ordered _ _ _ _ Hraw) as Hord.
    pose proof (MatcherFacts.collect_extent _ _ _ _ Hraw) as Hext.
    assert (Hsub : ∀ m, m ∈ TooltipManager.sweep (-1)
                              (array_sort TooltipManager.compare_matches raw) → m ∈ raw).
    { intros m Hm.
      eapply elem_of_sublist in Hm; [| apply MatcherFacts.sweep_sublist].
      by rewrite array_sort_perm in Hm. }
    split; [exact Hsub |]. split.
    + intros m Hm.
      assert (Hm' : m ∈ array_sort TooltipManager.compare_matches raw)
        by (by rewrite array_sort_perm).
      destruct (sweep_decides _ (MatcherFacts.sorted_matches raw) (-1)%Z m Hm')
        as [Hk | [Hlt | (k & Hk & Hb & Hlt)]].
      * by left.
      * eapply Forall_forall in Hord; [| exact Hm]. lia.
      * right. exists k. split; [done |].
        apply MatcherFacts.before_spec in Hb.
        pose proof (Hsub k Hk) as Hkraw.
        eapply Forall_forall in Hkraw; [| exact Hext].
        eapply Forall_forall in Hm; [| exact Hext].
        cbn beta in Hkraw, Hm. lia.
    + intros a b Ha Hb.
      apply (sweep_drops_shorter _ (MatcherFacts.sorted_matches raw));
        [| by rewrite array_sort_perm | by rewrite array_sort_perm].
      apply Forall_forall. intros m Hm. rewrite array_sort_perm in Hm.
      eapply Forall_forall in Hord; [| exact Hm].
      eapply Forall_forall in Hext; [| exact Hm]. cbn beta in Hord, Hext. lia.
  - vm_compute. auto.
  - vm_compute. auto.
Qed.

Lemma findMatches_prefers_earlier_then_longer_witness :
  let prefix := TooltipManager.pushed std_namespace {| index := 4; matched := "std" |} in
  let long := TooltipManager.pushed Defaults.std_move {| index := 4; matched := "std::move" |} in
  let short := TooltipManager.pushed Defaults.std_move {| index := 9; matched := "move" |} in
  let tm := TooltipManager.constructor prefix_definitions in
  TooltipManager.collect 20 prefix_definitions "a = std::move (b);"
    = Some [prefix; long; short]
  ∧ TooltipManager.findMatches 20 tm "a = std::move (b);" = Some [long]
  ∧ (∃ k, k ∈ [long]
          ∧ (Match.start k ≤ Match.start prefix < Match.end_ k)%Z
          ∧ ((Match.start k < Match.start prefix)%Z
             ∨ (Match.start k = Match.start prefix
                ∧ Match.end_ prefix ≤ Match.end_ k
                ∧ Match.length prefix ≤ Match.length k)%Z))
  ∧ (∃ k, k ∈ [long]
          ∧ (Match.start k ≤ Match.start short < Match.end_ k)%Z
          ∧ ((Match.start k < Match.start short)%Z
             ∨ (Match.start k = Match.start short
                ∧ Match.end_ short ≤ Match.end_ k
                ∧ Match.length short ≤ Match.length k)%Z))
  ∧ Match.start prefix = Match.start long
  ∧ (Match.end_ prefix < Match.end_ long)%Z.
Proof.
  intros prefix long short tm.
  assert (Hraw : TooltipManager.collect 20
                   (TooltipManager.definitions tm) "a = std::move (b);"
                 = Some [prefix; long; short]) by (vm_compute; reflexivity).
  assert (Hf : TooltipManager.findMatches 20 tm "a = std::move (b);"
               = Some [long]) by (vm_compute; reflexivity).
  split; [exact Hraw |]. split; [exact Hf |].
  destruct (proj1 findMatches_prefers_earlier_then_longer _ _ _ _ _ _ _ Hraw Hf)
    as (_ & Hrule & _).
  split; [| split; [| split; [reflexivity | reflexivity]]].
  - assert (Hin : prefix ∈ [prefix; long; short]) by left.
    destruct (Hrule prefix Hin) as [Hkept | Hlost]; [| exact Hlost].
    apply list_elem_of_singleton in Hkept. discriminate Hkept.
  - assert (Hin : short ∈ [prefix; long; short]) by (right; right; left).
    destruct (Hrule short Hin) as [Hkept | Hlost]; [| exact Hlost].
    apply list_elem_of_singleton in Hkept. discriminate Hkept.
Defined.

(** C2, as the code has it: of two definitions with the same id, the lookup
    by that id (the one [showTooltip] does for a marker) returns the one
    registered last; the earlier one is shadowed. *)
Theorem lookup_returns_last_registered {P : Type}
    (before between after : list (Def.t P)) (d1 d2 : Def.t P) :
  Def.id d1 = Def.id d2 →
  Forall (λ d, Def.id d ≠ Def.id d2) after →
  TooltipManager.lookup_definition
    (TooltipManager.constructor (before ++ d1 :: between ++ d2 :: after))
    (Def.id d1)
  = Some d2.
Proof.
  intros Hid Hafter.
  unfold TooltipManager.lookup_definition, TooltipManager.constructor. simpl.
  rewrite definitionMap_lookup.
  replace (before ++ d1 :: between ++ d2 :: after)
    with ((before ++ d1 :: between) ++ [d2] ++ after)
    by (by rewrite <- !app_assoc).
  rewrite !filter_app.
  assert (Hnone : filter (λ d, Def.id d = Def.id d1) after = []).
  { induction Hafter as [|d after Hd _ IH]; [done |].
    rewrite filter_cons_False by congruence. exact IH. }
  assert (Hlast : filter (λ d, Def.id d = Def.id d1) [d2] = [d2])
    by (by rewrite filter_cons_True by congruence).
  rewrite Hnone, app_nil_r, Hlast. by rewrite last_snoc.
Qed.

Lemma lookup_returns_last_registered_witness :
  Def.id Defaults.decltype_first = Def.id Defaults.decltype_second
  ∧ Forall (λ d : Def.t Regex.t, Def.id d ≠ Def.id Defaults.decltype_second) []
  ∧ TooltipManager.lookup_definition Defaults.manager "decltype"
    = Some Defaults.decltype_second.
Proof.
  split; [reflexivity |]. split; [constructor |].
  exact (lookup_returns_last_registered []
           [Defaults.std_move; Defaults.std_forward; Defaults.emplace] []
           Defaults.decltype_first Defaults.decltype_second
           eq_refl (List.Forall_nil _)).
Defined.

(** C2 as stated fails: in the shipped table the id [decltype] occurs twice
    and the lookup does not return the entry registered first. *)
Lemma lookup_returns_first_registered_fails :
  ¬ ∀ (before between after : list (Def.t Regex.t)) (d1 d2 : Def.t Regex.t),
      Def.id d1 = Def.id d2 →
      Forall (λ d, Def.id d ≠ Def.id d1) before →
      TooltipManager.lookup_definition
        (TooltipManager.constructor (before ++ d1 :: between ++ d2 :: after))
        (Def.id d1)
      = Some d1.
Proof.
  intros Hclaim.
  specialize (Hclaim [] [Defaults.std_move; Defaults.std_forward; Defaults.emplace] []
                Defaults.decltype_first Defaults.decltype_second
                eq_refl (List.Forall_nil _)).
  vm_compute in Hclaim. discriminate Hclaim.
Qed.

(** ** Matches of a lawful engine *)

Section LawfulMatcher.
Import TooltipManager MatcherFacts.
Context {P : Type} `{RegExpLaws P}.

Lemma collect_placed (fuel : nat) (defs : list (Def.t P)) (text : string)
    (raw : list (Match.t P)) :
  collect fuel defs text = Some raw → Forall (placed text) raw.
Proof.
  apply (collect_Forall text _ (λ i, i ≤ String.length text)); [lia |].
  intros definition pattern i r _ _ Hi Hex.
  destruct (exec_in_text _ _ _ _ Hex) as [Hin Hsub].
  split; [| done].
  unfold placed; simpl. rewrite Nat2Z.id.
  repeat split; try lia. exact Hsub.
Qed.

Lemma never_empty_on_spec (tm : TooltipManager.t P) (text : string) :
  never_empty_on tm text = true →
  ∀ definition pattern i r,
    definition ∈ definitions tm → pattern ∈ Def.triggers definition →
    i ≤ String.length text → exec pattern text i = Some r →
    0 < String.length (matched r).
Proof.
  unfold never_empty_on. intros Hne definition pattern i r Hd Hp Hi Hex.
  rewrite forallb_forall in Hne.
  specialize (Hne definition (proj1 (list_elem_of_In _ _) Hd)).
  rewrite forallb_forall in Hne.
  specialize (Hne pattern (proj1 (list_elem_of_In _ _) Hp)).
  rewrite forallb_forall in Hne.
  specialize (Hne i). rewrite Hex in Hne.
  assert (Hseq : In i (seq 0 (S (String.length text)))) by (apply in_seq; lia).
  specialize (Hne Hseq).
  destruct (matched r); [discriminate Hne | simpl; lia].
Qed.

Lemma collect_nonempty (fuel : nat) (tm : TooltipManager.t P) (text : string)
    (raw : list (Match.t P)) :
  never_empty_on tm text = true →
  collect fuel (definitions tm) text = Some raw →
  Forall (λ m, (0 < Match.length m)%Z) raw.
Proof.
  intros Hne.
  apply (collect_Forall text _ (λ i, i ≤ String.length text)); [lia |].
  intros definition pattern i r Hd Hp Hi Hex.
  pose proof (never_empty_on_spec tm text Hne _ _ _ _ Hd Hp Hi Hex).
  destruct (exec_in_text _ _ _ _ Hex) as [Hin _].
  split; [simpl; lia | done].
Qed.

(** *** The scan loops end *)

Lemma scan_total (definition : Def.t P) (pattern : P) (text : string) :
  (∀ i r, i ≤ String.length text → exec pattern text i = Some r →
          0 < String.length (matched r)) →
  ∀ fuel i, i ≤ String.length text → String.length text - i < fuel →
    is_Some (scan fuel definition pattern text i).
Proof.
  intros Hne. induction fuel as [|fuel IH]; intros i Hi Hfuel; [lia |].
  simpl. destruct (exec pattern text i) as [r |] eqn:Hex; [| by eexists].
  pose proof (Hne i r Hi Hex) as Hlen.
  pose proof (exec_from_lastIndex _ _ _ _ Hex) as Hfrom.
  destruct (exec_in_text _ _ _ _ Hex) as [Hin _].
  destruct (IH (index r + String.length (matched r))) as [rest ->]; [lia | lia |].
  by eexists.
Qed.

Lemma scan_triggers_total (definition : Def.t P) (text : string)
    (patterns : list P) (fuel : nat) :
  (∀ pattern i r, pattern ∈ patterns → i ≤ String.length text →
      exec pattern text i = Some r → 0 < String.length (matched r)) →
  String.length text < fuel →
  is_Some (scan_triggers fuel definition patterns text).
Proof.
  intros Hne Hfuel. induction patterns as [|p ps IH]; [by eexists |].
  cbn [scan_triggers].
  destruct (scan_total definition p text) with (fuel := fuel) (i := 0)
    as [found ->]; [| lia | lia |].
  { intros i r. apply Hne. by left. }
  destruct IH as [rest ->]; [| by eexists].
  intros pattern i r Hin. apply Hne. by right.
Qed.

Lemma collect_total (text : string) (defs : list (Def.t P)) (fuel : nat) :
  (∀ definition pattern i r,
      definition ∈ defs → pattern ∈ Def.triggers definition →
      i ≤ String.length text → exec pattern text i = Some r →
      0 < String.length (matched r)) →
  String.length text < fuel →
  is_Some (collect fuel defs text).
Proof.
  intros Hne Hfuel. induction defs as [|d ds IH]; [by eexists |].
  cbn [collect].
  destruct (scan_triggers_total d text (Def.triggers d) fuel) as [found ->];
    [| done |].
  { intros pattern i r. apply Hne. by left. }
  destruct IH as [rest ->]; [| by eexists].
  intros definition pattern i r Hin. apply Hne. by right.
Qed.

Lemma findMatches_total (tm : TooltipManager.t P) (text : string) (fuel : nat) :
  never_empty_on tm text = true →
  String.length text < fuel →
  is_Some (findMatches fuel tm text).
Proof.
  intros Hne Hfuel. unfold findMatches.
  destruct (collect_total text (definitions tm) fuel) as [raw ->]; [| done |].
  { apply never_empty_on_spec, Hne. }
  simpl. destruct raw; by eexists.
Qed.

End LawfulMatcher.

(** ** Rebuilding a text node *)

Section Rebuild.
Import TooltipManager MatcherFacts.
Context {P : Type} `{RegExpLaws P}.

Lemma textContent_of_app (l1 l2 : list node) :
  textContent_of (l1 ++ l2) = textContent_of l1 +:+ textContent_of l2.
Proof.
  induction l1 as [|n l1 IH]; [done |].
  cbn [app textContent_of foldr]. fold (textContent_of (l1 ++ l2)).
  fold (textContent_of l1). by rewrite IH, append_assoc.
Qed.

Lemma textContent_createTermNode (m : Match.t P) (ancestors : list Ancestor) :
  textContent (createTermNode m ancestors) = Match.text m.
Proof.
  unfold createTermNode, JS.truthy. cbn [textContent].
  destruct (String.eqb_spec (Match.text m) "") as [-> |]; simpl; [done |].
  apply append_nil_r.
Qed.

Lemma fragments_text (ancestors : list Ancestor) (text : string)
    (ms : list (Match.t P)) :
  Forall (placed text) ms →
  ∀ e, e ≤ String.length text → chained (Z.of_nat e) ms →
    textContent_of (fragments ancestors text (Z.of_nat e) ms)
    = substring e (String.length text - e) text.
Proof.
  induction 1 as [|m ms Hm Hms IH]; intros e He Hch; cbn [fragments].
  - destruct (Z.ltb_spec (Z.of_nat e) (Z.of_nat (String.length text))).
    + cbn. rewrite append_nil_r. by apply slice_from_substring.
    + replace (String.length text - e) with 0 by lia.
      by rewrite substring_zero.
  - destruct Hch as [Hle Hch].
    destruct Hm as (Hs & Hend & Hlen & Hin & Htext).
    set (a := Z.to_nat (Match.start m)) in *.
    set (n := String.length (Match.text m)) in *.
    assert (Ha : Match.start m = Z.of_nat a) by lia.
    assert (Hen : Match.end_ m = Z.of_nat (a + n)) by lia.
    rewrite textContent_of_app.
    cbn [textContent_of foldr]. fold (textContent_of (fragments ancestors text (Match.end_ m) ms)).
    rewrite textContent_createTermNode.
    rewrite Hen in Hch |- *. rewrite (IH (a + n)) by (done || lia).
    rewrite Htext at 1.
    replace (String.length text - e)
      with ((a - e) + (n + (String.length text - (a + n)))) by lia.
    rewrite !substring_split.
    replace (e + (a - e)) with a by lia.
    f_equal.
    destruct (Z.ltb_spec (Z.of_nat e) (Match.start m)).
    + cbn. rewrite append_nil_r, Ha. apply slice_substring; lia.
    + replace (a - e) with 0 by lia. by rewrite substring_zero.
Qed.

Lemma chained_nonneg (text : string) (ms : list (Match.t P)) (e : Z) :
  Forall (placed text) ms → chained e ms → chained 0 ms.
Proof.
  intros Hpl Hch. destruct ms as [|m ms]; [done |].
  destruct Hch as [_ Hch]. split; [| done].
  apply Forall_cons in Hpl as [(Hs & _) _]. exact Hs.
Qed.

Lemma processTextNode_text (fuel : nat) (tm : TooltipManager.t P)
    (ancestors : list Ancestor) (text : string) (nodes : list node) :
  processTextNode fuel tm ancestors text = Some nodes →
  textContent_of nodes = text.
Proof.
  unfold processTextNode. destruct (negb (JS.truthy text)).
  { intros [= <-]. cbn. apply append_nil_r. }
  destruct (findMatches fuel tm text) as [ms |] eqn:Hf; [| done].
  assert (Hfr : textContent_of (fragments ancestors text 0 ms) = text).
  { apply findMatches_inv in Hf as (raw & Hraw & ->).
    apply collect_placed in Hraw.
    pose proof (kept_Forall _ _ Hraw) as Hpl.
    change 0%Z with (Z.of_nat 0).
    rewrite (fragments_text ancestors text _ Hpl 0); [| lia |].
    - rewrite Nat.sub_0_r. apply substring_all.
    - eapply chained_nonneg; [exact Hpl | apply sweep_chained]. }
  simpl. destruct ms as [|m ms'].
  - intros [= <-]. cbn. apply append_nil_r.
  - intros [= <-]. exact Hfr.
Qed.

End Rebuild.

(** C10: when no trigger of the table produces an empty match on the text,
    [findMatches] returns, and every match it returns is well-formed:
    [end = start + length], [end > start], and [text] is the part of the
    input from [start] up to [end]; the nodes [processTextNode] puts in the
    place of the text node then spell the original text. *)
Theorem findMatches_well_formed {P : Type} `{RegExpLaws P}
    (tm : TooltipManager.t P) (text : string) :
  TooltipManager.never_empty_on tm text = true →
  (∃ ms, TooltipManager.findMatches (S (String.length text)) tm text = Some ms)
  ∧ ∀ fuel ms, TooltipManager.findMatches fuel tm text = Some ms →
      Forall (λ m, Match.end_ m = (Match.start m + Match.length m)%Z
                   ∧ (Match.start m < Match.end_ m)%Z
                   ∧ Match.text m = JS.slice text (Match.start m) (Match.end_ m)) ms
      ∧ ∀ ancestors nodes,
          TooltipManager.processTextNode fuel tm ancestors text = Some nodes →
          textContent_of nodes = text.
Proof.
  intros Hne. split; [exact (findMatches_total tm text _ Hne (Nat.lt_succ_diag_r _)) |].
  intros fuel ms Hf. split.
  - apply MatcherFacts.findMatches_inv in Hf as (raw & Hraw & ->).
    pose proof (collect_placed _ _ _ _ Hraw) as Hpl.
    pose proof (collect_nonempty _ _ _ _ Hne Hraw) as Hpos.
    apply MatcherFacts.kept_Forall.
    apply Forall_forall. intros m Hm.
    eapply Forall_forall in Hpl; [| exact Hm].
    eapply Forall_forall in Hpos; [| exact Hm]. simpl in Hpos.
    destruct Hpl as (Hs & Hend & Hlen & Hin & Htext).
    split; [done |]. split; [lia |].
    rewrite Htext at 1.
    replace (Match.start m) with (Z.of_nat (Z.to_nat (Match.start m))) at 2 by lia.
    replace (Match.end_ m)
      with (Z.of_nat (Z.to_nat (Match.start m) + String.length (Match.text m))) by lia.
    rewrite slice_substring by lia. f_equal. lia.
  - intros ancestors nodes. apply processTextNode_text.
Qed.

Lemma findMatches_well_formed_witness :
  let text := "Item v = std::move(w); decltype(v) u;" in
  TooltipManager.never_empty_on Defaults.manager text = true
  ∧ TooltipManager.findMatches 38 Defaults.manager text
    = Some [ TooltipManager.pushed Defaults.std_move {| index := 9; matched := "std::move" |};
             TooltipManager.pushed Defaults.decltype_first {| index := 23; matched := "decltype" |} ]
  ∧ ∀ ancestors nodes,
      TooltipManager.processTextNode 38 Defaults.manager ancestors text = Some nodes →
      textContent_of nodes = text.
Proof.
  intros text.
  assert (Hne : TooltipManager.never_empty_on Defaults.manager text = true)
    by (vm_compute; reflexivity).
  split; [exact Hne |]. split; [vm_compute; reflexivity |].
  destruct (findMatches_well_formed Defaults.manager text Hne) as [_ Hall].
  destruct (Hall 38 _ eq_refl) as [_ Hnodes].
  exact Hnodes.
Defined.

(** ** The term annotator *)

Section AnnotatorFacts.
Import TooltipManager.
Context {P : Type} `{RegExp P}.

Lemma flat_mapM_unchanged {A : Type} (f : A → option (list A)) (l : list A) :
  Forall (λ x, f x = Some [x]) l → flat_mapM f l = Some l.
Proof.
  induction 1 as [|x l Hx _ IH]; [done |].
  cbn [flat_mapM]. rewrite Hx, IH. done.
Qed.

Lemma shielded_cons (tag : string) (cls : list string) (ancestors : list Ancestor) :
  shielded ({| anc_tagName := tag; anc_classList := cls |} :: ancestors)
  = is_marker cls || is_popover cls || shielded ancestors.
Proof.
  unfold shielded, closest, is_marker, is_popover. cbn [existsb].
  unfold has_class at 1 3. cbn [anc_classList].
  destruct (existsb (String.eqb "tooltip-term") cls),
           (existsb (String.eqb "tooltip-popover") cls),
           (existsb (has_class "tooltip-term") ancestors),
           (existsb (has_class "tooltip-popover") ancestors); reflexivity.
Qed.

Lemma shouldProcessNode_unshielded (ancestors : list Ancestor) (v : string) :
  shouldProcessNode ancestors v = true → shielded ancestors = false.
Proof.
  unfold shouldProcessNode, shielded.
  destruct (negb (JS.truthy v) || negb (JS.truthy (JS.trim v))); [done |].
  destruct ancestors as [|parentElement up]; [done |].
  by destruct (closest "tooltip-term" (parentElement :: up)
               || closest "tooltip-popover" (parentElement :: up)).
Qed.

(** Below a marker or the popover, the walk changes nothing. *)
Lemma decorate_node_shielded (fuel : nat) (tm : TooltipManager.t P) (n : node) :
  ∀ ancestors, shielded ancestors = true →
    decorate_node fuel tm ancestors n = Some [n].
Proof.
  induction n as [v | tag cls tid children IH] using node_rect_nested;
    intros ancestors Hsh; cbn [decorate_node].
  - destruct (shouldProcessNode ancestors v) eqn:Hacc; [| done].
    apply shouldProcessNode_unshielded in Hacc. congruence.
  - rewrite flat_mapM_unchanged; [done |].
    eapply Forall_impl; [exact IH |]. intros c Hc. apply Hc.
    rewrite shielded_cons, Hsh. by rewrite orb_true_r.
Qed.

Lemma count_nested_app (inside : bool) (l k : list node) :
  count_nested inside (l ++ k) = count_nested inside l + count_nested inside k.
Proof.
  induction l as [|n l IH]; [done |].
  cbn [app count_nested foldr]. fold (count_nested inside (l ++ k)).
  fold (count_nested inside l). rewrite IH. lia.
Qed.

Lemma nested_markers_createTermNode (m : Match.t P) (ancestors : list Ancestor) :
  nested_markers false (createTermNode m ancestors) = 0.
Proof.
  unfold createTermNode. cbn [nested_markers andb].
  by destruct (JS.truthy (Match.text m)).
Qed.

Lemma count_nested_fragments (ancestors : list Ancestor) (text : string)
    (ms : list (Match.t P)) :
  ∀ lastIndex, count_nested false (fragments ancestors text lastIndex ms) = 0.
Proof.
  induction ms as [|m ms IH]; intros lastIndex; cbn [fragments].
  - by destruct (lastIndex <? _)%Z.
  - rewrite count_nested_app. cbn [count_nested foldr].
    fold (count_nested false (fragments ancestors text (Match.end_ m) ms)).
    rewrite IH, nested_markers_createTermNode.
    by destruct (lastIndex <? Match.start m)%Z.
Qed.

Lemma count_nested_processTextNode (fuel : nat) (tm : TooltipManager.t P)
    (ancestors : list Ancestor) (text : string) (nodes : list node) :
  processTextNode fuel tm ancestors text = Some nodes →
  count_nested false nodes = 0.
Proof.
  unfold processTextNode. destruct (negb (JS.truthy text)); [by intros [= <-] |].
  destruct (findMatches fuel tm text) as [ms |]; [| done].
  simpl. destruct ms as [|m ms]; intros [= <-]; [done |].
  exact (count_nested_fragments ancestors text (m :: ms) 0%Z).
Qed.

(** The walk leaves the number of nested markers as it is. *)
Lemma decorate_node_nested (fuel : nat) (tm : TooltipManager.t P) (n : node) :
  ∀ ancestors nodes,
    decorate_node fuel tm ancestors n = Some nodes →
    count_nested (shielded ancestors) nodes = nested_markers (shielded ancestors) n.
Proof.
  induction n as [v | tag cls tid children IH] using node_rect_nested;
    intros ancestors nodes Hd; cbn [decorate_node] in Hd.
  - destruct (shouldProcessNode ancestors v) eqn:Hacc.
    + apply shouldProcessNode_unshielded in Hacc. rewrite Hacc.
      by apply count_nested_processTextNode in Hd.
    + by injection Hd as <-.
  - destruct (flat_mapM _ children) as [children' |] eqn:Hch; [| done].
    simpl in Hd. injection Hd as <-.
    cbn [count_nested foldr nested_markers].
    rewrite Nat.add_0_r. f_equal.
    rewrite <- shielded_cons with (tag := tag).
    set (here := {| anc_tagName := tag; anc_classList := cls |}) in *.
    fold (count_nested (shielded (here :: ancestors)) children').
    fold (count_nested (shielded (here :: ancestors)) children).
    revert children' Hch. induction IH as [|c children Hc _ IHch];
      intros children' Hch; cbn [flat_mapM] in Hch.
    + by injection Hch as <-.
    + destruct (decorate_node fuel tm (here :: ancestors) c) as [cs |] eqn:Hcs; [| done].
      destruct (flat_mapM _ children) as [rest |]; [| done].
      simpl in Hch. injection Hch as <-.
      rewrite count_nested_app, (Hc _ _ Hcs), (IHch rest eq_refl). done.
Qed.

(** The walk keeps every marker and the popover as they are, in place. *)
Lemma decorate_node_keeps (fuel : nat) (tm : TooltipManager.t P) (n : node) :
  ∀ ancestors nodes,
    decorate_node fuel tm ancestors n = Some nodes →
    shielded_subtrees n `sublist_of` flat_map shielded_subtrees nodes.
Proof.
  induction n as [v | tag cls tid children IH] using node_rect_nested;
    intros ancestors nodes Hd.
  - apply sublist_nil_l.
  - destruct (is_marker cls || is_popover cls) eqn:Hown.
    + assert (Hsame : decorate_node fuel tm ancestors (Element tag cls tid children)
                      = Some [Element tag cls tid children]).
      { cbn [decorate_node]. rewrite flat_mapM_unchanged; [done |].
        apply Forall_forall. intros c _. apply decorate_node_shielded.
        rewrite shielded_cons, Hown. done. }
      rewrite Hsame in Hd. injection Hd as <-.
      cbn [flat_map]. by rewrite app_nil_r.
    + cbn [decorate_node] in Hd.
      destruct (flat_mapM _ children) as [children' |] eqn:Hch; [| done].
      simpl in Hd. injection Hd as <-.
      cbn [flat_map shielded_subtrees]. rewrite Hown, app_nil_r.
      revert children' Hch. induction IH as [|c children Hc _ IHch];
        intros children' Hch; cbn [flat_mapM] in Hch.
      * by injection Hch as <-.
      * destruct (decorate_node fuel tm _ c) as [cs |] eqn:Hcs; [| done].
        destruct (flat_mapM _ children) as [rest |]; [| done].
        simpl in Hch. injection Hch as <-.
        cbn [flat_map]. rewrite flat_map_app.
        apply sublist_app; [exact (Hc _ _ Hcs) | exact (IHch rest eq_refl)].
Qed.

Lemma decorate_as_walk (fuel : nat) (tm : TooltipManager.t P)
    (ancestors : list Ancestor) (root result : node) :
  decorate fuel tm ancestors root = Some result →
  (∃ v, root = TextNode v ∧ result = root)
  ∨ decorate_node fuel tm ancestors root = Some [result].
Proof.
  destruct root as [v | tag cls tid children]; cbn [decorate decorate_node].
  - intros [= <-]. left. eauto.
  - intros Hd. right.
    destruct (flat_mapM _ children) as [children' |]; [| done].
    simpl in Hd |- *. by injection Hd as <-.
Qed.

Lemma decorate_nested (fuel : nat) (tm : TooltipManager.t P)
    (ancestors : list Ancestor) (root result : node) :
  decorate fuel tm ancestors root = Some result →
  nested_markers (shielded ancestors) result = nested_markers (shielded ancestors) root.
Proof.
  intros Hd. apply decorate_as_walk in Hd as [(v & -> & ->) | Hd]; [done |].
  apply decorate_node_nested in Hd. cbn [count_nested foldr] in Hd. lia.
Qed.

Lemma decorate_keeps (fuel : nat) (tm : TooltipManager.t P)
    (ancestors : list Ancestor) (root result : node) :
  decorate fuel tm ancestors root = Some result →
  shielded_subtrees root `sublist_of` shielded_subtrees result.
Proof.
  intros Hd. apply decorate_as_walk in Hd as [(v & -> & ->) | Hd]; [done |].
  apply decorate_node_keeps in Hd. cbn [flat_map] in Hd. by rewrite app_nil_r in Hd.
Qed.

End AnnotatorFacts.

(** *** The walk ends *)

Section AnnotatorTotal.
Import TooltipManager.
Context {P : Type} `{RegExpLaws P}.

Lemma flat_mapM_total {A B : Type} (f : A → option (list B)) (l : list A) :
  Forall (λ x, is_Some (f x)) l → is_Some (flat_mapM f l).
Proof.
  induction 1 as [|x l [y Hy] _ [rest IH]]; [by eexists |].
  cbn [flat_mapM]. rewrite Hy, IH. by eexists.
Qed.

Lemma longest_bounds (l : list string) (fuel : nat) :
  foldr (λ v rest, Nat.max (String.length v) rest) 0 l < fuel →
  0 < fuel ∧ Forall (λ v, String.length v < fuel) l.
Proof.
  induction l as [|v l IH]; cbn [foldr]; intros Hlt; [split; [lia | constructor] |].
  destruct IH as [Hpos Hl]; [lia |]. split; [done |]. constructor; [lia | done].
Qed.

(** With no empty match on any text of the tree, and fuel beyond the
    longest text, the walk returns. *)
Lemma decorate_node_total (tm : TooltipManager.t P) (fuel : nat) (n : node) :
  ∀ ancestors,
    Forall (λ v, never_empty_on tm v = true) (all_texts n) →
    Forall (λ v, String.length v < fuel) (all_texts n) →
    is_Some (decorate_node fuel tm ancestors n).
Proof.
  induction n as [v | tag cls tid children IH] using node_rect_nested;
    intros ancestors Hne Hlen; cbn [decorate_node].
  - destruct (shouldProcessNode ancestors v); [| by eexists].
    apply Forall_cons in Hne as [Hne _]. apply Forall_cons in Hlen as [Hlen _].
    unfold processTextNode. destruct (negb (JS.truthy v)); [by eexists |].
    destruct (findMatches_total tm v fuel Hne Hlen) as [ms ->].
    simpl. destruct ms; by eexists.
  - cbn [all_texts] in Hne, Hlen.
    destruct (flat_mapM_total
                (decorate_node fuel tm
                   ({| anc_tagName := tag; anc_classList := cls |} :: ancestors))
                children) as [children' ->]; [| by eexists].
    induction IH as [|c children Hc _ IHch]; [constructor |].
    cbn [flat_map] in Hne, Hlen.
    apply Forall_app in Hne as [Hne1 Hne2]. apply Forall_app in Hlen as [Hlen1 Hlen2].
    constructor; [by apply Hc | by apply IHch].
Qed.

Lemma decorate_returns (tm : TooltipManager.t P) (ancestors : list Ancestor)
    (root : node) (fuel : nat) :
  Forall (λ v, never_empty_on tm v = true) (all_texts root) →
  longest_text root < fuel →
  is_Some (decorate fuel tm ancestors root).
Proof.
  intros Hne Hlen. apply longest_bounds in Hlen as [_ Hlen].
  destruct root as [v | tag cls tid children]; [by eexists |].
  destruct (decorate_node_total tm fuel (Element tag cls tid children) ancestors Hne Hlen)
    as [nodes Hnodes].
  cbn [decorate decorate_node] in Hnodes |- *.
  destruct (flat_mapM _ children) as [children' |]; [by eexists | done].
Qed.

End AnnotatorTotal.

(** C9, as the code has it: a second run of [decorate] wraps nothing
    inside a marker the first run created, nor inside the popover: every
    marker and the popover of the once-decorated tree are still there,
    unchanged and in order, and neither run adds a marker inside a marker
    or inside the popover, so the number of nested markers stays what it
    was in the root (zero where the root had none).  Outside the markers
    the second run may still wrap text. *)
Theorem decorate_twice_no_nesting {P : Type} `{RegExp P}
    (fuel : nat) (tm : TooltipManager.t P) (ancestors : list Ancestor)
    (root once twice : node) :
  TooltipManager.decorate fuel tm ancestors root = Some once →
  TooltipManager.decorate fuel tm ancestors once = Some twice →
  shielded_subtrees once `sublist_of` shielded_subtrees twice
  ∧ nested_markers (shielded ancestors) once = nested_markers (shielded ancestors) root
  ∧ nested_markers (shielded ancestors) twice = nested_markers (shielded ancestors) root.
Proof.
  intros H1 H2.
  split; [exact (decorate_keeps _ _ _ _ _ H2) |].
  pose proof (decorate_nested _ _ _ _ _ H1) as Hn1.
  pose proof (decorate_nested _ _ _ _ _ H2) as Hn2.
  split; [exact Hn1 | by rewrite Hn2].
Qed.

Lemma decorate_twice_no_nesting_witness :
  let marker id text := Element "SPAN" ["tooltip-term"] (Some id) [TextNode text] in
  let code_marker id text :=
    Element "SPAN" ["tooltip-term"; "tooltip-term--code"] (Some id) [TextNode text] in
  let popover := Element "DIV" ["tooltip-popover"] None [TextNode "decltype"] in
  let root :=
    Element "DIV" []%list None
      [ TextNode "call std::move(x) and std::movedecltype";
        Element "PRE" []%list None
          [Element "CODE" []%list None [TextNode "decltype(a) b;"]];
        Element "SCRIPT" []%list None [TextNode "decltype"];
        popover ] in
  let once :=
    Element "DIV" []%list None
      [ TextNode "call "; marker "std-move" "std::move"; TextNode "(x) and ";
        marker "std-move" "std::move"; TextNode "decltype";
        Element "PRE" []%list None
          [Element "CODE" []%list None
             [code_marker "decltype" "decltype"; TextNode "(a) b;"]];
        Element "SCRIPT" []%list None [TextNode "decltype"];
        popover ] in
  let twice :=
    Element "DIV" []%list None
      [ TextNode "call "; marker "std-move" "std::move"; TextNode "(x) and ";
        marker "std-move" "std::move"; marker "decltype" "decltype";
        Element "PRE" []%list None
          [Element "CODE" []%list None
             [code_marker "decltype" "decltype"; TextNode "(a) b;"]];
        Element "SCRIPT" []%list None [TextNode "decltype"];
        popover ] in
  TooltipManager.decorate 50 Defaults.manager [] root = Some once
  ∧ TooltipManager.decorate 50 Defaults.manager [] once = Some twice
  ∧ shielded_subtrees once `sublist_of` shielded_subtrees twice
  ∧ nested_markers false twice = 0.
Proof.
  intros marker code_marker popover root once twice.
  assert (H1 : TooltipManager.decorate 50 Defaults.manager [] root = Some once)
    by (vm_compute; reflexivity).
  assert (H2 : TooltipManager.decorate 50 Defaults.manager [] once = Some twice)
    by (vm_compute; reflexivity).
  split; [exact H1 |]. split; [exact H2 |].
  destruct (decorate_twice_no_nesting 50 Defaults.manager [] root once twice H1 H2)
    as (Hkeep & _ & Hcount).
  split; [exact Hkeep | exact Hcount].
Defined.

(** C9 as stated fails: [decorate] is not idempotent.  In
    [std::movedecltype] only [std::move] matches, since no word boundary
    precedes [decltype]; the first run leaves the text node [decltype]
    behind the marker it makes, and in that node the trigger of [decltype]
    matches, so the second run wraps it. *)
Lemma decorate_is_not_idempotent :
  ¬ ∀ (P : Type) (R : RegExp P) (fuel : nat) (tm : TooltipManager.t P)
      (ancestors : list Ancestor) (root once twice : node),
      TooltipManager.decorate fuel tm ancestors root = Some once →
      TooltipManager.decorate fuel tm ancestors once = Some twice →
      twice = once.
Proof.
  intros Hclaim.
  pose (marker := λ id text, Element "SPAN" ["tooltip-term"] (Some id) [TextNode text]).
  pose (root := Element "P" []%list None [TextNode "std::movedecltype"]).
  pose (once := Element "P" []%list None
                  [marker "std-move" "std::move"; TextNode "decltype"]).
  pose (twice := Element "P" []%list None
                   [marker "std-move" "std::move"; marker "decltype" "decltype"]).
  assert (H1 : TooltipManager.decorate 30 Defaults.manager [] root = Some once)
    by (vm_compute; reflexivity).
  assert (H2 : TooltipManager.decorate 30 Defaults.manager [] once = Some twice)
    by (vm_compute; reflexivity).
  specialize (Hclaim Regex.t _ 30 Defaults.manager [] root once twice H1 H2).
  discriminate Hclaim.
Qed.

(** ** The content loader, run sequentially *)

Section LoaderFacts.
Import ContentLoader.
Context (cfg : Config.t) (net : Network) (tabId : string).

Abbreviation url := (content_url cfg tabId).
Abbreviation attempts := (Config.retryAttempts (Config.content cfg)).

(** On a network that keeps failing, [_fetchContent] retries until the
    counter reaches [retryAttempts] and then returns the fallback. *)
Lemma _fetchContent_failing :
  permanently_failing net url →
  ∀ fuel st,
    Z.to_nat (attempts - retries_of st tabId) < fuel →
    ∃ error st',
      _fetchContent fuel cfg net tabId st
      = Some (Return (_getFallbackContent cfg tabId error), st')
      ∧ requests (world st')
        = requests (world st)
          ++ replicate (S (Z.to_nat (attempts - retries_of st tabId))) url
      ∧ retries_of st' tabId = Z.max (retries_of st tabId) attempts
      ∧ cache st' = cache st
      ∧ loadingPromises st' = loadingPromises st
      ∧ emitted st' = emitted st.
Proof.
  intros Hdown. induction fuel as [|fuel IH]; intros st Hfuel; [lia |].
  cbn [_fetchContent fetch].
  pose proof (Hdown (length (requests (world st)))) as Hfail.
  unfold failed in Hfail.
  destruct (received _) as [? | error]; [done |].
  unfold recover. cbn [world with_world].
  destruct (Z.ltb_spec (retries_of st tabId) attempts) as [Hlt | Hge].
  - set (st3 := with_world _ (with_retryCount _ _)).
    assert (Hr3 : retries_of st3 tabId = (retries_of st tabId + 1)%Z).
    { unfold retries_of, st3. cbn. by rewrite lookup_insert_eq. }
    destruct (IH st3) as (error' & st' & Hrun & Hreq & Hret & Hcache & Hlp & Hem).
    { rewrite Hr3. lia. }
    exists error', st'. rewrite Hrun. split; [done |].
    rewrite Hreq, Hr3, Hret, Hr3, Hcache, Hlp, Hem.
    replace (S (Z.to_nat (attempts - retries_of st tabId)))
      with (S (S (Z.to_nat (attempts - (retries_of st tabId + 1))))) by lia.
    cbn. rewrite <- app_assoc. repeat split; try done. lia.
  - exists error, (with_world (λ _, {| now := now (world st) + latency net url (length (requests (world st)));
                                        requests := requests (world st) ++ [url] |}) st).
    split; [done |].
    replace (Z.to_nat (attempts - retries_of st tabId)) with 0 by lia.
    cbn. repeat split; try done. unfold retries_of in *. cbn. lia.
Qed.

(** [_fetchContent] never throws. *)
Lemma _fetchContent_returns (fuel : nat) :
  ∀ st result st',
    _fetchContent fuel cfg net tabId st = Some (result, st') →
    ∃ content, result = Return content.
Proof.
  induction fuel as [|fuel IH]; intros st result st' Hrun; [done |].
  cbn [_fetchContent fetch] in Hrun.
  destruct (received _) as [content | error].
  - injection Hrun as <- _. eauto.
  - destruct (recover _ _ _ _ _) as [[delay | content] st2].
    + eapply IH, Hrun.
    + injection Hrun as <- _. eauto.
Qed.

(** A run of [_fetchContent] ends within [retryAttempts + 1] requests
    counted from the value of the retry counter. *)
Lemma _fetchContent_total :
  ∀ fuel st,
    Z.to_nat (attempts - retries_of st tabId) < fuel →
    is_Some (_fetchContent fuel cfg net tabId st).
Proof.
  induction fuel as [|fuel IH]; intros st Hfuel; [lia |].
  cbn [_fetchContent fetch].
  destruct (received _) as [content | error]; [by eexists |].
  unfold recover. cbn [world with_world].
  destruct (Z.ltb_spec (retries_of st tabId) attempts) as [Hlt | Hge]; [| by eexists].
  apply IH. unfold retries_of at 1. cbn. rewrite lookup_insert_eq. cbn. lia.
Qed.

End LoaderFacts.

Section LoadFacts.
Import ContentLoader.
Context (cfg : Config.t) (net : Network) (tabId : string).

Abbreviation url' := (content_url cfg tabId).
Abbreviation attempts' := (Config.retryAttempts (Config.content cfg)).

(** A load that neither hits the cache nor finds a promise, on a network
    that keeps failing: the fallback is returned and stored like content. *)
Lemma load_exhausted (useCache : bool) (st : t) (fuel : nat) :
  permanently_failing net url' →
  (if useCache then cached cfg tabId st else None) = None →
  loadingPromises st !! tabId = None →
  Z.to_nat (attempts' - retries_of st tabId) < fuel →
  ∃ error st',
    let fallback := _getFallbackContent cfg tabId error in
    loadContent fuel cfg net tabId useCache st = Some (Loaded (Return fallback), st')
    ∧ requests (world st')
      = requests (world st)
        ++ replicate (S (Z.to_nat (attempts' - retries_of st tabId))) url'
    ∧ cache st' !! tabId
      = Some {| content := fallback; timestamp := now (world st') |}
    ∧ retryCount st' !! tabId = None
    ∧ emitted st' = emitted st ++ [contentLoaded tabId fallback].
Proof.
  intros Hdown Hmiss Hlp Hfuel. unfold loadContent. rewrite Hmiss, Hlp.
  cbn [new_promise].
  set (st0 := with_loadingPromises _ _).
  destruct (_fetchContent_failing cfg net tabId Hdown fuel st0)
    as (error & st1 & Hrun & Hreq & _ & Hcache & _ & Hem); [exact Hfuel |].
  exists error. eexists. cbn zeta. rewrite Hrun. cbn.
  split; [reflexivity |]. cbn. rewrite Hreq, Hem.
  repeat split; [apply lookup_insert_eq | apply lookup_delete_eq].
Qed.

(** A fresh entry answers the load at once. *)
Lemma load_from_cache (content : string) (st : t) (fuel : nat) :
  cached cfg tabId st = Some content →
  loadContent fuel cfg net tabId true st = Some (FromCache content, st).
Proof. intros Hc. unfold loadContent. by rewrite Hc. Qed.

Lemma cached_spec (st : t) (c : string) :
  cached cfg tabId st = Some c ↔
  ∃ entry, cache st !! tabId = Some entry
           ∧ content entry = c
           ∧ (now (world st) - timestamp entry
              < Config.cacheTimeout (Config.content cfg))%Z.
Proof.
  unfold cached. destruct (cache st !! tabId) as [entry |].
  - destruct (Z.ltb_spec (now (world st) - timestamp entry)
                (Config.cacheTimeout (Config.content cfg))).
    + split; [intros [= <-]; eauto | intros (e & [= <-] & <- & _); done].
    + split; [done | intros (e & [= <-] & _ & ?); lia].
  - split; [done | intros (e & ? & _); done].
Qed.

(** [loadContent] never throws to its caller. *)
Lemma loadContent_returns (useCache : bool) (st : t) (fuel : nat)
    (out : Outcome) (st' : t) :
  loadContent fuel cfg net tabId useCache st = Some (out, st') →
  ∀ message, out ≠ Loaded (Throw message).
Proof.
  unfold loadContent. intros Hload message.
  destruct (if useCache then cached cfg tabId st else None);
    [by injection Hload as <- _ |].
  destruct (loadingPromises st !! tabId); [by injection Hload as <- _ |].
  cbn [new_promise] in Hload.
  destruct (_fetchContent _ _ _ _ _) as [[result st1] |] eqn:Hrun; [| done].
  apply _fetchContent_returns in Hrun as [content ->].
  cbn in Hload. by injection Hload as <- _.
Qed.

End LoadFacts.

(** C6: with [retryAttempts] at 3 and the retry counter of the key at zero,
    a network on which every attempt fails makes [_fetchContent] retry
    exactly three times, four requests in all, and then return the fallback
    document, which [loadContent] hands to its caller.  A rejected request
    and a successful response with a blank body both count as failed
    attempts. *)
Theorem retry_ceiling (cfg : Config.t) (net : Network) (tabId : string)
    (st : ContentLoader.t) (fuel : nat) :
  Config.retryAttempts (Config.content cfg) = 3%Z →
  ContentLoader.retries_of st tabId = 0%Z →
  permanently_failing net (ContentLoader.content_url cfg tabId) →
  4 ≤ fuel →
  (∃ error st',
     ContentLoader._fetchContent fuel cfg net tabId st
     = Some (Return (ContentLoader._getFallbackContent cfg tabId error), st')
     ∧ requests (ContentLoader.world st')
       = requests (ContentLoader.world st)
         ++ replicate 4 (ContentLoader.content_url cfg tabId)
     ∧ ContentLoader.retryCount st' !! tabId = Some 3%Z)
  ∧ (ContentLoader.loadingPromises st !! tabId = None →
     ∃ error st',
       ContentLoader.loadContent fuel cfg net tabId false st
       = Some (ContentLoader.Loaded
                 (Return (ContentLoader._getFallbackContent cfg tabId error)), st')
       ∧ requests (ContentLoader.world st')
         = requests (ContentLoader.world st)
           ++ replicate 4 (ContentLoader.content_url cfg tabId))
  ∧ (∀ message, failed (Rejected message) = true)
  ∧ (∀ status statusText body,
       JS.trim body = "" → failed (Replied true status statusText body) = true).
Proof.
  intros Hmax Hzero Hdown Hfuel. repeat split.
  - destruct (_fetchContent_failing cfg net tabId Hdown fuel st)
      as (error & st' & Hrun & Hreq & Hret & _); [rewrite Hmax, Hzero; lia |].
    exists error, st'. rewrite Hmax, Hzero in Hreq, Hret.
    split; [exact Hrun |]. split; [exact Hreq |].
    unfold ContentLoader.retries_of in Hret.
    destruct (ContentLoader.retryCount st' !! tabId) as [r |]; cbn in Hret; [| done].
    by subst r.
  - intros Hlp.
    destruct (load_exhausted cfg net tabId false st fuel Hdown eq_refl Hlp)
      as (error & st' & Hload & Hreq & _); [rewrite Hmax, Hzero; lia |].
    exists error, st'. rewrite Hmax, Hzero in Hreq. by split.
  - intros status statusText body Hblank.
    unfold failed, ContentLoader.received. cbn. by rewrite Hblank.
Qed.

Lemma retry_ceiling_witness :
  let net := {| respond := λ _ _, Replied true 200 "OK" "  ";
                latency := λ _ _, 20%Z |} in
  let st := ContentLoader.constructor {| now := 0; requests := [] |} in
  Config.retryAttempts (Config.content APP_CONFIG) = 3%Z
  ∧ ContentLoader.retries_of st "vector" = 0%Z
  ∧ permanently_failing net (ContentLoader.content_url APP_CONFIG "vector")
  ∧ ∃ error st',
      ContentLoader._fetchContent 4 APP_CONFIG net "vector" st
      = Some (Return (ContentLoader._getFallbackContent APP_CONFIG "vector" error), st')
      ∧ requests (ContentLoader.world st')
        = replicate 4 "./content/vector.html"
      ∧ ContentLoader.retryCount st' !! "vector" = Some 3%Z.
Proof.
  intros net st.
  assert (Hdown : permanently_failing net (ContentLoader.content_url APP_CONFIG "vector"))
    by (intros n; reflexivity).
  split; [reflexivity |]. split; [reflexivity |]. split; [exact Hdown |].
  exact (proj1 (retry_ceiling APP_CONFIG net "vector" st 4 eq_refl eq_refl Hdown (le_n 4))).
Defined.

(** C1, evaluated: on a network that rejects every request, the load of
    [vector] makes four requests and returns the fallback document; the
    [try] body of [loadContent] then stores that document in the cache
    under a comment that reads "Cache successful result", and the next load
    of the key is answered with the fallback from the cache, without a
    request, whatever the network has become. *)
Theorem fallback_is_cached :
  let down := {| respond := λ _ _, Rejected "Failed to fetch";
                 latency := λ _ _, 0%Z |} in
  let st0 := ContentLoader.constructor {| now := 0; requests := [] |} in
  let fallback := ContentLoader._getFallbackContent APP_CONFIG "vector" "Failed to fetch" in
  ∃ st1,
    ContentLoader.loadContent 4 APP_CONFIG down "vector" true st0
    = Some (ContentLoader.Loaded (Return fallback), st1)
    ∧ requests (ContentLoader.world st1) = replicate 4 "./content/vector.html"
    ∧ ContentLoader.cache st1 !! "vector"
      = Some {| ContentLoader.content := fallback; ContentLoader.timestamp := 6000 |}
    ∧ ContentLoader.emitted st1 = [ContentLoader.contentLoaded "vector" fallback]
    ∧ ∀ net fuel,
        ContentLoader.loadContent fuel APP_CONFIG net "vector" true st1
        = Some (ContentLoader.FromCache fallback, st1).
Proof.
  intros down st0 fallback.
  destruct (ContentLoader.loadContent 4 APP_CONFIG down "vector" true st0)
    as [[out st1] |] eqn:Hload; [| by vm_compute in Hload].
  exists st1.
  assert (Hout : out = ContentLoader.Loaded (Return fallback)
                 ∧ requests (ContentLoader.world st1) = replicate 4 "./content/vector.html"
                 ∧ ContentLoader.cache st1 !! "vector"
                   = Some {| ContentLoader.content := fallback;
                             ContentLoader.timestamp := 6000 |}
                 ∧ ContentLoader.emitted st1
                   = [ContentLoader.contentLoaded "vector" fallback]).
  { vm_compute in Hload. inversion Hload; subst out st1. vm_compute. auto. }
  destruct Hout as (-> & Hreq & Hcache & Hem).
  repeat split; try done.
  intros net fuel. apply load_from_cache.
  apply cached_spec. eexists. split; [exact Hcache |]. split; [done |].
  replace (now (ContentLoader.world st1)) with 6000%Z; [done |].
  vm_compute in Hload. by inversion Hload.
Qed.

(** ** The controller's own loader *)

Section ControllerFacts.
Import CPPGuideApp.

Lemma loadContent_unconfigured (net : Network) (tabId : string) (app : t) :
  cache_within_config app →
  find (λ tab, String.eqb (id tab) tabId) (tabsConfig app) = None →
  loadContent net tabId app
  = (Throw ("Tab configuration not found for: " +:+ tabId), app).
Proof.
  intros Hinv Hnone. unfold loadContent.
  destruct (contentCache app !! tabId) as [content |] eqn:Hc.
  - destruct (Hinv tabId) as [tab Htab]; [by eexists |]. congruence.
  - by rewrite Hnone.
Qed.

(** The invariant holds at the start and [loadContent] keeps it. *)
Lemma cache_within_config_constructor (w : World) :
  cache_within_config (constructor w).
Proof.
  intros tabId [content Hc]. unfold constructor in Hc. cbn [contentCache] in Hc.
  by rewrite lookup_empty in Hc.
Qed.

Lemma cache_within_config_loadContent (net : Network) (tabId : string) (app : t) :
  cache_within_config app → cache_within_config (snd (loadContent net tabId app)).
Proof.
  intros Hinv. unfold loadContent.
  destruct (contentCache app !! tabId); [done |].
  destruct (find _ (tabsConfig app)) as [tabConfig |] eqn:Hfind; [| done].
  cbn [fetch]. destruct (respond net _ _) as [message | ok status statusText content];
    [exact Hinv |].
  destruct ok; cbn; [| exact Hinv].
  intros k Hk. cbn in Hk |- *.
  destruct (decide (tabId = k)) as [<- | Hne]; [by eexists |].
  rewrite lookup_insert_ne in Hk by done. by apply Hinv.
Qed.

End ControllerFacts.

Section FallbackFacts.
Import ContentLoader.

Lemma names_here (title after : string) :
  names title ("Sorry, we couldn't load the content for <strong>"
               +:+ title +:+ "</strong>." +:+ after).
Proof. by exists "", after. Qed.

Lemma names_prepend (title piece document : string) :
  names title document → names title (piece +:+ document).
Proof.
  intros (before & after & ->). exists (piece +:+ before), after.
  by rewrite append_assoc.
Qed.

(** For a key without entry in [APP_CONFIG.tabs] the fallback document
    puts the key where the title of the tab would stand. *)
Lemma _getFallbackContent_unconfigured (cfg : Config.t) (tabId error : string) :
  find (λ tab, String.eqb (Config.id tab) tabId) (Config.tabs cfg) = None →
  names tabId (_getFallbackContent cfg tabId error).
Proof.
  intros Hnone. unfold _getFallbackContent. cbv zeta. rewrite Hnone.
  repeat first [apply names_here | apply names_prepend].
Qed.

End FallbackFacts.

(** C3, as the code has it: for a key outside the configured set, the
    controller's own [loadContent] fails at once, with no request; the
    content loader does not look the key up.  Its [loadContent] never
    throws, and on a network that keeps failing it retries as for any key
    and returns the fallback document, which then names the key itself. *)
Theorem unconfigured_key (tabId : string) :
  (∀ net app,
     cache_within_config app →
     find (λ tab, String.eqb (CPPGuideApp.id tab) tabId) (CPPGuideApp.tabsConfig app) = None →
     CPPGuideApp.loadContent net tabId app
     = (Throw ("Tab configuration not found for: " +:+ tabId), app))
  ∧ (∀ cfg net useCache st fuel out st',
       ContentLoader.loadContent fuel cfg net tabId useCache st = Some (out, st') →
       ∀ message, out ≠ ContentLoader.Loaded (Throw message))
  ∧ (∀ cfg net st fuel,
       find (λ tab, String.eqb (Config.id tab) tabId) (Config.tabs cfg) = None →
       permanently_failing net (ContentLoader.content_url cfg tabId) →
       ContentLoader.loadingPromises st !! tabId = None →
       Z.to_nat (Config.retryAttempts (Config.content cfg)
                 - ContentLoader.retries_of st tabId) < fuel →
       ∃ error st',
         ContentLoader.loadContent fuel cfg net tabId false st
         = Some (ContentLoader.Loaded
                   (Return (ContentLoader._getFallbackContent cfg tabId error)), st')
         ∧ requests (ContentLoader.world st')
           = requests (ContentLoader.world st)
             ++ replicate (S (Z.to_nat (Config.retryAttempts (Config.content cfg)
                                        - ContentLoader.retries_of st tabId)))
                  (ContentLoader.content_url cfg tabId)
         ∧ names tabId (ContentLoader._getFallbackContent cfg tabId error)).
Proof.
  split; [| split].
  - intros net app. apply loadContent_unconfigured.
  - intros cfg net useCache st fuel out st'. apply loadContent_returns.
  - intros cfg net st fuel Hnone Hdown Hlp Hfuel.
    destruct (load_exhausted cfg net tabId false st fuel Hdown eq_refl Hlp Hfuel)
      as (error & st' & Hload & Hreq & _).
    exists error, st'. split; [exact Hload |]. split; [exact Hreq |].
    by apply _getFallbackContent_unconfigured.
Qed.

Lemma unconfigured_key_witness :
  let down := {| respond := λ _ _, Rejected "Failed to fetch";
                 latency := λ _ _, 0%Z |} in
  let w := {| now := 0; requests := [] |} in
  (cache_within_config (CPPGuideApp.constructor w)
   ∧ CPPGuideApp.loadContent down "ranges" (CPPGuideApp.constructor w)
     = (Throw "Tab configuration not found for: ranges", CPPGuideApp.constructor w))
  ∧ (permanently_failing down (ContentLoader.content_url APP_CONFIG "ranges")
     ∧ ∃ error st',
         ContentLoader.loadContent 4 APP_CONFIG down "ranges" false
           (ContentLoader.constructor w)
         = Some (ContentLoader.Loaded
                   (Return (ContentLoader._getFallbackContent APP_CONFIG "ranges" error)),
                 st')
         ∧ requests (ContentLoader.world st') = replicate 4 "./content/ranges.html"
         ∧ names "ranges" (ContentLoader._getFallbackContent APP_CONFIG "ranges" error)).
Proof.
  intros down w.
  destruct (unconfigured_key "ranges") as (Happ & _ & Hloader).
  assert (Hdown : permanently_failing down (ContentLoader.content_url APP_CONFIG "ranges"))
    by (intros n; reflexivity).
  split.
  - split; [apply cache_within_config_constructor |].
    exact (Happ down (CPPGuideApp.constructor w)
             (cache_within_config_constructor w) eq_refl).
  - split; [exact Hdown |].
    exact (Hloader APP_CONFIG down (ContentLoader.constructor w) 4
             eq_refl Hdown eq_refl (le_n 4)).
Defined.

(** C3 as stated fails: [loadContent] of the content loader, given a key
    that is not configured, makes four requests and returns a document. *)
Lemma unconfigured_key_is_retried :
  ¬ ∀ (tabId : string) (net : Network) (st st' : ContentLoader.t)
      (fuel : nat) (out : ContentLoader.Outcome),
      find (λ tab, String.eqb (Config.id tab) tabId) (Config.tabs APP_CONFIG) = None →
      ContentLoader.loadContent fuel APP_CONFIG net tabId true st = Some (out, st') →
      (∃ message, out = ContentLoader.Loaded (Throw message))
      ∧ length (requests (ContentLoader.world st'))
        ≤ S (length (requests (ContentLoader.world st))).
Proof.
  intros Hclaim.
  pose (down := {| respond := λ _ _, Rejected "Failed to fetch";
                   latency := λ _ _, 0%Z |}).
  pose (st := ContentLoader.constructor {| now := 0; requests := [] |}).
  destruct (ContentLoader.loadContent 4 APP_CONFIG down "ranges" true st)
    as [[out st'] |] eqn:Hload; [| by vm_compute in Hload].
  destruct (Hclaim "ranges" down st st' 4 out eq_refl Hload) as [[message ->] Hreq].
  vm_compute in Hload. inversion Hload.
Qed.

(** C7: the cache check of [loadContent] yields content exactly when the
    key has an entry whose age, [Date.now()] minus its timestamp, is below
    [cacheTimeout]; a load that uses the cache and finds such an entry
    returns its content and leaves the loader as it was, without a request.
    A stale entry counts as absent but is not deleted: the load goes to the
    network with the entry still stored, and when the response arrives the
    new content is stored under the key. *)
Theorem cache_read_ttl (cfg : Config.t) (tabId : string) (st : ContentLoader.t) :
  (∀ c, ContentLoader.cached cfg tabId st = Some c ↔
        ∃ entry, ContentLoader.cache st !! tabId = Some entry
                 ∧ ContentLoader.content entry = c
                 ∧ (now (ContentLoader.world st) - ContentLoader.timestamp entry
                    < Config.cacheTimeout (Config.content cfg))%Z)
  ∧ (∀ c net fuel,
       ContentLoader.cached cfg tabId st = Some c →
       ContentLoader.loadContent fuel cfg net tabId true st
       = Some (ContentLoader.FromCache c, st))
  ∧ (∀ entry,
       ContentLoader.cache st !! tabId = Some entry →
       (Config.cacheTimeout (Config.content cfg)
        ≤ now (ContentLoader.world st) - ContentLoader.timestamp entry)%Z →
       ContentLoader.loadingPromises st !! tabId = None →
       ContentLoader.cached cfg tabId st = None
       ∧ (∀ tasks, ∃ promise m',
            EventLoop.call cfg tabId true {| EventLoop.loader := st; EventLoop.tasks := tasks |}
            = (EventLoop.Started promise, m')
            ∧ ContentLoader.cache (EventLoop.loader m') !! tabId = Some entry)
       ∧ (∀ net fuel body,
            ContentLoader.received
              (respond net (ContentLoader.content_url cfg tabId)
                 (length (requests (ContentLoader.world st))))
            = Return body →
            ∃ st',
              ContentLoader.loadContent (S fuel) cfg net tabId true st
              = Some (ContentLoader.Loaded (Return body), st')
              ∧ requests (ContentLoader.world st')
                = requests (ContentLoader.world st) ++ [ContentLoader.content_url cfg tabId]
              ∧ ContentLoader.cache st' !! tabId
                = Some {| ContentLoader.content := body;
                          ContentLoader.timestamp := now (ContentLoader.world st') |})).
Proof.
  split; [intros c; apply cached_spec |].
  split; [intros c net fuel; apply load_from_cache |].
  intros entry Hentry Hstale Hlp.
  assert (Hmiss : ContentLoader.cached cfg tabId st = None).
  { unfold ContentLoader.cached. rewrite Hentry.
    destruct (Z.ltb_spec (now (ContentLoader.world st) - ContentLoader.timestamp entry)
                (Config.cacheTimeout (Config.content cfg))); [lia | done]. }
  split; [exact Hmiss |]. split.
  - intros tasks. unfold EventLoop.call. cbn [EventLoop.loader].
    rewrite Hmiss, Hlp. cbn. eauto.
  - intros net fuel body Hbody.
    unfold ContentLoader.loadContent. rewrite Hmiss, Hlp.
    cbn [ContentLoader.new_promise ContentLoader._fetchContent fetch].
    cbn [ContentLoader.world ContentLoader.with_loadingPromises].
    rewrite Hbody. cbn. eexists. split; [reflexivity |].
    cbn. split; [done | apply lookup_insert_eq].
Qed.

Lemma cache_read_ttl_witness :
  let entry := {| ContentLoader.content := "<h1>std::vector</h1>";
                  ContentLoader.timestamp := 0 |} in
  let at_time t :=
    ContentLoader.make {["vector" := entry]} ∅ ∅ [] 1 {| now := t; requests := ["./content/vector.html"] |} in
  let net := {| respond := λ _ _, Replied true 200 "OK" "<h1>std::vector, revised</h1>";
                latency := λ _ _, 35%Z |} in
  (ContentLoader.cached APP_CONFIG "vector" (at_time 1000%Z) = Some "<h1>std::vector</h1>"
   ∧ ContentLoader.loadContent 4 APP_CONFIG net "vector" true (at_time 1000%Z)
     = Some (ContentLoader.FromCache "<h1>std::vector</h1>", at_time 1000%Z))
  ∧ (ContentLoader.cache (at_time 300000%Z) !! "vector" = Some entry
     ∧ ContentLoader.cached APP_CONFIG "vector" (at_time 300000%Z) = None
     ∧ ∃ st',
         ContentLoader.loadContent 1 APP_CONFIG net "vector" true (at_time 300000%Z)
         = Some (ContentLoader.Loaded (Return "<h1>std::vector, revised</h1>"), st')
         ∧ requests (ContentLoader.world st')
           = ["./content/vector.html"; "./content/vector.html"]
         ∧ ContentLoader.cache st' !! "vector"
           = Some {| ContentLoader.content := "<h1>std::vector, revised</h1>";
                     ContentLoader.timestamp := now (ContentLoader.world st') |}).
Proof.
  intros entry at_time net. split.
  - destruct (cache_read_ttl APP_CONFIG "vector" (at_time 1000%Z)) as (_ & Hfresh & _).
    assert (Hc : ContentLoader.cached APP_CONFIG "vector" (at_time 1000%Z)
                 = Some "<h1>std::vector</h1>") by (vm_compute; reflexivity).
    split; [exact Hc | exact (Hfresh _ net 4 Hc)].
  - destruct (cache_read_ttl APP_CONFIG "vector" (at_time 300000%Z)) as (_ & _ & Hstale).
    assert (Hentry : ContentLoader.cache (at_time 300000%Z) !! "vector" = Some entry)
      by (vm_compute; reflexivity).
    destruct (Hstale entry Hentry) as (Hmiss & _ & Hstore);
      [vm_compute; discriminate | vm_compute; reflexivity |].
    split; [exact Hentry |]. split; [exact Hmiss |].
    exact (Hstore net 0 "<h1>std::vector, revised</h1>" eq_refl).
Defined.

(** ** The content loader on the event loop *)

Section EventLoopFacts.
Import ContentLoader EventLoop.
Context (cfg : Config.t).

Lemma find_task_spec (p : nat) (ts : list Task) (task : Task) :
  find_task p ts = Some task → In task ts ∧ promise task = p.
Proof.
  unfold find_task. intros Hf. apply find_some in Hf as [Hin Hp].
  split; [done | by apply Nat.eqb_eq].
Qed.

Lemma set_phase_keys (p : nat) (ph : Phase) (ts : list Task) :
  map key (set_phase p ph ts) = map key ts.
Proof.
  unfold set_phase. rewrite map_map. apply map_ext.
  intros task. by destruct (promise task =? p).
Qed.

Lemma set_phase_In (p : nat) (ph : Phase) (ts : list Task) (task : Task) :
  In task (set_phase p ph ts) →
  ∃ task0, In task0 ts ∧ key task = key task0 ∧ promise task = promise task0.
Proof.
  unfold set_phase. intros Hin. apply in_map_iff in Hin as (task0 & Heq & Hin).
  exists task0. split; [done |].
  destruct (Nat.eqb_spec (promise task0) p); subst; auto.
Qed.

Lemma keys_unique (ts : list Task) (k : string) :
  NoDup (map key ts) →
  length (List.filter (λ task, String.eqb (key task) k) ts) ≤ 1.
Proof.
  induction ts as [|t ts IH]; intros Hnd; simpl; [lia |].
  apply NoDup_cons in Hnd as [Hnotin Hnd].
  destruct (String.eqb_spec (key t) k) as [Hk | Hk]; [| by apply IH].
  destruct (List.filter _ ts) as [|t' rest] eqn:Hf; [simpl; lia |].
  exfalso. assert (Hin : In t' (List.filter (λ task, String.eqb (key task) k) ts))
    by (rewrite Hf; by left).
  apply filter_In in Hin as [Hin Heq]. apply String.eqb_eq in Heq.
  apply Hnotin. apply list_elem_of_In. rewrite Hk, <- Heq. by apply in_map.
Qed.

Lemma filter_and_length {A : Type} (f g : A → bool) (l : list A) :
  length (List.filter (λ x, f x && g x) l) ≤ length (List.filter f l).
Proof.
  induction l as [|x l IH]; simpl; [lia |].
  destruct (f x), (g x); simpl; lia.
Qed.

Lemma loadingPromises_recover (tabId : string) (retries : Z) (error : string)
    (st : ContentLoader.t) :
  loadingPromises (snd (recover cfg tabId retries error st)) = loadingPromises st.
Proof. unfold recover. by destruct (retries <? _)%Z. Qed.

Lemma loadingPromises_resume (tabId : string) (result : Completion string)
    (st : ContentLoader.t) :
  loadingPromises (snd (resume tabId result st)) = delete tabId (loadingPromises st).
Proof. by destruct result. Qed.

Lemma loadingPromises_clearCache (tabId : option string) (st : ContentLoader.t) :
  loadingPromises (clearCache tabId st) = loadingPromises st.
Proof. destruct tabId as [tabId |]; [| done]. unfold clearCache. by destruct (JS.truthy tabId). Qed.

(** *** One activation on its own *)

Lemma step_Tick (elapsed : Z) (m : EventLoop.t) :
  step cfg (Tick elapsed) m
  = Some {| loader := with_world (sleep elapsed) (loader m); tasks := tasks m |}.
Proof. reflexivity. Qed.

Lemma find_task_single (tabId : string) (p : nat) (ph : Phase) :
  find_task p [{| key := tabId; promise := p; phase := ph |}]
  = Some {| key := tabId; promise := p; phase := ph |}.
Proof. unfold find_task. cbn [find promise]. by rewrite Nat.eqb_refl. Qed.

Lemma step_FetchSettles_single (st : ContentLoader.t) (tabId : string) (p : nat)
    (retries : Z) (resp : Response) :
  step cfg (FetchSettles p resp)
    {| loader := st;
       tasks := [{| key := tabId; promise := p; phase := AwaitFetch retries |}] |}
  = Some
      match received resp with
      | Return content =>
          {| loader := st;
             tasks := [{| key := tabId; promise := p;
                          phase := AwaitResume (Return content) |}] |}
      | Throw error =>
          match recover cfg tabId retries error st with
          | (Retry delay, st') =>
              {| loader := st';
                 tasks := [{| key := tabId; promise := p; phase := AwaitTimer delay |}] |}
          | (Fallback content, st') =>
              {| loader := st';
                 tasks := [{| key := tabId; promise := p;
                              phase := AwaitResume (Return content) |}] |}
          end
      end.
Proof.
  unfold step. cbn [tasks]. rewrite find_task_single.
  cbn [mbind option_bind phase key loader].
  destruct (received resp) as [content | error].
  - unfold set_phase. cbn [map promise key]. by rewrite Nat.eqb_refl.
  - destruct (recover cfg tabId retries error st) as [[delay | content] st'];
      unfold set_phase; cbn [map promise key]; by rewrite Nat.eqb_refl.
Qed.

Lemma step_TimerFires_single (st : ContentLoader.t) (tabId : string) (p : nat)
    (delay : Z) :
  step cfg (TimerFires p)
    {| loader := st;
       tasks := [{| key := tabId; promise := p; phase := AwaitTimer delay |}] |}
  = Some {| loader := snd (issue cfg tabId st);
            tasks := [{| key := tabId; promise := p;
                         phase := AwaitFetch (retries_of st tabId) |}] |}.
Proof.
  unfold step. cbn [tasks]. rewrite find_task_single.
  cbn [mbind option_bind phase key loader issue snd].
  unfold set_phase. cbn [map promise key]. by rewrite Nat.eqb_refl.
Qed.

Lemma step_Resumes_single (st : ContentLoader.t) (tabId : string) (p : nat)
    (result : Completion string) :
  step cfg (Resumes p)
    {| loader := st;
       tasks := [{| key := tabId; promise := p; phase := AwaitResume result |}] |}
  = Some {| loader := snd (resume tabId result st); tasks := [] |}.
Proof.
  unfold step. cbn [tasks]. rewrite find_task_single.
  cbn [mbind option_bind phase key loader].
  unfold remove_task. cbn [List.filter promise]. by rewrite Nat.eqb_refl.
Qed.

Lemma settle_single (net : Network) (st : ContentLoader.t) (tabId : string)
    (p : nat) (retries : Z) (fuel : nat) :
  settle (S fuel) cfg net p
    {| loader := st;
       tasks := [{| key := tabId; promise := p; phase := AwaitFetch retries |}] |}
  = let url := content_url cfg tabId in
    let n := pred (length (requests (world st))) in
    let st1 := with_world (sleep (latency net url n)) st in
    match received (respond net url n) with
    | Return content => Some {| loader := snd (resume tabId (Return content) st1);
                                tasks := [] |}
    | Throw error =>
        match recover cfg tabId retries error st1 with
        | (Retry delay, st2) =>
            let st3 := with_world (sleep delay) st2 in
            settle fuel cfg net p
              {| loader := snd (issue cfg tabId st3);
                 tasks := [{| key := tabId; promise := p;
                              phase := AwaitFetch (retries_of st3 tabId) |}] |}
        | (Fallback content, st2) =>
            Some {| loader := snd (resume tabId (Return content) st2); tasks := [] |}
        end
    end.
Proof.
  cbn [settle tasks]. rewrite find_task_single. cbn [mbind option_bind key loader].
  rewrite step_Tick. cbn [mbind option_bind loader tasks].
  rewrite step_FetchSettles_single. cbn [mbind option_bind].
  cbn zeta.
  destruct (received _) as [content | error].
  - cbn [tasks]. rewrite find_task_single.
    cbn [mbind option_bind phase]. apply step_Resumes_single.
  - destruct (recover _ _ _ _ _) as [[delay | content] st2]; cbn [tasks].
    + rewrite find_task_single. cbn [mbind option_bind phase].
      rewrite step_Tick. cbn [mbind option_bind loader tasks].
      rewrite step_TimerFires_single. reflexivity.
    + rewrite find_task_single.
      cbn [mbind option_bind phase]. apply step_Resumes_single.
Qed.

(** On its own, an activation goes through the turns of the sequential
    [_fetchContent], and its [loadContent] resumes with the same result. *)
Lemma settle_refines (net : Network) (tabId : string) (p : nat) (fuel : nat) :
  ∀ st result st',
    _fetchContent fuel cfg net tabId st = Some (result, st') →
    settle fuel cfg net p
      {| loader := snd (issue cfg tabId st);
         tasks := [{| key := tabId; promise := p;
                      phase := AwaitFetch (retries_of st tabId) |}] |}
    = Some {| loader := snd (resume tabId result st'); tasks := [] |}.
Proof.
  induction fuel as [|fuel IH]; intros st result st' Hrun; [done |].
  rewrite settle_single. cbn zeta.
  cbn [_fetchContent fetch] in Hrun.
  assert (Hn : pred (length (requests (world (snd (issue cfg tabId st)))))
               = length (requests (world st))).
  { cbn. rewrite length_app. cbn. lia. }
  rewrite Hn.
  assert (Hst : with_world (sleep (latency net (content_url cfg tabId)
                                     (length (requests (world st)))))
                  (snd (issue cfg tabId st))
                = with_world (λ _, {| now := now (world st)
                                             + latency net (content_url cfg tabId)
                                                 (length (requests (world st)));
                                      requests := requests (world st)
                                                  ++ [content_url cfg tabId] |}) st)
    by reflexivity.
  rewrite Hst.
  destruct (received _) as [content | error].
  - by injection Hrun as <- <-.
  - destruct (recover _ _ _ _ _) as [[delay | content] st2].
    + by apply IH.
    + by injection Hrun as <- <-.
Qed.

(** A load on its own does on the event loop what the sequential
    [loadContent] computes. *)
Lemma alone_refines (net : Network) (tabId : string) (useCache : bool) (fuel : nat)
    (st st' : ContentLoader.t) (out : Outcome) :
  loadContent fuel cfg net tabId useCache st = Some (out, st') →
  ∃ answer,
    alone fuel cfg net tabId useCache {| loader := st; tasks := [] |}
    = Some (answer, {| loader := st'; tasks := [] |})
    ∧ match out with
      | FromCache content => answer = Cached content
      | SamePromise promise => answer = Joined promise
      | Loaded _ => answer = Started (created st)
      end.
Proof.
  unfold loadContent, alone, call. cbn [loader tasks].
  destruct (if useCache then cached cfg tabId st else None) as [content |].
  { intros [= <- <-]. eauto. }
  destruct (loadingPromises st !! tabId) as [promise |].
  { intros [= <- <-]. eauto. }
  cbn [new_promise issue app]. intros Hload.
  destruct (_fetchContent fuel cfg net tabId _) as [[result st1] |] eqn:Hrun; [| done].
  cbn in Hload. injection Hload as <- <-.
  apply (settle_refines net tabId (created st)) in Hrun.
  eexists. split; [| reflexivity].
  cbn [issue snd] in Hrun |- *.
  change (retries_of (with_loadingPromises _ _) tabId) with (retries_of st tabId) in Hrun.
  etransitivity; [| etransitivity].
  2: { apply (f_equal (λ o, m ← o; Some (Started (created st), m))). exact Hrun. }
  - reflexivity.
  - by destruct result.
Qed.

Lemma coalesced_init (w : World) : coalesced (init w).
Proof. split; [constructor | intros task []]. Qed.

Lemma coalesced_call (tabId : string) (useCache : bool) (m : EventLoop.t) :
  coalesced m → coalesced (snd (call cfg tabId useCache m)).
Proof.
  intros [Hnd Hown]. unfold call.
  destruct (if useCache then cached cfg tabId (loader m) else None); [done |].
  destruct (loadingPromises (loader m) !! tabId) eqn:Hlp; [done |].
  cbn [issue new_promise snd loader tasks]. split; cbn [loader tasks].
  - rewrite map_app. cbn. apply NoDup_app. split; [done |]. split; [| apply NoDup_singleton].
    intros k Hk Hk'. apply list_elem_of_singleton in Hk'. subst k.
    apply list_elem_of_In, in_map_iff in Hk as (task & Hkey & Hin).
    specialize (Hown task Hin). rewrite Hkey in Hown. congruence.
  - intros task Hin. apply in_app_or in Hin as [Hin | [<- | []]].
    + specialize (Hown task Hin). cbn.
      rewrite lookup_insert_ne; [done |]. intros Heq. rewrite Heq in Hlp. congruence.
    + cbn. apply lookup_insert_eq.
Qed.

Lemma coalesced_set_phase (st : ContentLoader.t) (p : nat) (ph : Phase)
    (m : EventLoop.t) :
  loadingPromises st = loadingPromises (loader m) →
  coalesced m →
  coalesced {| loader := st; tasks := set_phase p ph (tasks m) |}.
Proof.
  intros Hlp [Hnd Hown]. split; cbn.
  - by rewrite set_phase_keys.
  - intros task Hin. apply set_phase_In in Hin as (task0 & Hin & -> & ->).
    rewrite Hlp. by apply Hown.
Qed.

Lemma coalesced_resume (task : Task) (result : Completion string) (m : EventLoop.t) :
  In task (tasks m) →
  coalesced m →
  coalesced {| loader := snd (resume (key task) result (loader m));
               tasks := remove_task (promise task) (tasks m) |}.
Proof.
  intros Htask [Hnd Hown]. split; cbn [loader tasks].
  - unfold remove_task. clear Hown Htask.
    induction (tasks m) as [|t ts IH]; [constructor |].
    cbn in Hnd |- *. apply NoDup_cons in Hnd as [Hnotin Hnd].
    destruct (negb _); [| by apply IH]. cbn. apply NoDup_cons. split; [| by apply IH].
    intros Hin. apply Hnotin. apply list_elem_of_In in Hin. apply list_elem_of_In.
    apply in_map_iff in Hin as (t' & Hkey & Hin). apply filter_In in Hin as [Hin _].
    rewrite <- Hkey. by apply in_map.
  - intros task' Hin. unfold remove_task in Hin. apply filter_In in Hin as [Hin Hp].
    rewrite loadingPromises_resume.
    rewrite lookup_delete_ne; [by apply Hown |].
    intros Hkey. pose proof (Hown task Htask) as H1. pose proof (Hown task' Hin) as H2.
    rewrite Hkey in H1. rewrite H1 in H2. injection H2 as H2.
    rewrite H2, Nat.eqb_refl in Hp. done.
Qed.

Lemma coalesced_step (ev : Event) (m m' : EventLoop.t) :
  coalesced m → step cfg ev m = Some m' → coalesced m'.
Proof.
  intros Hinv Hstep. destruct ev as [tabId useCache | p resp | p | p | tabId | elapsed];
    cbn in Hstep.
  - injection Hstep as <-. by apply coalesced_call.
  - destruct (find_task p (tasks m)) as [task |] eqn:Hfind; [| done]. cbn in Hstep.
    destruct (phase task) as [retries | |]; try done.
    destruct (received resp) as [content | error].
    + injection Hstep as <-. by apply coalesced_set_phase.
    + pose proof (loadingPromises_recover (key task) retries error (loader m)) as Hlp.
      destruct (recover _ _ _ _ _) as [[delay | content] st];
        injection Hstep as <-; by apply coalesced_set_phase.
  - destruct (find_task p (tasks m)) as [task |] eqn:Hfind; [| done]. cbn in Hstep.
    destruct (phase task); try done.
    injection Hstep as <-. by apply coalesced_set_phase.
  - destruct (find_task p (tasks m)) as [task |] eqn:Hfind; [| done]. cbn in Hstep.
    destruct (phase task) as [| | result]; try done.
    injection Hstep as <-. apply find_task_spec in Hfind as [Hin <-].
    by apply coalesced_resume.
  - injection Hstep as <-. destruct Hinv as [Hnd Hown]. split; [done |].
    intros task Hin. cbn. rewrite loadingPromises_clearCache. by apply Hown.
  - injection Hstep as <-. destruct Hinv as [Hnd Hown]. by split.
Qed.

Lemma coalesced_run (events : list Event) :
  ∀ m m', coalesced m → run cfg events m = Some m' → coalesced m'.
Proof.
  induction events as [|ev events IH]; intros m m' Hinv Hrun; cbn in Hrun.
  - by injection Hrun as <-.
  - destruct (step cfg ev m) as [m1 |] eqn:Hstep; [| done].
    eapply IH; [| exact Hrun]. by eapply coalesced_step.
Qed.

(** *** While an activation is pending *)

Lemma cached_None_later (tabId : string) (st st' : ContentLoader.t) :
  cached cfg tabId st = None →
  (cache st' !! tabId = cache st !! tabId ∨ cache st' !! tabId = None) →
  (now (world st) ≤ now (world st'))%Z →
  cached cfg tabId st' = None.
Proof.
  unfold cached. intros Hnone [-> | ->] Hnow; [| done].
  destruct (cache st !! tabId) as [entry |]; [| done].
  destruct (Z.ltb_spec (now (world st) - timestamp entry)
              (Config.cacheTimeout (Config.content cfg))); [done |].
  destruct (Z.ltb_spec (now (world st') - timestamp entry)
              (Config.cacheTimeout (Config.content cfg))); [lia | done].
Qed.

Lemma set_phase_pending (q : nat) (ph : Phase) (ts : list Task) (task : Task) :
  In task ts →
  ∃ task', In task' (set_phase q ph ts)
           ∧ key task' = key task ∧ promise task' = promise task.
Proof.
  intros Hin. unfold set_phase.
  eexists. split; [apply in_map_iff; eexists; split; [reflexivity | exact Hin] |].
  destruct (Nat.eqb_spec (promise task) q); subst; auto.
Qed.

Lemma cache_resume_other (tabId k : string) (result : Completion string)
    (st : ContentLoader.t) :
  k ≠ tabId →
  cache (snd (resume k result st)) !! tabId = cache st !! tabId.
Proof.
  intros Hne. destruct result as [content | message]; cbn; [| done].
  by rewrite lookup_insert_ne.
Qed.

Lemma now_resume (k : string) (result : Completion string) (st : ContentLoader.t) :
  now (world (snd (resume k result st))) = now (world st).
Proof. by destruct result. Qed.

Lemma cache_clearCache (k : option string) (tabId : string) (st : ContentLoader.t) :
  cache (clearCache k st) !! tabId = cache st !! tabId
  ∨ cache (clearCache k st) !! tabId = None.
Proof.
  unfold clearCache. destruct k as [k |]; [| by right].
  destruct (JS.truthy k); [| by right]. cbn.
  destruct (decide (k = tabId)) as [-> | Hne].
  - right. apply lookup_delete_eq.
  - left. by apply lookup_delete_ne.
Qed.

Lemma pending_step (tabId : string) (p : nat) (ev : Event) (m m' : EventLoop.t) :
  coalesced m → pending m tabId p → cached cfg tabId (loader m) = None →
  leaves_pending p ev → step cfg ev m = Some m' →
  pending m' tabId p ∧ cached cfg tabId (loader m') = None.
Proof.
  intros [Hnd Hown] (task & Hin & Hkey & Hp) Hmiss Hev Hstep.
  destruct ev as [k useCache | q resp | q | q | k | elapsed]; cbn in Hstep, Hev.
  - injection Hstep as <-. unfold call.
    destruct (if useCache then cached cfg k (loader m) else None);
      [split; [by exists task | done] |].
    destruct (loadingPromises (loader m) !! k);
      [split; [by exists task | done] |].
    cbn. split; [exists task; split; [apply in_or_app; by left | done] | done].
  - destruct (find_task q (tasks m)) as [task' |]; [| done]. cbn in Hstep.
    destruct (phase task') as [retries | |]; try done.
    destruct (set_phase_pending q (AwaitResume (Return "")) (tasks m) task Hin)
      as (t1 & _ & _ & _).
    destruct (received resp) as [content | error].
    + injection Hstep as <-. split; [| done].
      destruct (set_phase_pending q (AwaitResume (Return content)) (tasks m) task Hin)
        as (t' & Hin' & Hk' & Hp').
      exists t'. cbn. repeat split; congruence.
    + unfold recover in Hstep.
      destruct (retries <? _)%Z; injection Hstep as <-; (split; [| done]).
      * destruct (set_phase_pending q
                    (AwaitTimer (Config.retryDelay (Config.content cfg) * (retries + 1)))
                    (tasks m) task Hin) as (t' & Hin' & Hk' & Hp').
        exists t'. cbn. repeat split; congruence.
      * destruct (set_phase_pending q
                    (AwaitResume (Return (_getFallbackContent cfg (key task') error)))
                    (tasks m) task Hin) as (t' & Hin' & Hk' & Hp').
        exists t'. cbn. repeat split; congruence.
  - destruct (find_task q (tasks m)) as [task' |]; [| done]. cbn in Hstep.
    destruct (phase task'); try done.
    injection Hstep as <-. split; [| done].
    destruct (set_phase_pending q (AwaitFetch (retries_of (loader m) (key task')))
                (tasks m) task Hin) as (t' & Hin' & Hk' & Hp').
    exists t'. cbn. repeat split; congruence.
  - destruct (find_task q (tasks m)) as [task' |] eqn:Hfind; [| done]. cbn in Hstep.
    destruct (phase task') as [| | result]; try done.
    injection Hstep as <-. apply find_task_spec in Hfind as [Hin' Hq].
    assert (Hother : key task' ≠ tabId).
    { intros Heq. pose proof (Hown task Hin) as H1. pose proof (Hown task' Hin') as H2.
      rewrite Hkey in H1. rewrite Heq in H2. congruence. }
    split.
    + exists task. cbn. split; [| done].
      unfold remove_task. apply filter_In. split; [done |].
      apply negb_true_iff, Nat.eqb_neq. congruence.
    + cbn [loader]. eapply cached_None_later; [exact Hmiss | |].
      * left. by apply cache_resume_other.
      * destruct result; cbn; lia.
  - injection Hstep as <-. split; [by exists task |].
    cbn [loader]. eapply cached_None_later; [exact Hmiss | apply cache_clearCache |].
    destruct k as [k |]; [unfold clearCache; by destruct (JS.truthy k) | done].
  - injection Hstep as <-. split; [by exists task |].
    cbn [loader]. eapply cached_None_later; [exact Hmiss | by left |]. cbn. lia.
Qed.

Lemma pending_run (tabId : string) (p : nat) (events : list Event) :
  ∀ m m',
    coalesced m → pending m tabId p → cached cfg tabId (loader m) = None →
    Forall (leaves_pending p) events → run cfg events m = Some m' →
    coalesced m' ∧ pending m' tabId p ∧ cached cfg tabId (loader m') = None.
Proof.
  induction events as [|ev events IH]; intros m m' Hinv Hpend Hmiss Hevs Hrun;
    cbn in Hrun.
  - by injection Hrun as <-.
  - apply Forall_cons in Hevs as [Hev Hevs].
    destruct (step cfg ev m) as [m1 |] eqn:Hstep; [| done]. cbn in Hrun.
    destruct (pending_step tabId p ev m m1 Hinv Hpend Hmiss Hev Hstep) as [Hpend1 Hmiss1].
    apply (IH m1 m'); [| done | done | done | done].
    exact (coalesced_step ev m m1 Hinv Hstep).
Qed.

End EventLoopFacts.

(** C8, as the code has it: in every state the event loop can reach, each
    key has at most one activation of [_fetchContent] that has not been
    resumed, hence at most one request on the network.  A call of
    [loadContent] for a key with such an activation starts nothing and
    sends nothing; it is handed the promise of the activation unless it
    uses the cache and the cache holds a fresh entry, which it is handed
    instead.  When the activation was started by a call that used the
    cache, every later call for the key is handed its promise, as long as
    that first load has not resumed. *)
Theorem one_fetch_in_flight (cfg : Config.t) (w : World)
    (events : list EventLoop.Event) (m : EventLoop.t) :
  EventLoop.run cfg events (EventLoop.init w) = Some m →
  (∀ tabId, length (EventLoop.in_flight m tabId) ≤ 1)
  ∧ (∀ tabId, length (EventLoop.fetching m tabId) ≤ 1)
  ∧ (∀ task useCache,
       In task (EventLoop.tasks m) →
       ∃ answer,
         EventLoop.call cfg (EventLoop.key task) useCache m = (answer, m)
         ∧ (answer = EventLoop.Joined (EventLoop.promise task)
            ∨ (useCache = true
               ∧ ∃ content,
                   ContentLoader.cached cfg (EventLoop.key task) (EventLoop.loader m)
                   = Some content
                   ∧ answer = EventLoop.Cached content)))
  ∧ (∀ tabId p m1 later m2 useCache,
       EventLoop.call cfg tabId true m = (EventLoop.Started p, m1) →
       Forall (leaves_pending p) later →
       EventLoop.run cfg later m1 = Some m2 →
       EventLoop.call cfg tabId useCache m2 = (EventLoop.Joined p, m2)).
Proof.
  intros Hrun.
  pose proof (coalesced_run cfg events _ _ (coalesced_init w) Hrun) as Hinv.
  destruct Hinv as [Hnd Hown].
  split; [intros tabId; by apply keys_unique |].
  split; [| split].
  - intros tabId. unfold EventLoop.fetching.
    etransitivity; [apply filter_and_length |]. by apply keys_unique.
  - intros task useCache Hin. unfold EventLoop.call.
    destruct useCache.
    + destruct (ContentLoader.cached cfg (EventLoop.key task) (EventLoop.loader m))
        as [content |] eqn:Hc.
      * eexists. split; [reflexivity |]. right. eauto.
      * rewrite (Hown task Hin). eexists. split; [reflexivity |]. by left.
    + rewrite (Hown task Hin). eexists. split; [reflexivity |]. by left.
  - intros tabId p m1 later m2 useCache Hcall Hlater Hrun2.
    assert (Hm1 : m1 = snd (EventLoop.call cfg tabId true m)) by (by rewrite Hcall).
    assert (Hinv1 : coalesced m1)
      by (rewrite Hm1; apply coalesced_call; by split).
    assert (Hstart : ContentLoader.cached cfg tabId (EventLoop.loader m1) = None
                     ∧ pending m1 tabId p).
    { unfold EventLoop.call in Hcall.
      destruct (ContentLoader.cached cfg tabId (EventLoop.loader m)) eqn:Hc; [done |].
      destruct (ContentLoader.loadingPromises (EventLoop.loader m) !! tabId); [done |].
      cbn in Hcall. injection Hcall as <- <-. split; [exact Hc |].
      eexists. split; [apply in_or_app; right; by left | by split]. }
    destruct Hstart as [Hmiss1 Hpend1].
    destruct (pending_run cfg tabId p later m1 m2 Hinv1 Hpend1 Hmiss1 Hlater Hrun2)
      as ([_ Hown2] & (task & Hin & Hkey & Hp) & Hmiss2).
    unfold EventLoop.call. rewrite Hmiss2.
    specialize (Hown2 task Hin). rewrite Hkey, Hp in Hown2. rewrite Hown2.
    by destruct useCache.
Qed.

Lemma one_fetch_in_flight_witness :
  let w := {| now := 0; requests := [] |} in
  let events := [ EventLoop.Call "string" true;
                  EventLoop.FetchSettles 0 (Replied true 200 "OK" "<h1>std::string</h1>");
                  EventLoop.Resumes 0;
                  EventLoop.Call "string" false ] in
  let later := [ EventLoop.Call "string" true;
                 EventLoop.Tick 20;
                 EventLoop.FetchSettles 2 (Rejected "Failed to fetch");
                 EventLoop.ClearCache None;
                 EventLoop.Tick 1000;
                 EventLoop.TimerFires 2 ] in
  ∃ m m1 m2,
    EventLoop.run APP_CONFIG events (EventLoop.init w) = Some m
    ∧ EventLoop.call APP_CONFIG "vector" true m = (EventLoop.Started 2, m1)
    ∧ Forall (leaves_pending 2) later
    ∧ EventLoop.run APP_CONFIG later m1 = Some m2
    ∧ length (EventLoop.fetching m "string") ≤ 1
    ∧ EventLoop.call APP_CONFIG "vector" true m2 = (EventLoop.Joined 2, m2).
Proof.
  intros w events later.
  destruct (EventLoop.run APP_CONFIG events (EventLoop.init w)) as [m |] eqn:Hrun;
    [| by vm_compute in Hrun].
  destruct (EventLoop.call APP_CONFIG "vector" true m) as [answer m1] eqn:Hcall.
  assert (Hanswer : answer = EventLoop.Started 2).
  { vm_compute in Hrun. inversion Hrun as [Hm]. subst m.
    vm_compute in Hcall. by inversion Hcall. }
  subst answer.
  destruct (EventLoop.run APP_CONFIG later m1) as [m2 |] eqn:Hlater.
  2: { vm_compute in Hrun. inversion Hrun as [Hm]. subst m.
       vm_compute in Hcall. inversion Hcall as [Hm1]. subst m1.
       by vm_compute in Hlater. }
  assert (Hquiet : Forall (leaves_pending 2) later)
    by (repeat constructor; cbn; lia).
  destruct (one_fetch_in_flight APP_CONFIG w events m Hrun) as (_ & Hone & _ & Hsame).
  exists m, m1, m2.
  split; [reflexivity |]. split; [exact Hcall |]. split; [exact Hquiet |].
  split; [exact Hlater |]. split; [apply Hone |].
  exact (Hsame "vector" 2 m1 later m2 true Hcall Hquiet Hlater).
Defined.

(** C8 as stated fails: after a load has filled the cache, a load that
    bypasses the cache (the button of the fallback document issues such
    loads) is on the network with promise 1 when a cache-using load of the
    same key arrives; that load is handed the cached content, not
    promise 1. *)
Lemma joined_only_on_cache_miss :
  ¬ ∀ (cfg : Config.t) (w : World) (events : list EventLoop.Event) (m : EventLoop.t)
      (task : EventLoop.Task) (useCache : bool),
      EventLoop.run cfg events (EventLoop.init w) = Some m →
      In task (EventLoop.fetching m (EventLoop.key task)) →
      fst (EventLoop.call cfg (EventLoop.key task) useCache m)
      = EventLoop.Joined (EventLoop.promise task).
Proof.
  intros Hclaim.
  pose (w := {| now := 0; requests := [] |}).
  pose (events := [ EventLoop.Call "vector" true;
                    EventLoop.FetchSettles 0 (Replied true 200 "OK" "<h1>std::vector</h1>");
                    EventLoop.Resumes 0;
                    EventLoop.Call "vector" false ]).
  pose (task := {| EventLoop.key := "vector"; EventLoop.promise := 1;
                   EventLoop.phase := EventLoop.AwaitFetch 0 |}).
  destruct (EventLoop.run APP_CONFIG events (EventLoop.init w)) as [m |] eqn:Hrun;
    [| by vm_compute in Hrun].
  specialize (Hclaim APP_CONFIG w events m task true Hrun).
  assert (Hm : EventLoop.tasks m = [task]
               ∧ fst (EventLoop.call APP_CONFIG "vector" true m)
                 = EventLoop.Cached "<h1>std::vector</h1>").
  { vm_compute in Hrun. inversion Hrun as [Hm]. vm_compute. by split. }
  destruct Hm as [Htasks Hanswer].
  assert (Hin : In task (EventLoop.fetching m (EventLoop.key task))).
  { unfold EventLoop.fetching. rewrite Htasks. vm_compute. by left. }
  specialize (Hclaim Hin). cbn [EventLoop.key task] in Hclaim.
  rewrite Hanswer in Hclaim. discriminate Hclaim.
Qed.

(** * Further properties *)

(** ** The annotator on whole trees *)

Section AnnotatorTrees.
Import TooltipManager.
Context {P : Type} `{RegExp P}.

(** What [flat_mapM] builds from per-node results that each satisfy [Q]. *)
Lemma flat_mapM_forallb {A : Type} (f : A → option (list node)) (q : node → bool)
    (l : list A) (k : list node) :
  Forall (λ x, ∀ y, f x = Some y → forallb q y = true) l →
  flat_mapM f l = Some k → forallb q k = true.
Proof.
  intros Hall. revert k. induction Hall as [|x l Hx _ IH]; intros k Hk;
    cbn [flat_mapM] in Hk.
  - by injection Hk as <-.
  - destruct (f x) as [y |] eqn:Hy; [| done].
    destruct (flat_mapM f l) as [rest |]; [| done].
    simpl in Hk. injection Hk as <-.
    rewrite forallb_app, (Hx y eq_refl), (IH rest eq_refl). done.
Qed.

Lemma forallb_fragments (q : node → bool) (ancestors : list Ancestor)
    (text : string) (ms : list (Match.t P)) :
  (∀ v, q (TextNode v) = true) →
  Forall (λ m, q (createTermNode m ancestors) = true) ms →
  ∀ lastIndex, forallb q (fragments ancestors text lastIndex ms) = true.
Proof.
  intros Htext. induction 1 as [|m ms Hm _ IH]; intros lastIndex; cbn [fragments].
  - destruct (lastIndex <? _)%Z; [cbn; by rewrite Htext | done].
  - rewrite forallb_app. cbn [forallb]. rewrite Hm, IH.
    destruct (lastIndex <? Match.start m)%Z; [cbn; by rewrite Htext | done].
Qed.

(** The nodes that take the place of a text node are text nodes and markers
    of returned matches. *)
Lemma forallb_processTextNode (q : node → bool) (fuel : nat) (tm : TooltipManager.t P)
    (ancestors : list Ancestor) (text : string) (nodes : list node) :
  (∀ v, q (TextNode v) = true) →
  (∀ ms m, findMatches fuel tm text = Some ms → m ∈ ms →
           q (createTermNode m ancestors) = true) →
  processTextNode fuel tm ancestors text = Some nodes →
  forallb q nodes = true.
Proof.
  intros Htext Hmark. unfold processTextNode.
  destruct (negb (JS.truthy text)); [intros [= <-]; cbn; by rewrite Htext |].
  destruct (findMatches fuel tm text) as [ms |] eqn:Hf; [| done].
  assert (Hall : Forall (λ m, q (createTermNode m ancestors) = true) ms)
    by (apply Forall_forall; intros m Hm; by eapply Hmark).
  simpl. destruct ms as [|m ms']; intros [= <-]; [cbn; by rewrite Htext |].
  exact (forallb_fragments q ancestors text (m :: ms') Htext Hall 0%Z).
Qed.

Lemma matches_from_table (fuel : nat) (tm : TooltipManager.t P) (text : string)
    (ms : list (Match.t P)) :
  findMatches fuel tm text = Some ms →
  Forall (λ m, ∃ definition pattern lastIndex result,
            definition ∈ definitions tm
            ∧ pattern ∈ Def.triggers definition
            ∧ exec pattern text lastIndex = Some result
            ∧ m = pushed definition result) ms.
Proof.
  intros Hf. apply MatcherFacts.findMatches_inv in Hf as (raw & Hraw & ->).
  apply MatcherFacts.kept_Forall.
  revert Hraw. apply (MatcherFacts.collect_Forall text _ (λ _, True)); [done |].
  intros definition pattern i r Hd Hp _ Hex. split; [| done]. eauto 10.
Qed.

Lemma shielded_isCodeContext (ancestors : list Ancestor) :
  shielded ancestors = false → isCodeContext ancestors = in_code ancestors.
Proof.
  unfold shielded. intros Hsh. apply orb_false_elim in Hsh as [Hterm _].
  induction ancestors as [|a up IH]; [done |].
  cbn [closest existsb] in Hterm. apply orb_false_elim in Hterm as [Ha Hup].
  cbn [isCodeContext in_code existsb]. rewrite Ha.
  destruct (String.eqb (anc_tagName a) "CODE"); [done |].
  destruct (String.eqb (anc_tagName a) "PRE"); [done |].
  cbn. by apply IH.
Qed.

End AnnotatorTrees.

Section AnnotatorInvariants.
Import TooltipManager.
Context {P : Type} `{RegExp P}.

(** A property of trees that text nodes have, that an element has when its
    own check passes and its children have it, and that the markers of
    returned matches have where the filter accepts, survives the walk. *)
Lemma decorate_node_keeps_property
    (q : list Ancestor → node → bool)
    (check : list Ancestor → list string → option string → bool)
    (fuel : nat) (tm : TooltipManager.t P) :
  (∀ ancestors v, q ancestors (TextNode v) = true) →
  (∀ ancestors tag cls tid children,
      q ancestors (Element tag cls tid children)
      = check ancestors cls tid
        && forallb (q ({| anc_tagName := tag; anc_classList := cls |} :: ancestors))
             children) →
  (∀ ancestors text ms m,
      shouldProcessNode ancestors text = true →
      findMatches fuel tm text = Some ms → m ∈ ms →
      q ancestors (createTermNode m ancestors) = true) →
  ∀ n ancestors nodes,
    q ancestors n = true →
    decorate_node fuel tm ancestors n = Some nodes →
    forallb (q ancestors) nodes = true.
Proof.
  intros Htext Helem Hmark.
  induction n as [v | tag cls tid children IH] using node_rect_nested;
    intros ancestors nodes Hq Hd; cbn [decorate_node] in Hd.
  - destruct (shouldProcessNode ancestors v) eqn:Hacc.
    + eapply forallb_processTextNode; [apply Htext | | exact Hd].
      intros ms m. by apply Hmark.
    + injection Hd as <-. cbn. by rewrite Hq.
  - destruct (flat_mapM _ children) as [children' |] eqn:Hch; [| done].
    simpl in Hd. injection Hd as <-. cbn [forallb]. rewrite andb_true_r.
    rewrite Helem in Hq |- *. apply andb_prop in Hq as [Hcheck Hchildren].
    rewrite Hcheck. cbn [andb].
    eapply flat_mapM_forallb; [| exact Hch].
    rewrite forallb_forall in Hchildren.
    apply Forall_forall. intros c Hc nodes Hnodes.
    eapply Forall_forall in IH; [| exact Hc].
    apply (IH _ _ (Hchildren c (proj1 (list_elem_of_In _ _) Hc)) Hnodes).
Qed.

Lemma decorate_keeps_property
    (q : list Ancestor → node → bool)
    (check : list Ancestor → list string → option string → bool)
    (fuel : nat) (tm : TooltipManager.t P) :
  (∀ ancestors v, q ancestors (TextNode v) = true) →
  (∀ ancestors tag cls tid children,
      q ancestors (Element tag cls tid children)
      = check ancestors cls tid
        && forallb (q ({| anc_tagName := tag; anc_classList := cls |} :: ancestors))
             children) →
  (∀ ancestors text ms m,
      shouldProcessNode ancestors text = true →
      findMatches fuel tm text = Some ms → m ∈ ms →
      q ancestors (createTermNode m ancestors) = true) →
  ∀ ancestors root result,
    q ancestors root = true →
    decorate fuel tm ancestors root = Some result →
    q ancestors result = true.
Proof.
  intros Htext Helem Hmark ancestors root result Hq Hd.
  apply decorate_as_walk in Hd as [(v & -> & ->) | Hd]; [done |].
  pose proof (decorate_node_keeps_property q check fuel tm Htext Helem Hmark
                root ancestors [result] Hq Hd) as Hall.
  cbn in Hall. by rewrite andb_true_r in Hall.
Qed.

Lemma decorate_node_text `{!RegExpLaws P} (fuel : nat) (tm : TooltipManager.t P)
    (n : node) :
  ∀ ancestors nodes,
    decorate_node fuel tm ancestors n = Some nodes →
    textContent_of nodes = textContent n.
Proof.
  induction n as [v | tag cls tid children IH] using node_rect_nested;
    intros ancestors nodes Hd; cbn [decorate_node] in Hd.
  - destruct (shouldProcessNode ancestors v).
    + by apply processTextNode_text in Hd.
    + injection Hd as <-. cbn. apply append_nil_r.
  - destruct (flat_mapM _ children) as [children' |] eqn:Hch; [| done].
    simpl in Hd. injection Hd as <-.
    cbn [textContent_of foldr textContent]. rewrite append_nil_r.
    fold (textContent_of children'). fold (textContent_of children).
    revert children' Hch. induction IH as [|c children Hc _ IHch];
      intros children' Hch; cbn [flat_mapM] in Hch.
    + by injection Hch as <-.
    + destruct (decorate_node fuel tm _ c) as [cs |] eqn:Hcs; [| done].
      destruct (flat_mapM _ children) as [rest |]; [| done].
      simpl in Hch. injection Hch as <-.
      rewrite textContent_of_app, (Hc _ _ Hcs), (IHch rest eq_refl). done.
Qed.

Lemma decorate_node_no_term (fuel : nat) (tm : TooltipManager.t P) (n : node) :
  ∀ ancestors,
    no_term_in fuel tm n = true →
    decorate_node fuel tm ancestors n = Some [n].
Proof.
  unfold no_term_in.
  induction n as [v | tag cls tid children IH] using node_rect_nested;
    intros ancestors Hno; cbn [decorate_node].
  - destruct (shouldProcessNode ancestors v); [| done].
    cbn in Hno. rewrite andb_true_r in Hno.
    unfold processTextNode. destruct (negb (JS.truthy v)); [done |].
    destruct (findMatches fuel tm v) as [[|m ms] |]; done.
  - rewrite flat_mapM_unchanged; [done |].
    cbn [all_texts] in Hno. clear tid.
    induction IH as [|c children Hc _ IHch]; [constructor |].
    cbn [flat_map] in Hno. rewrite forallb_app in Hno.
    apply andb_prop in Hno as [Hno1 Hno2].
    constructor; [by apply Hc | by apply IHch].
Qed.

Lemma constructor_knows (defs : list (Def.t P)) (d : Def.t P) :
  d ∈ defs → is_Some (lookup_definition (constructor defs) (Def.id d)).
Proof.
  intros Hd. unfold lookup_definition, constructor. cbn [definitionMap].
  rewrite definitionMap_lookup.
  destruct (last (filter (λ d0, Def.id d0 = Def.id d) defs)) as [d' |] eqn:Hlast;
    [by eexists |].
  apply last_None in Hlast.
  assert (Hin : d ∈ filter (λ d0, Def.id d0 = Def.id d) defs)
    by (by apply list_elem_of_filter).
  rewrite Hlast in Hin. by apply elem_of_nil in Hin.
Qed.

End AnnotatorInvariants.

(** X1: [decorate] changes no text: the tree it leaves has the
    [textContent] of the tree it was given. *)
Theorem decorate_preserves_text {P : Type} `{RegExpLaws P}
    (fuel : nat) (tm : TooltipManager.t P) (ancestors : list Ancestor)
    (root result : node) :
  TooltipManager.decorate fuel tm ancestors root = Some result →
  textContent result = textContent root.
Proof.
  intros Hd. apply decorate_as_walk in Hd as [(v & -> & ->) | Hd]; [done |].
  apply decorate_node_text in Hd. cbn in Hd. by rewrite append_nil_r in Hd.
Qed.

Lemma decorate_preserves_text_witness :
  let root :=
    Element "P" []%list None
      [ TextNode "use std::move(x) or ";
        Element "CODE" []%list None [TextNode "decltype(a)"] ] in
  let result :=
    Element "P" []%list None
      [ TextNode "use ";
        Element "SPAN" ["tooltip-term"] (Some "std-move") [TextNode "std::move"];
        TextNode "(x) or ";
        Element "CODE" []%list None
          [ Element "SPAN" ["tooltip-term"; "tooltip-term--code"] (Some "decltype")
              [TextNode "decltype"];
            TextNode "(a)" ] ] in
  TooltipManager.decorate 30 Defaults.manager [] root = Some result
  ∧ textContent result = "use std::move(x) or decltype(a)".
Proof.
  intros root result.
  assert (Hd : TooltipManager.decorate 30 Defaults.manager [] root = Some result)
    by (vm_compute; reflexivity).
  split; [exact Hd |].
  exact (decorate_preserves_text 30 Defaults.manager [] root result Hd).
Defined.

(** X2: in a manager built by the constructor, [decorate] only creates
    markers whose [dataset.tooltipId] is a key of [definitionMap]: if every
    marker of the tree had a definition before, every marker has one
    after, so [showTooltip] finds a definition for each of them. *)
Theorem decorate_markers_defined {P : Type} `{RegExp P}
    (fuel : nat) (defs : list (Def.t P)) (ancestors : list Ancestor)
    (root result : node) :
  markers_defined (TooltipManager.constructor defs) root = true →
  TooltipManager.decorate fuel (TooltipManager.constructor defs) ancestors root
    = Some result →
  markers_defined (TooltipManager.constructor defs) result = true.
Proof.
  set (tm := TooltipManager.constructor defs).
  apply (decorate_keeps_property (λ _, markers_defined tm)
           (λ _ cls tid,
              if is_marker cls
              then match tid with
                   | Some id =>
                       bool_decide (is_Some (TooltipManager.lookup_definition tm id))
                   | None => false
                   end
              else true)); [done | done |].
  intros anc text ms m _ Hf Hm.
  apply matches_from_table in Hf. eapply Forall_forall in Hf; [| exact Hm].
  destruct Hf as (d & pattern & i & r & Hd & _ & _ & ->).
  cbn [markers_defined TooltipManager.createTermNode is_marker existsb String.eqb
         Ascii.eqb Bool.eqb orb Match.definitionId TooltipManager.pushed Match.text].
  rewrite bool_decide_eq_true_2; [by destruct (JS.truthy (matched r)) |].
  by apply constructor_knows.
Qed.

Lemma decorate_markers_defined_witness :
  let root :=
    Element "P" []%list None
      [ TextNode "use std::move(x) or ";
        Element "CODE" []%list None [TextNode "decltype(a)"] ] in
  markers_defined Defaults.manager root = true
  ∧ ∃ result,
      TooltipManager.decorate 30 Defaults.manager [] root = Some result
      ∧ markers_defined Defaults.manager result = true.
Proof.
  intros root. split; [reflexivity |].
  destruct (TooltipManager.decorate 30 Defaults.manager [] root) as [result |] eqn:Hd;
    [| by vm_compute in Hd].
  exists result. split; [reflexivity |].
  exact (decorate_markers_defined 30 Defaults.DEFAULT_TOOLTIP_DEFINITIONS [] root result
           eq_refl Hd).
Defined.

(** X3: a marker [decorate] creates has the class [tooltip-term--code]
    exactly when one of the elements above it is a [CODE] or a [PRE]: if
    that held of the markers of the tree before, it holds after. *)
Theorem decorate_code_classes {P : Type} `{RegExp P}
    (fuel : nat) (tm : TooltipManager.t P) (ancestors : list Ancestor)
    (root result : node) :
  code_classes_right ancestors root = true →
  TooltipManager.decorate fuel tm ancestors root = Some result →
  code_classes_right ancestors result = true.
Proof.
  apply (decorate_keeps_property code_classes_right
           (λ anc cls _,
              if is_marker cls
              then Bool.eqb (existsb (String.eqb "tooltip-term--code") cls) (in_code anc)
              else true)); [done | done |].
  intros anc text ms m Hacc _ _.
  apply shouldProcessNode_unshielded, shielded_isCodeContext in Hacc.
  unfold TooltipManager.createTermNode. rewrite Hacc.
  cbn. destruct (in_code anc); cbn; by destruct (JS.truthy (Match.text m)).
Qed.

Lemma decorate_code_classes_witness :
  let root :=
    Element "P" []%list None
      [ TextNode "use std::move(x) or ";
        Element "PRE" []%list None
          [Element "B" []%list None [TextNode "decltype(a)"]] ] in
  code_classes_right [] root = true
  ∧ ∃ result,
      TooltipManager.decorate 30 Defaults.manager [] root = Some result
      ∧ code_classes_right [] result = true.
Proof.
  intros root. split; [reflexivity |].
  destruct (TooltipManager.decorate 30 Defaults.manager [] root) as [result |] eqn:Hd;
    [| by vm_compute in Hd].
  exists result. split; [reflexivity |].
  exact (decorate_code_classes 30 Defaults.manager [] root result eq_refl Hd).
Defined.

(** X4: on a tree in none of whose texts a trigger matches, [decorate]
    returns the tree as it is. *)
Theorem decorate_without_terms {P : Type} `{RegExp P}
    (fuel : nat) (tm : TooltipManager.t P) (ancestors : list Ancestor) (root : node) :
  no_term_in fuel tm root = true →
  TooltipManager.decorate fuel tm ancestors root = Some root.
Proof.
  intros Hno. destruct root as [v | tag cls tid children]; [done |].
  pose proof (decorate_node_no_term fuel tm (Element tag cls tid children) ancestors Hno)
    as Hd.
  cbn [TooltipManager.decorate TooltipManager.decorate_node] in Hd |- *.
  destruct (flat_mapM _ children) as [children' |]; [| done].
  simpl in Hd |- *. by injection Hd as <-.
Qed.

Lemma decorate_without_terms_witness :
  let root :=
    Element "P" []%list None
      [ TextNode "a plain sentence, moved along";
        Element "EM" []%list None [TextNode "std::mov"] ] in
  no_term_in 40 Defaults.manager root = true
  ∧ TooltipManager.decorate 40 Defaults.manager [] root = Some root.
Proof.
  intros root.
  assert (Hno : no_term_in 40 Defaults.manager root = true) by (vm_compute; reflexivity).
  split; [exact Hno |].
  exact (decorate_without_terms 40 Defaults.manager [] root Hno).
Defined.

(** X5: [findMatches] invents nothing: every match it returns was pushed
    for a result of [exec] of a trigger of a definition of the table, on
    the text it was given, and carries that definition and its id. *)
Theorem findMatches_sound {P : Type} `{RegExp P}
    (fuel : nat) (tm : TooltipManager.t P) (text : string) (ms : list (Match.t P)) :
  TooltipManager.findMatches fuel tm text = Some ms →
  ∀ m, m ∈ ms →
    ∃ definition pattern lastIndex result,
      definition ∈ TooltipManager.definitions tm
      ∧ pattern ∈ Def.triggers definition
      ∧ exec pattern text lastIndex = Some result
      ∧ m = TooltipManager.pushed definition result.
Proof.
  intros Hf m Hm. apply matches_from_table in Hf.
  eapply Forall_forall in Hf; [exact Hf | exact Hm].
Qed.

Lemma findMatches_sound_witness :
  let text := "Item v = std::move(w);" in
  let m := TooltipManager.pushed Defaults.std_move {| index := 9; matched := "std::move" |} in
  TooltipManager.findMatches 30 Defaults.manager text = Some [m]
  ∧ ∃ definition pattern lastIndex result,
      definition ∈ Defaults.DEFAULT_TOOLTIP_DEFINITIONS
      ∧ pattern ∈ Def.triggers definition
      ∧ exec pattern text lastIndex = Some result
      ∧ m = TooltipManager.pushed definition result.
Proof.
  intros text m.
  assert (Hf : TooltipManager.findMatches 30 Defaults.manager text = Some [m])
    by (vm_compute; reflexivity).
  split; [exact Hf |].
  apply (findMatches_sound 30 Defaults.manager text [m] Hf m). by left.
Defined.

(** X6: the first match [findMatches] returns is the leftmost raw match
    and, among the raw matches that start there, one that ends last: none
    of them has a later [end] or a greater [length]. *)
Theorem findMatches_first_is_leftmost_longest {P : Type} `{RegExp P}
    (fuel : nat) (tm : TooltipManager.t P) (text : string)
    (raw ms : list (Match.t P)) (m : Match.t P) :
  TooltipManager.collect fuel (TooltipManager.definitions tm) text = Some raw →
  TooltipManager.findMatches fuel tm text = Some (m :: ms) →
  m ∈ raw
  ∧ ∀ m', m' ∈ raw →
      (Match.start m ≤ Match.start m')%Z
      ∧ (Match.start m = Match.start m' →
         Match.end_ m' ≤ Match.end_ m ∧ Match.length m' ≤ Match.length m)%Z.
Proof.
  intros Hraw Hf.
  apply MatcherFacts.findMatches_inv in Hf as (raw' & Hraw' & Hms).
  rewrite Hraw in Hraw'. injection Hraw' as <-.
  pose proof (MatcherFacts.collect_ordered _ _ _ _ Hraw) as Hord.
  pose proof (MatcherFacts.collect_extent _ _ _ _ Hraw) as Hext.
  pose proof (MatcherFacts.sorted_matches raw) as Hsorted.
  assert (Hperm := array_sort_perm TooltipManager.compare_matches raw).
  destruct (array_sort TooltipManager.compare_matches raw) as [|s0 rest] eqn:Hsort;
    [done |].
  assert (Hs0 : s0 ∈ raw) by (rewrite <- Hperm; by left).
  pose proof Hs0 as Hs0ord. eapply Forall_forall in Hs0ord; [| exact Hord].
  pose proof Hs0 as Hs0ext. eapply Forall_forall in Hs0ext; [| exact Hext].
  cbn [TooltipManager.sweep] in Hms.
  destruct (Z.leb_spec (-1) (Match.start s0)); [| cbn beta in Hs0ord; lia].
  injection Hms as -> _. split; [exact Hs0 |].
  intros m' Hm'.
  pose proof Hm' as Hm'ext. eapply Forall_forall in Hm'ext; [| exact Hext].
  cbn beta in Hs0ext, Hm'ext.
  rewrite <- Hperm in Hm'. apply elem_of_cons in Hm' as [-> | Hm']; [lia |].
  apply StronglySorted_inv in Hsorted as [_ Hall].
  eapply Forall_forall in Hall; [| exact Hm'].
  apply MatcherFacts.before_spec in Hall. lia.
Qed.

Lemma findMatches_first_is_leftmost_longest_witness :
  let text := "std::move(x) or emplace" in
  let prefix := TooltipManager.pushed std_namespace {| index := 0; matched := "std" |} in
  let long := TooltipManager.pushed Defaults.std_move {| index := 0; matched := "std::move" |} in
  let short := TooltipManager.pushed Defaults.std_move {| index := 5; matched := "move" |} in
  let tm := TooltipManager.constructor prefix_definitions in
  TooltipManager.collect 30 prefix_definitions text = Some [prefix; long; short]
  ∧ TooltipManager.findMatches 30 tm text = Some [long]
  ∧ Match.start long = Match.start prefix
  ∧ (Match.end_ prefix < Match.end_ long)%Z
  ∧ (Match.start long ≤ Match.start prefix)%Z
  ∧ (Match.start long = Match.start prefix →
     Match.end_ prefix ≤ Match.end_ long ∧ Match.length prefix ≤ Match.length long)%Z.
Proof.
  intros text prefix long short tm.
  assert (Hraw : TooltipManager.collect 30 (TooltipManager.definitions tm) text
                 = Some [prefix; long; short]) by (vm_compute; reflexivity).
  assert (Hf : TooltipManager.findMatches 30 tm text = Some [long])
    by (vm_compute; reflexivity).
  split; [exact Hraw |]. split; [exact Hf |].
  split; [reflexivity |]. split; [reflexivity |].
  apply (proj2 (findMatches_first_is_leftmost_longest 30 tm text _ _ _ Hraw Hf) prefix).
  by left.
Defined.

(** ** The books of the content loader *)

Section LoaderBooks.
Import ContentLoader EventLoop.
Context (cfg : Config.t).

Lemma blank_received (resp : Response) (content : string) :
  received resp = Return content → blank content = false.
Proof.
  unfold received, blank. destruct resp as [message | ok status statusText body]; [done |].
  destruct (negb ok); [done |].
  destruct (negb (JS.truthy (JS.trim body))) eqn:Hb; [done |].
  by intros [= <-].
Qed.

Lemma blank_fallback (tabId error : string) :
  blank (_getFallbackContent cfg tabId error) = false.
Proof.
  unfold blank, _getFallbackContent.
  set (rest := (dq +:+ _)%string).
  change ("<div class=" +:+ rest)%string with (String "<" ("div class=" +:+ rest)%string).
  unfold JS.trim.
  assert (Hws : JS.is_whitespace "<" = false) by reflexivity.
  cbn [JS.trimStart]. rewrite Hws. cbn [JS.trimEnd]. rewrite Hws.
  by destruct (JS.trimEnd _).
Qed.

Lemma retries_of_nonneg (m : EventLoop.t) (tabId : string) :
  accounted cfg m → (0 ≤ retries_of (loader m) tabId)%Z.
Proof.
  intros (_ & _ & _ & Hrc & _). unfold retries_of.
  destruct (retryCount (loader m) !! tabId) as [r |] eqn:Hr; [| done].
  apply Hrc in Hr. cbn. lia.
Qed.

Lemma promise_unique (ts : list Task) (t1 t2 : Task) :
  NoDup (map promise ts) → In t1 ts → In t2 ts → promise t1 = promise t2 → t1 = t2.
Proof.
  induction ts as [|t ts IH]; intros Hnd H1 H2 Heq; [done |].
  cbn in Hnd. apply NoDup_cons in Hnd as [Hnotin Hnd].
  destruct H1 as [-> | H1], H2 as [-> | H2]; [done | | | by apply IH].
  - exfalso. apply Hnotin, list_elem_of_In. rewrite Heq. by apply in_map.
  - exfalso. apply Hnotin, list_elem_of_In. rewrite <- Heq. by apply in_map.
Qed.

Lemma set_phase_promises (p : nat) (ph : Phase) (ts : list Task) :
  map promise (set_phase p ph ts) = map promise ts.
Proof.
  unfold set_phase. rewrite map_map. apply map_ext.
  intros task. by destruct (Nat.eqb_spec (promise task) p).
Qed.

Lemma set_phase_phase (p : nat) (ph : Phase) (ts : list Task) (task : Task) :
  In task (set_phase p ph ts) →
  phase task = ph ∨ In task ts.
Proof.
  unfold set_phase. intros Hin. apply in_map_iff in Hin as (task0 & <- & Hin).
  destruct (promise task0 =? p); [by left | by right].
Qed.

(** A turn that leaves [created] and the keys of the maps alone and moves
    one activation to a phase that is in order. *)
Lemma accounted_set_phase (st : ContentLoader.t) (p : nat) (ph : Phase)
    (m : EventLoop.t) :
  accounted cfg m →
  phase_settled ph →
  created st = created (loader m) →
  loadingPromises st = loadingPromises (loader m) →
  cache st = cache (loader m) →
  (∀ k r, retryCount st !! k = Some r →
     In k (map key (tasks m))
     ∧ (1 ≤ r ≤ Config.retryAttempts (Config.content cfg))%Z) →
  accounted cfg {| loader := st; tasks := set_phase p ph (tasks m) |}.
Proof.
  intros (Hnd & Hts & Hlp & _ & Hcache) Hph Hcr Hlps Hcs Hrc.
  unfold accounted. cbn [loader tasks].
  rewrite set_phase_promises, set_phase_keys, Hcr, Hlps, Hcs.
  split; [done |]. split; [| split; [done | split; [exact Hrc | done]]].
  intros task Hin. split.
  - apply set_phase_In in Hin as (task0 & Hin & _ & ->). by apply Hts.
  - apply set_phase_phase in Hin as [-> | Hin]; [done | by apply Hts].
Qed.

Lemma accounted_init (w : World) : accounted cfg (init w).
Proof.
  unfold accounted, init. cbn. split; [constructor |]. split; [done |].
  split; [| done]. intros k [? Hk]. by rewrite lookup_empty in Hk.
Qed.

Lemma accounted_call (tabId : string) (useCache : bool) (m : EventLoop.t) :
  accounted cfg m → accounted cfg (snd (call cfg tabId useCache m)).
Proof.
  intros Hinv. pose proof (retries_of_nonneg m tabId Hinv) as Hret.
  destruct Hinv as (Hnd & Hts & Hlp & Hrc & Hcache). unfold call.
  destruct (if useCache then cached cfg tabId (loader m) else None); [done |].
  destruct (loadingPromises (loader m) !! tabId) eqn:Hnone; [done |].
  cbn [issue new_promise snd]. unfold accounted. cbn [loader tasks].
  rewrite !map_app. cbn. split; [| split; [| split; [| split]]].
  - apply NoDup_app. split; [done |]. split; [| apply NoDup_singleton].
    intros q Hq Hq'. apply list_elem_of_singleton in Hq'. subst q.
    apply list_elem_of_In, in_map_iff in Hq as (task & Heq & Hin).
    apply Hts in Hin as [Hlt _]. lia.
  - intros task Hin. apply in_app_or in Hin as [Hin | [<- | []]]; [| cbn; split; [lia | done]].
    apply Hts in Hin as [Hlt Hph]. split; [lia | done].
  - intros k Hk. apply in_or_app.
    destruct (decide (k = tabId)) as [-> | Hne]; [right; by left |].
    left. apply Hlp. by rewrite lookup_insert_ne in Hk.
  - intros k r Hk. apply Hrc in Hk as [Hin Hr]. split; [| done].
    apply in_or_app. by left.
  - intros k entry. apply Hcache.
Qed.

Lemma accounted_resume (task : Task) (content : string) (m : EventLoop.t) :
  In task (tasks m) →
  blank content = false →
  accounted cfg m →
  accounted cfg {| loader := snd (resume (key task) (Return content) (loader m));
                   tasks := remove_task (promise task) (tasks m) |}.
Proof.
  intros Htask Hcontent (Hnd & Hts & Hlp & Hrc & Hcache).
  assert (Hkeep : ∀ k, k ≠ key task → In k (map key (tasks m)) →
                       In k (map key (remove_task (promise task) (tasks m)))).
  { intros k Hne Hin. apply in_map_iff in Hin as (t' & <- & Hin).
    apply in_map. apply filter_In. split; [done |].
    destruct (Nat.eqb_spec (promise t') (promise task)) as [Heq | ]; [| done].
    apply (promise_unique (tasks m)) in Heq; [by subst t' | done..]. }
  unfold accounted. cbn [loader tasks resume snd].
  split; [| split; [| split; [| split]]].
  - unfold remove_task. clear -Hnd.
    induction (tasks m) as [|t ts IH]; [constructor |].
    cbn in Hnd |- *. apply NoDup_cons in Hnd as [Hnotin Hnd].
    destruct (negb _); [| by apply IH]. cbn. apply NoDup_cons. split; [| by apply IH].
    intros Hin. apply Hnotin. apply list_elem_of_In in Hin. apply list_elem_of_In.
    apply in_map_iff in Hin as (t' & Hp & Hin). apply filter_In in Hin as [Hin _].
    rewrite <- Hp. by apply in_map.
  - intros t' Hin. apply filter_In in Hin as [Hin _]. by apply Hts in Hin.
  - intros k Hk. cbn in Hk.
    destruct (decide (k = key task)) as [-> | Hne]; [by rewrite lookup_delete_eq in Hk |].
    rewrite lookup_delete_ne in Hk by done. by apply Hkeep, Hlp.
  - intros k r Hk. cbn in Hk. apply lookup_delete_Some in Hk as [Hne Hk].
    apply Hrc in Hk as [Hin Hr]. split; [| done]. by apply Hkeep.
  - intros k entry Hk. cbn in Hk.
    destruct (decide (k = key task)) as [-> | Hne].
    + rewrite lookup_insert_eq in Hk. by injection Hk as <-.
    + rewrite lookup_insert_ne in Hk by done. by eapply Hcache.
Qed.

Lemma accounted_clearCache (tabId : option string) (m : EventLoop.t) :
  accounted cfg m →
  accounted cfg {| loader := clearCache tabId (loader m); tasks := tasks m |}.
Proof.
  intros (Hnd & Hts & Hlp & Hrc & Hcache).
  assert (Hsub : ∀ k, (∀ r, retryCount (clearCache tabId (loader m)) !! k = Some r →
                            retryCount (loader m) !! k = Some r)
                    ∧ (∀ e, cache (clearCache tabId (loader m)) !! k = Some e →
                            cache (loader m) !! k = Some e)).
  { intros k. unfold clearCache. destruct tabId as [tabId |]; [destruct (JS.truthy tabId) |];
      cbn; split; intros x Hx;
      try (by rewrite lookup_empty in Hx); by apply lookup_delete_Some in Hx as [_ ?]. }
  assert (Hcr : created (clearCache tabId (loader m)) = created (loader m)).
  { unfold clearCache. destruct tabId as [tabId |]; [by destruct (JS.truthy tabId) | done]. }
  unfold accounted. cbn [loader tasks]. rewrite Hcr, loadingPromises_clearCache.
  split; [done |]. split; [done |]. split; [done |]. split.
  - intros k r Hk. apply Hsub in Hk. by apply Hrc.
  - intros k entry Hk. apply Hsub in Hk. by eapply Hcache.
Qed.

Lemma accounted_step (ev : Event) (m m' : EventLoop.t) :
  accounted cfg m → step cfg ev m = Some m' → accounted cfg m'.
Proof.
  intros Hinv Hstep.
  destruct ev as [tabId useCache | p resp | p | p | tabId | elapsed]; cbn in Hstep.
  - injection Hstep as <-. by apply accounted_call.
  - destruct (find_task p (tasks m)) as [task |] eqn:Hfind; [| done]. cbn in Hstep.
    apply find_task_spec in Hfind as [Hin _].
    destruct (phase task) as [retries | |] eqn:Hphase; try done.
    pose proof Hinv as (_ & Hts & _ & Hrc & _).
    destruct (received resp) as [content | error] eqn:Hresp.
    + injection Hstep as <-. apply accounted_set_phase; try done.
      exists content. split; [done |]. by eapply blank_received.
    + unfold recover in Hstep.
      destruct (Z.ltb_spec retries (Config.retryAttempts (Config.content cfg)));
        injection Hstep as <-.
      * apply accounted_set_phase; try done. cbn. intros k r Hk.
        destruct (decide (k = key task)) as [-> | Hne].
        -- rewrite lookup_insert_eq in Hk. injection Hk as <-.
           split; [by apply in_map |].
           apply Hts in Hin as [_ Hph]. rewrite Hphase in Hph. cbn in Hph. lia.
        -- rewrite lookup_insert_ne in Hk by done. by apply Hrc.
      * apply accounted_set_phase; try done.
        eexists. split; [done |]. apply blank_fallback.
  - destruct (find_task p (tasks m)) as [task |] eqn:Hfind; [| done]. cbn in Hstep.
    destruct (phase task); try done.
    injection Hstep as <-. pose proof Hinv as (_ & _ & _ & Hrc & _).
    apply accounted_set_phase; try done.
    cbn. by apply retries_of_nonneg.
  - destruct (find_task p (tasks m)) as [task |] eqn:Hfind; [| done]. cbn in Hstep.
    destruct (phase task) as [| | result] eqn:Hphase; try done.
    injection Hstep as <-. apply find_task_spec in Hfind as [Hin <-].
    pose proof Hinv as (_ & Hts & _).
    apply Hts in Hin as Hph. destruct Hph as [_ Hph]. rewrite Hphase in Hph.
    destruct Hph as (content & -> & Hcontent).
    by apply accounted_resume.
  - injection Hstep as <-. by apply accounted_clearCache.
  - injection Hstep as <-. exact Hinv.
Qed.

Lemma accounted_run (events : list Event) :
  ∀ m m', accounted cfg m → run cfg events m = Some m' → accounted cfg m'.
Proof.
  induction events as [|ev events IH]; intros m m' Hinv Hrun; cbn in Hrun.
  - by injection Hrun as <-.
  - destruct (step cfg ev m) as [m1 |] eqn:Hstep; [| done].
    eapply IH; [| exact Hrun]. by eapply accounted_step.
Qed.

Lemma in_flight_nil (m : EventLoop.t) (k : string) :
  in_flight m k = [] → ¬ In k (map key (tasks m)).
Proof.
  unfold in_flight. intros Hnil Hin. apply in_map_iff in Hin as (task & <- & Hin).
  assert (Hf : In task (List.filter (λ t, String.eqb (key t) (key task)) (tasks m))).
  { apply filter_In. split; [done | apply String.eqb_refl]. }
  by rewrite Hnil in Hf.
Qed.

End LoaderBooks.

(** X7: on the event loop, once no activation for a key is suspended the
    loader has forgotten the key: it has no entry in [loadingPromises] and
    none in [retryCount], so the next load of the key starts a request and
    has all its retries. *)
Theorem settled_key_is_forgotten (cfg : Config.t) (w : World)
    (events : list EventLoop.Event) (m : EventLoop.t) (tabId : string) :
  EventLoop.run cfg events (EventLoop.init w) = Some m →
  EventLoop.in_flight m tabId = [] →
  ContentLoader.loadingPromises (EventLoop.loader m) !! tabId = None
  ∧ ContentLoader.retryCount (EventLoop.loader m) !! tabId = None.
Proof.
  intros Hrun Hidle.
  pose proof (accounted_run cfg events _ _ (accounted_init cfg w) Hrun)
    as (_ & _ & Hlp & Hrc & _).
  apply in_flight_nil in Hidle. split.
  - destruct (ContentLoader.loadingPromises _ !! tabId) eqn:Hk; [| done].
    destruct Hidle. apply Hlp. by rewrite Hk.
  - destruct (ContentLoader.retryCount _ !! tabId) as [r |] eqn:Hk; [| done].
    destruct Hidle. by apply Hrc in Hk as [Hin _].
Qed.

Lemma settled_key_is_forgotten_witness :
  let w := {| now := 0; requests := [] |} in
  let events := [ EventLoop.Call "vector" true;
                  EventLoop.FetchSettles 0 (Rejected "Failed to fetch");
                  EventLoop.Tick 1000;
                  EventLoop.TimerFires 0;
                  EventLoop.FetchSettles 0 (Replied true 200 "OK" "<h1>std::vector</h1>");
                  EventLoop.Resumes 0;
                  EventLoop.Call "map" true ] in
  ∃ m,
    EventLoop.run APP_CONFIG events (EventLoop.init w) = Some m
    ∧ EventLoop.in_flight m "vector" = []
    ∧ ContentLoader.loadingPromises (EventLoop.loader m) !! "vector" = None
    ∧ ContentLoader.retryCount (EventLoop.loader m) !! "vector" = None.
Proof.
  intros w events.
  destruct (EventLoop.run APP_CONFIG events (EventLoop.init w)) as [m |] eqn:Hrun;
    [| by vm_compute in Hrun].
  assert (Hidle : EventLoop.in_flight m "vector" = []).
  { vm_compute in Hrun. inversion Hrun as [Hm]. reflexivity. }
  exists m. split; [reflexivity |]. split; [exact Hidle |].
  exact (settled_key_is_forgotten APP_CONFIG w events m "vector" Hrun Hidle).
Defined.

(** X8: on the event loop, whatever the network answers and whenever
    [clearCache] is called, a retry counter that exists lies between 1 and
    [retryAttempts]. *)
Theorem retry_counter_in_range (cfg : Config.t) (w : World)
    (events : list EventLoop.Event) (m : EventLoop.t) (tabId : string) (r : Z) :
  EventLoop.run cfg events (EventLoop.init w) = Some m →
  ContentLoader.retryCount (EventLoop.loader m) !! tabId = Some r →
  (1 ≤ r ≤ Config.retryAttempts (Config.content cfg))%Z.
Proof.
  intros Hrun Hk.
  pose proof (accounted_run cfg events _ _ (accounted_init cfg w) Hrun)
    as (_ & _ & _ & Hrc & _).
  by apply Hrc in Hk as [_ Hr].
Qed.

Lemma retry_counter_in_range_witness :
  let w := {| now := 0; requests := [] |} in
  let events := [ EventLoop.Call "vector" true;
                  EventLoop.FetchSettles 0 (Rejected "Failed to fetch");
                  EventLoop.ClearCache (Some "string");
                  EventLoop.TimerFires 0;
                  EventLoop.FetchSettles 0 (Replied false 404 "Not Found" "") ] in
  ∃ m,
    EventLoop.run APP_CONFIG events (EventLoop.init w) = Some m
    ∧ ContentLoader.retryCount (EventLoop.loader m) !! "vector" = Some 2%Z
    ∧ (1 ≤ 2 ≤ Config.retryAttempts (Config.content APP_CONFIG))%Z.
Proof.
  intros w events.
  destruct (EventLoop.run APP_CONFIG events (EventLoop.init w)) as [m |] eqn:Hrun;
    [| by vm_compute in Hrun].
  assert (Hk : ContentLoader.retryCount (EventLoop.loader m) !! "vector" = Some 2%Z).
  { vm_compute in Hrun. inversion Hrun as [Hm]. reflexivity. }
  exists m. split; [reflexivity |]. split; [exact Hk |].
  exact (retry_counter_in_range APP_CONFIG w events m "vector" 2 Hrun Hk).
Defined.

(** X9: on the event loop, the cache never holds a blank document: what
    [loadContent] stores is a body that passed the [trim] test of
    [_fetchContent] or the fallback document. *)
Theorem cache_never_blank (cfg : Config.t) (w : World)
    (events : list EventLoop.Event) (m : EventLoop.t) (tabId : string)
    (entry : ContentLoader.CacheEntry) :
  EventLoop.run cfg events (EventLoop.init w) = Some m →
  ContentLoader.cache (EventLoop.loader m) !! tabId = Some entry →
  JS.trim (ContentLoader.content entry) ≠ "".
Proof.
  intros Hrun Hk.
  pose proof (accounted_run cfg events _ _ (accounted_init cfg w) Hrun)
    as (_ & _ & _ & _ & Hcache).
  apply Hcache in Hk. unfold blank, JS.truthy in Hk.
  intros Heq. by rewrite Heq in Hk.
Qed.

Lemma cache_never_blank_witness :
  let w := {| now := 0; requests := [] |} in
  let events := [ EventLoop.Call "vector" true;
                  EventLoop.FetchSettles 0 (Replied true 200 "OK" "   ");
                  EventLoop.Tick 1000;
                  EventLoop.TimerFires 0;
                  EventLoop.FetchSettles 0 (Replied true 200 "OK" " <h1>std::vector</h1> ");
                  EventLoop.Resumes 0 ] in
  ∃ m,
    EventLoop.run APP_CONFIG events (EventLoop.init w) = Some m
    ∧ ContentLoader.cache (EventLoop.loader m) !! "vector"
      = Some {| ContentLoader.content := " <h1>std::vector</h1> ";
                ContentLoader.timestamp := 1000 |}
    ∧ JS.trim " <h1>std::vector</h1> " ≠ "".
Proof.
  intros w events.
  destruct (EventLoop.run APP_CONFIG events (EventLoop.init w)) as [m |] eqn:Hrun;
    [| by vm_compute in Hrun].
  assert (Hk : ContentLoader.cache (EventLoop.loader m) !! "vector"
               = Some {| ContentLoader.content := " <h1>std::vector</h1> ";
                         ContentLoader.timestamp := 1000 |}).
  { vm_compute in Hrun. inversion Hrun as [Hm]. reflexivity. }
  exists m. split; [reflexivity |]. split; [exact Hk |].
  exact (cache_never_blank APP_CONFIG w events m "vector" _ Hrun Hk).
Defined.

(** ** Retries of [_fetchContent]: how long, and when they end well *)

Section Backoff.
Import ContentLoader.
Context (cfg : Config.t) (net : Network) (tabId : string).

Abbreviation url' := (content_url cfg tabId).
Abbreviation attempts' := (Config.retryAttempts (Config.content cfg)).
Abbreviation delay' := (Config.retryDelay (Config.content cfg)).

Lemma _fetchContent_backoff :
  permanently_failing net url' →
  ∀ fuel st,
    (0 ≤ retries_of st tabId ≤ attempts')%Z →
    Z.to_nat (attempts' - retries_of st tabId) < fuel →
    ∃ error st',
      _fetchContent fuel cfg net tabId st
      = Some (Return (_getFallbackContent cfg tabId error), st')
      ∧ (2 * (now (world st') - now (world st)
              - total_latency net url' (length (requests (world st)))
                  (S (Z.to_nat (attempts' - retries_of st tabId))))
         = delay' * (attempts' * (attempts' + 1)
                     - retries_of st tabId * (retries_of st tabId + 1)))%Z.
Proof.
  intros Hdown. induction fuel as [|fuel IH]; intros st Hr Hfuel; [lia |].
  cbn [_fetchContent fetch].
  pose proof (Hdown (length (requests (world st)))) as Hfail.
  unfold failed in Hfail.
  destruct (received _) as [? | error]; [done |].
  unfold recover. cbn [world with_world].
  destruct (Z.ltb_spec (retries_of st tabId) attempts') as [Hlt | Hge].
  - set (st3 := with_world _ (with_retryCount _ _)).
    assert (Hr3 : retries_of st3 tabId = (retries_of st tabId + 1)%Z).
    { unfold retries_of, st3. cbn. by rewrite lookup_insert_eq. }
    destruct (IH st3) as (error' & st' & Hrun & Htime); [rewrite Hr3; lia.. |].
    exists error', st'. split; [exact Hrun |].
    rewrite Hr3 in Htime.
    replace (S (Z.to_nat (attempts' - retries_of st tabId)))
      with (S (S (Z.to_nat (attempts' - (retries_of st tabId + 1))))) by lia.
    unfold total_latency in Htime |- *.
    cbn [seq map foldr]. cbn [seq map foldr] in Htime.
    unfold st3 in Htime. cbn [world with_world with_retryCount sleep now requests] in Htime.
    rewrite length_app, Nat.add_1_r in Htime. cbn [seq map foldr] in Htime.
    set (tl := foldr Z.add 0%Z _) in *. lia.
  - eexists error, _. split; [done |].
    replace (Z.to_nat (attempts' - retries_of st tabId)) with 0 by lia.
    unfold total_latency. cbn.
    replace (retries_of st tabId) with attempts' by lia. lia.
Qed.

(** [k] failed attempts and then a good response. *)
Lemma _fetchContent_recovers (body : string) :
  ∀ k fuel st,
    (∀ i, i < k → failed (respond net url' (length (requests (world st)) + i)) = true) →
    received (respond net url' (length (requests (world st)) + k)) = Return body →
    (retries_of st tabId + Z.of_nat k ≤ attempts')%Z →
    k < fuel →
    ∃ st',
      _fetchContent fuel cfg net tabId st = Some (Return body, st')
      ∧ requests (world st') = requests (world st) ++ replicate (S k) url'
      ∧ cache st' = cache st
      ∧ loadingPromises st' = loadingPromises st
      ∧ emitted st' = emitted st.
Proof.
  induction k as [|k IH]; intros fuel st Hfails Hgood Hr Hfuel;
    (destruct fuel as [|fuel]; [lia |]); cbn [_fetchContent fetch].
  - rewrite Nat.add_0_r in Hgood. rewrite Hgood. eexists. split; [reflexivity |].
    by cbn.
  - pose proof (Hfails 0 ltac:(lia)) as Hfail. rewrite Nat.add_0_r in Hfail.
    unfold failed in Hfail. revert Hfail.
    destruct (received (respond net url' (length (requests (world st)))))
      as [? | error]; [done | intros _].
    unfold recover. cbn [world with_world].
    destruct (Z.ltb_spec (retries_of st tabId) attempts') as [Hlt | Hge]; [| lia].
    set (st3 := with_world _ (with_retryCount _ _)).
    assert (Hr3 : retries_of st3 tabId = (retries_of st tabId + 1)%Z).
    { unfold retries_of, st3. cbn. by rewrite lookup_insert_eq. }
    assert (Hreq3 : requests (world st3) = requests (world st) ++ [url']) by done.
    destruct (IH fuel st3) as (st' & Hrun & Hreq & Hcache & Hlp & Hem).
    + intros i Hi. rewrite Hreq3, length_app, Nat.add_1_r.
      replace (S (length (requests (world st))) + i)
        with (length (requests (world st)) + S i) by lia.
      apply Hfails. lia.
    + rewrite Hreq3, length_app, Nat.add_1_r.
      by replace (S (length (requests (world st))) + k)
        with (length (requests (world st)) + S k) by lia.
    + rewrite Hr3. lia.
    + lia.
    + exists st'. split; [exact Hrun |].
      rewrite Hreq, Hreq3, <- app_assoc. by repeat split.
Qed.

End Backoff.

(** X10: when every attempt fails, [_fetchContent] started with the retry
    counter of the key at zero reaches the fallback after the latencies of
    its [retryAttempts + 1] requests and waits of [retryDelay], twice
    [retryDelay], ..., [retryAttempts] times [retryDelay] between them:
    [retryDelay * retryAttempts * (retryAttempts + 1) / 2] in all. *)
Theorem fallback_after_linear_backoff (cfg : Config.t) (net : Network)
    (tabId : string) (st : ContentLoader.t) (fuel : nat) :
  permanently_failing net (ContentLoader.content_url cfg tabId) →
  ContentLoader.retries_of st tabId = 0%Z →
  (0 ≤ Config.retryAttempts (Config.content cfg))%Z →
  Z.to_nat (Config.retryAttempts (Config.content cfg)) < fuel →
  ∃ error st',
    ContentLoader._fetchContent fuel cfg net tabId st
    = Some (Return (ContentLoader._getFallbackContent cfg tabId error), st')
    ∧ now (ContentLoader.world st')
      = (now (ContentLoader.world st)
         + total_latency net (ContentLoader.content_url cfg tabId)
             (length (requests (ContentLoader.world st)))
             (S (Z.to_nat (Config.retryAttempts (Config.content cfg))))
         + Config.retryDelay (Config.content cfg)
           * (Config.retryAttempts (Config.content cfg)
              * (Config.retryAttempts (Config.content cfg) + 1) / 2))%Z.
Proof.
  intros Hdown Hzero Hmax Hfuel.
  destruct (_fetchContent_backoff cfg net tabId Hdown fuel st)
    as (error & st' & Hrun & Htime); [rewrite Hzero; lia.. |].
  exists error, st'. split; [exact Hrun |].
  rewrite Hzero, Z.sub_0_r in Htime.
  set (A := Config.retryAttempts (Config.content cfg)) in *.
  assert (Heven : (A * (A + 1) = 2 * (A * (A + 1) / 2))%Z).
  { apply Z_div_exact_2; [lia |].
    rewrite Z.mul_add_distr_l, Z.mul_1_r.
    destruct (Z.Even_or_Odd A) as [[a ->] | [a ->]].
    - replace (2 * a * (2 * a) + 2 * a)%Z with ((a * (2 * a) + a) * 2)%Z by lia.
      apply Z.mod_mul. lia.
    - replace ((2 * a + 1) * (2 * a + 1) + (2 * a + 1))%Z
        with ((2 * a * a + 3 * a + 1) * 2)%Z by lia.
      apply Z.mod_mul. lia. }
  set (T := (A * (A + 1) / 2)%Z) in *.
  rewrite Z.mul_0_l, Z.sub_0_r, Heven in Htime. lia.
Qed.

Lemma fallback_after_linear_backoff_witness :
  let net := {| respond := λ _ _, Replied false 503 "Service Unavailable" "";
                latency := λ _ n, (20 + Z.of_nat n)%Z |} in
  let st := ContentLoader.constructor {| now := 100; requests := [] |} in
  ∃ error st',
    ContentLoader._fetchContent 4 APP_CONFIG net "vector" st
    = Some (Return (ContentLoader._getFallbackContent APP_CONFIG "vector" error), st')
    ∧ now (ContentLoader.world st') = (100 + (20 + 21 + 22 + 23) + 1000 * 6)%Z.
Proof.
  intros net st.
  assert (Hdown : permanently_failing net (ContentLoader.content_url APP_CONFIG "vector"))
    by (intros n; reflexivity).
  assert (Hmax : (0 ≤ Config.retryAttempts (Config.content APP_CONFIG))%Z)
    by (vm_compute; discriminate).
  assert (Hfuel : Z.to_nat (Config.retryAttempts (Config.content APP_CONFIG)) < 4)
    by (vm_compute; lia).
  exact (fallback_after_linear_backoff APP_CONFIG net "vector" st 4
           Hdown eq_refl Hmax Hfuel).
Defined.

(** X11: [loadContent] gets over passing failures: when the first [k]
    attempts fail and the next response is a document, with [k] retries
    left on the counter, the load returns that document after [k + 1]
    requests, caches it under the time of its arrival, announces it with
    [contentLoaded], and clears the retry counter and the pending entry of
    the key. *)
Theorem loadContent_recovers (cfg : Config.t) (net : Network) (tabId body : string)
    (useCache : bool) (k fuel : nat) (st : ContentLoader.t) :
  (if useCache then ContentLoader.cached cfg tabId st else None) = None →
  ContentLoader.loadingPromises st !! tabId = None →
  (∀ i, i < k →
     failed (respond net (ContentLoader.content_url cfg tabId)
               (length (requests (ContentLoader.world st)) + i)) = true) →
  ContentLoader.received
    (respond net (ContentLoader.content_url cfg tabId)
       (length (requests (ContentLoader.world st)) + k)) = Return body →
  (ContentLoader.retries_of st tabId + Z.of_nat k
   ≤ Config.retryAttempts (Config.content cfg))%Z →
  k < fuel →
  ∃ st',
    ContentLoader.loadContent fuel cfg net tabId useCache st
    = Some (ContentLoader.Loaded (Return body), st')
    ∧ requests (ContentLoader.world st')
      = requests (ContentLoader.world st)
        ++ replicate (S k) (ContentLoader.content_url cfg tabId)
    ∧ ContentLoader.cache st' !! tabId
      = Some {| ContentLoader.content := body;
                ContentLoader.timestamp := now (ContentLoader.world st') |}
    ∧ ContentLoader.retryCount st' !! tabId = None
    ∧ ContentLoader.loadingPromises st' !! tabId = None
    ∧ ContentLoader.emitted st'
      = ContentLoader.emitted st ++ [ContentLoader.contentLoaded tabId body].
Proof.
  intros Hmiss Hlp Hfails Hgood Hr Hfuel.
  unfold ContentLoader.loadContent. rewrite Hmiss, Hlp.
  cbn [ContentLoader.new_promise].
  set (st1 := ContentLoader.with_loadingPromises _ _).
  destruct (_fetchContent_recovers cfg net tabId body k fuel st1)
    as (st2 & Hrun & Hreq & Hcache & Hlps & Hem); try done.
  rewrite Hrun. cbn [mbind option_bind ContentLoader.resume].
  eexists. split; [reflexivity |].
  cbn. rewrite Hreq, Hem, !lookup_delete_eq, lookup_insert_eq. by repeat split.
Qed.

Lemma loadContent_recovers_witness :
  let net := {| respond := λ _ n, if n <? 2 then Rejected "Failed to fetch"
                                  else Replied true 200 "OK" "<h1>std::map</h1>";
                latency := λ _ _, 30%Z |} in
  let st := ContentLoader.constructor {| now := 0; requests := [] |} in
  ∃ st',
    ContentLoader.loadContent 3 APP_CONFIG net "map" true st
    = Some (ContentLoader.Loaded (Return "<h1>std::map</h1>"), st')
    ∧ requests (ContentLoader.world st') = replicate 3 "./content/map.html"
    ∧ ContentLoader.cache st' !! "map"
      = Some {| ContentLoader.content := "<h1>std::map</h1>";
                ContentLoader.timestamp := now (ContentLoader.world st') |}
    ∧ ContentLoader.retryCount st' !! "map" = None
    ∧ ContentLoader.loadingPromises st' !! "map" = None
    ∧ ContentLoader.emitted st'
      = [ContentLoader.contentLoaded "map" "<h1>std::map</h1>"].
Proof.
  intros net st.
  assert (Hfails : ∀ i, i < 2 →
            failed (respond net (ContentLoader.content_url APP_CONFIG "map")
                      (length (requests (ContentLoader.world st)) + i)) = true).
  { intros i Hi. destruct i as [|[|i]]; [reflexivity | reflexivity | lia]. }
  assert (Hr : (ContentLoader.retries_of st "map" + Z.of_nat 2
                ≤ Config.retryAttempts (Config.content APP_CONFIG))%Z)
    by (vm_compute; discriminate).
  exact (loadContent_recovers APP_CONFIG net "map" "<h1>std::map</h1>" true 2 3 st
           eq_refl eq_refl Hfails eq_refl Hr ltac:(lia)).
Defined.

(** ** [preloadContent] *)

Section Preload.
Import ContentLoader EventLoop.
Context (cfg : Config.t).

Lemma preloadContent_promises (tabIds : list string) :
  ∀ (l1 l2 : list Answer) (m : EventLoop.t),
    snd (foldl (λ '(promises, m) tabId,
                  let '(promise, m) := call cfg tabId true m in
                  (promises ++ [promise], m))
           (l1, m) tabIds)
    = snd (foldl (λ '(promises, m) tabId,
                    let '(promise, m) := call cfg tabId true m in
                    (promises ++ [promise], m))
             (l2, m) tabIds).
Proof.
  induction tabIds as [|k ks IH]; intros l1 l2 m; [done |].
  cbn [foldl]. destruct (call cfg k true m) as [a m1]. apply IH.
Qed.

Lemma preloadContent_cons (tabId : string) (tabIds : list string) (m : EventLoop.t) :
  snd (preloadContent cfg (Some (tabId :: tabIds)) m)
  = snd (preloadContent cfg (Some tabIds) (snd (call cfg tabId true m))).
Proof.
  cbn [foldl preloadContent]. destruct (call cfg tabId true m) as [promise m1]. cbn [snd].
  apply preloadContent_promises.
Qed.

Lemma preloadContent_started (tabIds : list string) :
  ∀ m, ∃ started,
    let m' := snd (preloadContent cfg (Some tabIds) m) in
    tasks m' = tasks m ++ started
    ∧ requests (world (loader m'))
      = requests (world (loader m)) ++ map (λ task, content_url cfg (key task)) started
    ∧ now (world (loader m')) = now (world (loader m))
    ∧ cache (loader m') = cache (loader m)
    ∧ NoDup (map key started)
    ∧ ∀ k, In k (map key started)
           ↔ In k tabIds
             ∧ cached cfg k (loader m) = None
             ∧ loadingPromises (loader m) !! k = None.
Proof.
  induction tabIds as [|tabId tabIds IH]; intros m.
  - exists []. cbn. rewrite !app_nil_r.
    split; [done |]. split; [done |]. split; [done |]. split; [done |].
    split; [constructor |]. intros k. split; [intros [] | by intros [[] _]].
  - rewrite preloadContent_cons.
    destruct (IH (snd (call cfg tabId true m)))
      as (started & Hts & Hreq & Hnow & Hcache & Hnd & Hiff).
    cbn zeta in Hts, Hreq, Hnow, Hcache. cbn zeta.
    rewrite Hts, Hreq, Hnow, Hcache. clear Hts Hreq Hnow Hcache.
    unfold call in *.
    destruct (cached cfg tabId (loader m)) as [content |] eqn:Hc.
    { exists started. cbn [snd] in *.
      split; [done |]. split; [done |]. split; [done |]. split; [done |].
      split; [done |]. intros k. split.
      - intros Hin. apply Hiff in Hin as (? & ? & ?). split; [by right | done].
      - intros ([-> | Hin] & Hmiss & Hlp); [congruence |]. by apply Hiff. }
    destruct (loadingPromises (loader m) !! tabId) as [p |] eqn:Hp.
    { exists started. cbn [snd] in *.
      split; [done |]. split; [done |]. split; [done |]. split; [done |].
      split; [done |]. intros k. split.
      - intros Hin. apply Hiff in Hin as (? & ? & ?). split; [by right | done].
      - intros ([-> | Hin] & Hmiss & Hlp); [congruence |]. by apply Hiff. }
    cbn [issue new_promise snd loader tasks] in *.
    set (task := {| key := tabId; promise := created (loader m);
                    phase := AwaitFetch (retries_of (loader m) tabId) |}) in *.
    assert (Hsame : ∀ k, cached cfg k
                           (with_loadingPromises (insert tabId (created (loader m)))
                              (make (cache (loader m)) (loadingPromises (loader m))
                                 (retryCount (loader m)) (emitted (loader m))
                                 (S (created (loader m)))
                                 {| now := now (world (loader m));
                                    requests := requests (world (loader m))
                                                ++ [content_url cfg tabId] |}))
                         = cached cfg k (loader m)) by done.
    exists (task :: started). cbn [map world with_loadingPromises with_world now requests cache] in *.
    rewrite <- !app_assoc. cbn [app].
    split; [done |]. split; [done |]. split; [done |]. split; [done |]. split.
    + apply NoDup_cons. split; [| done].
      intros Hin. apply list_elem_of_In, Hiff in Hin as (_ & _ & Hlp).
      cbn in Hlp. by rewrite lookup_insert_eq in Hlp.
    + intros k. cbn [In key task]. split.
      * intros [<- | Hin]; [by repeat split; [left | |] |].
        apply Hiff in Hin as (Hin & Hmiss & Hlp). rewrite Hsame in Hmiss.
        cbn in Hlp. split; [by right |]. split; [done |].
        destruct (decide (k = tabId)) as [-> | Hne];
          [by rewrite lookup_insert_eq in Hlp | by rewrite lookup_insert_ne in Hlp].
      * intros ([-> | Hin] & Hmiss & Hlp); [by left |].
        destruct (decide (k = tabId)) as [-> | Hne]; [by left |].
        right. apply Hiff. rewrite Hsame. split; [done |]. split; [done |].
        cbn. by rewrite lookup_insert_ne.
Qed.

End Preload.

(** X12: [preloadContent] starts one activation, and with it one request,
    for each key of the array that is neither answered from the cache nor
    loading already, however often the array lists the key; for no other
    key does it start anything. *)
Theorem preloadContent_one_request_per_key (cfg : Config.t) (tabIds : list string)
    (m : EventLoop.t) :
  ∃ started,
    let m' := snd (preloadContent cfg (Some tabIds) m) in
    EventLoop.tasks m' = EventLoop.tasks m ++ started
    ∧ requests (ContentLoader.world (EventLoop.loader m'))
      = requests (ContentLoader.world (EventLoop.loader m))
        ++ map (λ task, ContentLoader.content_url cfg (EventLoop.key task)) started
    ∧ NoDup (map EventLoop.key started)
    ∧ ∀ k, In k (map EventLoop.key started)
           ↔ In k tabIds
             ∧ ContentLoader.cached cfg k (EventLoop.loader m) = None
             ∧ ContentLoader.loadingPromises (EventLoop.loader m) !! k = None.
Proof.
  destruct (preloadContent_started cfg tabIds m)
    as (started & Hts & Hreq & _ & _ & Hnd & Hiff).
  by exists started.
Qed.

(** ** The popover *)

Section PopoverFacts.
Import Popover.
Context {P : Type} (tm : TooltipManager.t P).

Lemma consistent_showTooltip (term : Term) (st : Popover.t P) :
  popover_consistent tm st → popover_consistent tm (showTooltip tm term st).
Proof.
  intros Hinv. unfold showTooltip.
  destruct (tooltipId term) as [id |] eqn:Hid; [| done]. cbn [mbind option_bind].
  destruct (TooltipManager.lookup_definition tm id) as [definition |] eqn:Hdef; [| done].
  unfold popover_consistent. cbn. split; [done |]. split; [done |].
  split; [by split; [eexists |] |].
  intros term' [= <-]. by exists id, definition.
Qed.

Lemma consistent_clearTimeout (id : option nat) (st : Popover.t P) :
  popover_consistent tm st → popover_consistent tm (clearTimeout id st).
Proof. by destruct id. Qed.

Lemma consistent_scheduleHide (st : Popover.t P) :
  popover_consistent tm st → popover_consistent tm (scheduleHide st).
Proof. intros Hinv. unfold scheduleHide. by destruct (hideTimeout st). Qed.

Lemma consistent_step (ev : Event) (st st' : Popover.t P) :
  popover_consistent tm st → step tm ev st = Some st' → popover_consistent tm st'.
Proof.
  intros Hinv Hstep.
  destruct ev as [term | term inside | term | term | id | elapsed]; cbn in Hstep.
  - injection Hstep as <-. destruct term; [by apply consistent_showTooltip | done].
  - injection Hstep as <-. destruct term; [| done].
    destruct inside; [done | by apply consistent_scheduleHide].
  - injection Hstep as <-. destruct term; [by apply consistent_showTooltip | done].
  - injection Hstep as <-. destruct term; [by apply consistent_scheduleHide | done].
  - destruct (find _ _) as [[? due] |]; [| done].
    destruct (due <=? now st)%Z; [| done]. injection Hstep as <-.
    unfold popover_consistent. cbn. split; [done |]. split; [done |].
    split; [| done]. split; [done | by intros [? ?]].
  - destruct (0 <=? elapsed)%Z; [| done]. by injection Hstep as <-.
Qed.

Lemma consistent_run (events : list Event) :
  ∀ st st', popover_consistent tm st → run tm events st = Some st' →
            popover_consistent tm st'.
Proof.
  induction events as [|ev events IH]; intros st st' Hinv Hrun; cbn in Hrun.
  - by injection Hrun as <-.
  - destruct (step tm ev st) as [st1 |] eqn:Hstep; [| done].
    eapply IH; [| exact Hrun]. by eapply consistent_step.
Qed.

(** [clearTimeout(this.hideTimeout)] leaves no timeout pending. *)
Lemma timers_clearTimeout (st : Popover.t P) :
  one_hide_timer st → timers (clearTimeout (hideTimeout st) st) = [].
Proof.
  intros [Hnil | (id & due & Hts & Hid)].
  - destruct (hideTimeout st); cbn; by rewrite ?Hnil.
  - rewrite Hid. cbn. rewrite Hts. cbn. by rewrite Nat.eqb_refl.
Qed.

Lemma one_hide_timer_showTooltip (term : Term) (st : Popover.t P) :
  one_hide_timer st → one_hide_timer (showTooltip tm term st).
Proof.
  intros Hinv. unfold showTooltip.
  destruct (tooltipId term ≫= TooltipManager.lookup_definition tm); [| done].
  left. cbn [timers]. by apply timers_clearTimeout.
Qed.

Lemma timers_scheduleHide (st : Popover.t P) :
  one_hide_timer st →
  timers (scheduleHide st) = [(S (created st), now st + 150)%Z]
  ∧ hideTimeout (scheduleHide st) = Some (S (created st)).
Proof.
  intros Hinv. apply timers_clearTimeout in Hinv. unfold scheduleHide.
  destruct (hideTimeout st) as [id |]; cbn in Hinv |- *; by rewrite Hinv.
Qed.

Lemma one_hide_timer_scheduleHide (st : Popover.t P) :
  one_hide_timer st → one_hide_timer (scheduleHide st).
Proof.
  intros Hinv. apply timers_scheduleHide in Hinv as [Hts Hid]. right. eauto.
Qed.

Lemma one_hide_timer_step (ev : Event) (st st' : Popover.t P) :
  one_hide_timer st → step tm ev st = Some st' → one_hide_timer st'.
Proof.
  intros Hinv Hstep.
  destruct ev as [term | term inside | term | term | id | elapsed]; cbn in Hstep.
  - injection Hstep as <-. destruct term; [by apply one_hide_timer_showTooltip | done].
  - injection Hstep as <-. destruct term; [| done].
    destruct inside; [done | by apply one_hide_timer_scheduleHide].
  - injection Hstep as <-. destruct term; [by apply one_hide_timer_showTooltip | done].
  - injection Hstep as <-. destruct term; [by apply one_hide_timer_scheduleHide | done].
  - destruct Hinv as [Hnil | (id' & due' & Hts & Hid)].
    + by rewrite Hnil in Hstep.
    + rewrite Hts in Hstep. cbn in Hstep.
      destruct (Nat.eqb_spec id' id) as [-> |]; [| done].
      destruct (due' <=? now st)%Z; [| done]. injection Hstep as <-. by left.
  - destruct (0 <=? elapsed)%Z; [| done]. by injection Hstep as <-.
Qed.

Lemma one_hide_timer_run (events : list Event) :
  ∀ st st', one_hide_timer st → run tm events st = Some st' → one_hide_timer st'.
Proof.
  induction events as [|ev events IH]; intros st st' Hinv Hrun; cbn in Hrun.
  - by injection Hrun as <-.
  - destruct (step tm ev st) as [st1 |] eqn:Hstep; [| done].
    eapply IH; [| exact Hrun]. by eapply one_hide_timer_step.
Qed.

Lemma active_showTooltip (term : Term) (st : Popover.t P) :
  is_Some (activeTerm st) → is_Some (activeTerm (showTooltip tm term st)).
Proof.
  intros Hact. unfold showTooltip.
  by destruct (tooltipId term ≫= TooltipManager.lookup_definition tm).
Qed.

Lemma active_scheduleHide (st : Popover.t P) :
  activeTerm (scheduleHide st) = activeTerm st.
Proof. unfold scheduleHide. by destruct (hideTimeout st). Qed.

Lemma now_showTooltip (term : Term) (st : Popover.t P) :
  now (showTooltip tm term st) = now st.
Proof.
  unfold showTooltip.
  destruct (tooltipId term ≫= TooltipManager.lookup_definition tm); [| done].
  by destruct (hideTimeout st).
Qed.

Lemma now_scheduleHide (st : Popover.t P) : now (scheduleHide st) = now st.
Proof. unfold scheduleHide. by destruct (hideTimeout st). Qed.

Lemma now_step (ev : Event) (st st' : Popover.t P) :
  step tm ev st = Some st' → (now st ≤ now st')%Z.
Proof.
  intros Hstep.
  destruct ev as [term | term inside | term | term | id | elapsed]; cbn [step] in Hstep.
  - injection Hstep as <-. unfold handlePointerEnter.
    destruct term; rewrite ?now_showTooltip; lia.
  - injection Hstep as <-. unfold handlePointerLeave.
    destruct term; [destruct inside |]; rewrite ?now_scheduleHide; lia.
  - injection Hstep as <-. unfold handleFocus.
    destruct term; rewrite ?now_showTooltip; lia.
  - injection Hstep as <-. unfold handleBlur.
    destruct term; rewrite ?now_scheduleHide; lia.
  - destruct (find _ _) as [[? due] |]; [| done].
    destruct (due <=? now st)%Z; [| done]. injection Hstep as <-. cbn. lia.
  - destruct (Z.leb_spec 0 elapsed); [| done]. injection Hstep as <-. cbn. lia.
Qed.

Lemma now_run (events : list Event) :
  ∀ st st', run tm events st = Some st' → (now st ≤ now st')%Z.
Proof.
  induction events as [|ev events IH]; intros st st' Hrun; cbn in Hrun.
  - injection Hrun as <-. lia.
  - destruct (step tm ev st) as [st1 |] eqn:Hstep; [| done].
    apply IH in Hrun. apply now_step in Hstep. lia.
Qed.

(** While no pending timeout is due before [deadline], the popover stays
    up until [deadline]. *)
Lemma stays_until (deadline : Z) (events : list Event) :
  ∀ st st',
    one_hide_timer st →
    Forall (λ timer, deadline ≤ snd timer)%Z (timers st) →
    (deadline ≤ now st + 150)%Z →
    is_Some (activeTerm st) →
    run tm events st = Some st' →
    (now st' < deadline)%Z →
    is_Some (activeTerm st').
Proof.
  induction events as [|ev events IH]; intros st st' Hone Hdue Hnow Hact Hrun Hbefore;
    cbn in Hrun.
  - by injection Hrun as <-.
  - destruct (step tm ev st) as [st1 |] eqn:Hstep; [| done].
    pose proof (one_hide_timer_step ev st st1 Hone Hstep) as Hone1.
    pose proof (now_run _ _ _ Hrun) as Hlate.
    assert (Hsched : ∀ s : Popover.t P,
              one_hide_timer s → (deadline ≤ now s + 150)%Z →
              Forall (λ timer, deadline ≤ snd timer)%Z (timers (scheduleHide s))).
    { intros s Hs Hn. apply timers_scheduleHide in Hs as [-> _].
      constructor; [cbn; lia | constructor]. }
    assert (Hshow : ∀ term (s : Popover.t P),
              one_hide_timer s →
              Forall (λ timer, deadline ≤ snd timer)%Z (timers s) →
              Forall (λ timer, deadline ≤ snd timer)%Z (timers (showTooltip tm term s))).
    { intros term s Hs Hd. unfold showTooltip.
      destruct (tooltipId term ≫= TooltipManager.lookup_definition tm); [| done].
      cbn [timers]. rewrite timers_clearTimeout by done. constructor. }
    destruct ev as [term | term inside | term | term | id | elapsed]; cbn in Hstep.
    + injection Hstep as <-. destruct term as [term |]; [| by eapply IH].
      cbn in *. eapply (IH (showTooltip tm term st)); try done.
      * by apply Hshow.
      * rewrite now_showTooltip. lia.
      * by apply active_showTooltip.
    + injection Hstep as <-. destruct term as [term |]; [| by eapply IH].
      destruct inside; [by eapply IH |].
      cbn in *. eapply (IH (scheduleHide st)); try done.
      * by apply Hsched.
      * rewrite now_scheduleHide. lia.
      * by rewrite active_scheduleHide.
    + injection Hstep as <-. destruct term as [term |]; [| by eapply IH].
      cbn in *. eapply (IH (showTooltip tm term st)); try done.
      * by apply Hshow.
      * rewrite now_showTooltip. lia.
      * by apply active_showTooltip.
    + injection Hstep as <-. destruct term as [term |]; [| by eapply IH].
      cbn in *. eapply (IH (scheduleHide st)); try done.
      * by apply Hsched.
      * rewrite now_scheduleHide. lia.
      * by rewrite active_scheduleHide.
    + destruct (find _ _) as [[id' due] |] eqn:Hfind; [| done].
      apply find_some in Hfind as [Hin _].
      eapply Forall_forall in Hdue; [| by apply list_elem_of_In].
      cbn in Hdue.
      destruct (Z.leb_spec due (now st)); [| done]. injection Hstep as <-.
      cbn in Hlate. lia.
    + destruct (Z.leb_spec 0 elapsed); [| done]. injection Hstep as <-.
      eapply IH; try exact Hrun; try done. cbn. lia.
Qed.

(** With no timeout pending and no event that schedules one, the popover
    stays up. *)
Lemma stays_while_hovered (events : list Event) :
  ∀ st st',
    timers st = [] →
    is_Some (activeTerm st) →
    forallb (λ ev, negb (schedules_hide ev)) events = true →
    run tm events st = Some st' →
    is_Some (activeTerm st').
Proof.
  induction events as [|ev events IH]; intros st st' Hnil Hact Hquiet Hrun;
    cbn in Hrun, Hquiet.
  - by injection Hrun as <-.
  - apply andb_true_iff in Hquiet as [Hev Hquiet].
    destruct (step tm ev st) as [st1 |] eqn:Hstep; [| done].
    assert (Hshow : ∀ term, timers (showTooltip tm term st) = []).
    { intros term. unfold showTooltip.
      destruct (tooltipId term ≫= TooltipManager.lookup_definition tm); [| done].
      cbn [timers]. apply timers_clearTimeout. by left. }
    destruct ev as [term | term inside | term | term | id | elapsed]; cbn in Hstep.
    + injection Hstep as <-. destruct term as [term |]; [| by eapply IH].
      eapply (IH (showTooltip tm term st)); try done. by apply active_showTooltip.
    + injection Hstep as <-. destruct term as [term |]; [| by eapply IH].
      destruct inside; [by eapply IH | done].
    + injection Hstep as <-. destruct term as [term |]; [| by eapply IH].
      eapply (IH (showTooltip tm term st)); try done. by apply active_showTooltip.
    + injection Hstep as <-. destruct term as [term |]; [done | by eapply IH].
    + by rewrite Hnil in Hstep.
    + destruct (0 <=? elapsed)%Z; [| done]. injection Hstep as <-.
      by eapply IH; try exact Hrun.
Qed.

End PopoverFacts.

(** X13: whatever the pointer, the focus and the timers do, the three
    attributes by which the popover is visible ([aria-hidden],
    [style.visibility], the class [visible]) agree, the popover is visible
    exactly when [activeTerm] is set, and what it then shows is the
    definition that [definitionMap] has for the id of the active marker. *)
Theorem popover_shows_the_active_term {P : Type} (tm : TooltipManager.t P)
    (clock : Z) (events : list Popover.Event) (st : Popover.t P) :
  Popover.run tm events (Popover.constructor clock) = Some st →
  popover_consistent tm st.
Proof.
  apply consistent_run. unfold popover_consistent. cbn.
  split; [done |]. split; [done |]. split; [| done].
  split; [done | by intros [? ?]].
Qed.

Lemma popover_shows_the_active_term_witness :
  let move := {| Popover.element := 7; Popover.tooltipId := Some "std-move" |} in
  let stray := {| Popover.element := 8; Popover.tooltipId := Some "no-such-id" |} in
  let events := [ Popover.mouseover (Some move);
                  Popover.mouseout (Some move) false;
                  Popover.tick 40;
                  Popover.mouseover (Some stray) ] in
  ∃ st,
    Popover.run Defaults.manager events (Popover.constructor 0) = Some st
    ∧ Popover.activeTerm st = Some move
    ∧ popover_consistent Defaults.manager st.
Proof.
  intros move stray events.
  destruct (Popover.run Defaults.manager events (Popover.constructor 0)) as [st |] eqn:Hrun;
    [| by vm_compute in Hrun].
  assert (Hact : Popover.activeTerm st = Some move).
  { vm_compute in Hrun. inversion Hrun as [Hst]. reflexivity. }
  exists st. split; [reflexivity |]. split; [exact Hact |].
  exact (popover_shows_the_active_term Defaults.manager 0 events st Hrun).
Defined.

(** X14: at any time at most one timeout of the manager is pending, and
    [hideTimeout] holds its id: every [setTimeout] of the class comes
    after a [clearTimeout] of the one before. *)
Theorem at_most_one_hide_timer {P : Type} (tm : TooltipManager.t P)
    (clock : Z) (events : list Popover.Event) (st : Popover.t P) :
  Popover.run tm events (Popover.constructor clock) = Some st →
  length (Popover.timers st) ≤ 1
  ∧ ∀ id due, In (id, due) (Popover.timers st) → Popover.hideTimeout st = Some id.
Proof.
  intros Hrun.
  assert (Hinv : one_hide_timer st).
  { eapply one_hide_timer_run; [| exact Hrun]. by left. }
  destruct Hinv as [-> | (id & due & -> & Hid)].
  - split; [cbn; lia | intros ? ? []].
  - split; [cbn; lia |]. by intros id' due' [[= <- <-] | []].
Qed.

Lemma at_most_one_hide_timer_witness :
  let move := {| Popover.element := 7; Popover.tooltipId := Some "std-move" |} in
  let events := [ Popover.mouseover (Some move);
                  Popover.mouseout (Some move) false;
                  Popover.tick 40;
                  Popover.focusout (Some move);
                  Popover.focusout (Some move) ] in
  ∃ st,
    Popover.run Defaults.manager events (Popover.constructor 0) = Some st
    ∧ Popover.timers st = [(3, 190%Z)]
    ∧ Popover.hideTimeout st = Some 3.
Proof.
  intros move events.
  destruct (Popover.run Defaults.manager events (Popover.constructor 0)) as [st |] eqn:Hrun;
    [| by vm_compute in Hrun].
  assert (Hts : Popover.timers st = [(3, 190%Z)]).
  { vm_compute in Hrun. inversion Hrun as [Hst]. reflexivity. }
  exists st. split; [reflexivity |]. split; [exact Hts |].
  apply (at_most_one_hide_timer Defaults.manager 0 events st Hrun) with (due := 190%Z).
  rewrite Hts. by left.
Defined.

(** X15: once the pointer has left a marker or the focus is gone, the
    popover stays for 150 ms: after [scheduleHide] at time [t] it is still
    up at every time before [t + 150], whatever happens in between. *)
Theorem popover_stays_for_150ms {P : Type} (tm : TooltipManager.t P)
    (clock : Z) (before events : list Popover.Event) (st st' : Popover.t P) :
  Popover.run tm before (Popover.constructor clock) = Some st →
  is_Some (Popover.activeTerm st) →
  Popover.run tm events (Popover.scheduleHide st) = Some st' →
  (Popover.now st' < Popover.now st + 150)%Z →
  is_Some (Popover.activeTerm st').
Proof.
  intros Hrun Hact Hlater Hbefore.
  assert (Hinv : one_hide_timer st).
  { eapply one_hide_timer_run; [| exact Hrun]. by left. }
  eapply (stays_until tm (Popover.now st + 150)%Z events (Popover.scheduleHide st));
    try done.
  - by apply one_hide_timer_scheduleHide.
  - apply timers_scheduleHide in Hinv as [-> _]. constructor; [cbn; lia | constructor].
  - rewrite now_scheduleHide. lia.
  - by rewrite active_scheduleHide.
Qed.

Lemma popover_stays_for_150ms_witness :
  let move := {| Popover.element := 7; Popover.tooltipId := Some "std-move" |} in
  let before := [ Popover.mouseover (Some move); Popover.tick 500 ] in
  let events := [ Popover.tick 100; Popover.mouseout (Some move) true; Popover.tick 49 ] in
  ∃ st st',
    Popover.run Defaults.manager before (Popover.constructor 0) = Some st
    ∧ Popover.run Defaults.manager events (Popover.scheduleHide st) = Some st'
    ∧ Popover.now st' = 649%Z
    ∧ is_Some (Popover.activeTerm st').
Proof.
  intros move before events.
  destruct (Popover.run Defaults.manager before (Popover.constructor 0)) as [st |] eqn:Hrun;
    [| by vm_compute in Hrun].
  destruct (Popover.run Defaults.manager events (Popover.scheduleHide st))
    as [st' |] eqn:Hlater.
  2: { vm_compute in Hrun. inversion Hrun as [Hst]. subst st. by vm_compute in Hlater. }
  assert (Hact : is_Some (Popover.activeTerm st)).
  { vm_compute in Hrun. inversion Hrun as [Hst]. by eexists. }
  assert (Hnow : Popover.now st = 500%Z).
  { vm_compute in Hrun. inversion Hrun as [Hst]. reflexivity. }
  assert (Hnow' : Popover.now st' = 649%Z).
  { vm_compute in Hrun. inversion Hrun as [Hst]. subst st.
    vm_compute in Hlater. inversion Hlater as [Hst']. reflexivity. }
  exists st, st'. split; [reflexivity |]. split; [exact Hlater |]. split; [exact Hnow' |].
  apply (popover_stays_for_150ms Defaults.manager 0 before events st st' Hrun Hact Hlater).
  rewrite Hnow, Hnow'. lia.
Defined.

(** X16: showing a popover cancels the pending hide: from the moment
    [showTooltip] finds a definition for a marker, the popover stays up,
    however much time passes, as long as no [mouseout] leaves a marker and
    no [focusout] happens on one. *)
Theorem popover_stays_while_hovered {P : Type} (tm : TooltipManager.t P)
    (clock : Z) (before events : list Popover.Event) (term : Popover.Term)
    (st st' : Popover.t P) :
  Popover.run tm before (Popover.constructor clock) = Some st →
  is_Some (Popover.tooltipId term ≫= TooltipManager.lookup_definition tm) →
  forallb (λ ev, negb (schedules_hide ev)) events = true →
  Popover.run tm events (Popover.showTooltip tm term st) = Some st' →
  is_Some (Popover.activeTerm st').
Proof.
  intros Hrun [definition Hdef] Hquiet Hlater.
  assert (Hinv : one_hide_timer st).
  { eapply one_hide_timer_run; [| exact Hrun]. by left. }
  eapply (stays_while_hovered tm events (Popover.showTooltip tm term st)); try done;
    unfold Popover.showTooltip; rewrite Hdef; cbn.
  - by apply timers_clearTimeout.
  - by eexists.
Qed.

Lemma popover_stays_while_hovered_witness :
  let move := {| Popover.element := 7; Popover.tooltipId := Some "std-move" |} in
  let emplace := {| Popover.element := 9; Popover.tooltipId := Some "emplace" |} in
  let before := [ Popover.mouseover (Some move);
                  Popover.mouseout (Some move) false;
                  Popover.tick 100 ] in
  let events := [ Popover.tick 5000; Popover.mouseout (Some emplace) true;
                  Popover.mouseout None false ] in
  ∃ st st',
    Popover.run Defaults.manager before (Popover.constructor 0) = Some st
    ∧ Popover.timers st = [(1, 150%Z)]
    ∧ Popover.run Defaults.manager events
        (Popover.showTooltip Defaults.manager emplace st) = Some st'
    ∧ is_Some (Popover.activeTerm st').
Proof.
  intros move emplace before events.
  destruct (Popover.run Defaults.manager before (Popover.constructor 0)) as [st |] eqn:Hrun;
    [| by vm_compute in Hrun].
  destruct (Popover.run Defaults.manager events
              (Popover.showTooltip Defaults.manager emplace st)) as [st' |] eqn:Hlater.
  2: { vm_compute in Hrun. inversion Hrun as [Hst]. subst st. by vm_compute in Hlater. }
  assert (Hts : Popover.timers st = [(1, 150%Z)]).
  { vm_compute in Hrun. inversion Hrun as [Hst]. reflexivity. }
  assert (Hdef : is_Some (Popover.tooltipId emplace
                          ≫= TooltipManager.lookup_definition Defaults.manager))
    by (vm_compute; by eexists).
  exists st, st'. split; [reflexivity |]. split; [exact Hts |]. split; [exact Hlater |].
  exact (popover_stays_while_hovered Defaults.manager 0 before events emplace st st'
           Hrun Hdef eq_refl Hlater).
Defined.

(** X17: a marker made for a match of [findMatches] always gets its
    popover: in a manager built by the constructor, [showTooltip] on a
    marker that carries the [definitionId] of a returned match makes it the
    active marker and shows a definition of the table with that id. *)
Theorem matched_term_gets_its_popover {P : Type} `{RegExp P}
    (fuel : nat) (defs : list (Def.t P)) (text : string) (ms : list (Match.t P))
    (m : Match.t P) (term : Popover.Term) (st : Popover.t P) :
  TooltipManager.findMatches fuel (TooltipManager.constructor defs) text = Some ms →
  m ∈ ms →
  Popover.tooltipId term = Some (Match.definitionId m) →
  ∃ definition,
    Popover.activeTerm (Popover.showTooltip (TooltipManager.constructor defs) term st)
    = Some term
    ∧ Popover.innerHTML
        (Popover.tooltipElement
           (Popover.showTooltip (TooltipManager.constructor defs) term st))
      = Some definition
    ∧ Popover.classVisible
        (Popover.tooltipElement
           (Popover.showTooltip (TooltipManager.constructor defs) term st))
      = true
    ∧ Def.id definition = Match.definitionId m
    ∧ definition ∈ defs.
Proof.
  intros Hf Hm Hid.
  apply matches_from_table in Hf. eapply Forall_forall in Hf; [| exact Hm].
  destruct Hf as (d & pattern & i & r & Hd & _ & _ & ->).
  cbn [TooltipManager.definitions TooltipManager.constructor] in Hd.
  cbn [Match.definitionId TooltipManager.pushed] in Hid |- *.
  destruct (constructor_knows defs d Hd) as [definition Hdef].
  exists definition. unfold Popover.showTooltip. rewrite Hid. cbn [mbind option_bind].
  rewrite Hdef. cbn. split; [done |]. split; [done |]. split; [done |].
  unfold TooltipManager.lookup_definition, TooltipManager.constructor in Hdef.
  cbn [TooltipManager.definitionMap] in Hdef. rewrite definitionMap_lookup in Hdef.
  destruct (last _) as [d' |] eqn:Hlast; [| by rewrite lookup_empty in Hdef].
  injection Hdef as ->. apply last_Some_elem_of, list_elem_of_filter in Hlast as [Heq Hin].
  by split.
Qed.

Lemma matched_term_gets_its_popover_witness :
  let text := "x = decltype(y)" in
  let m := TooltipManager.pushed Defaults.decltype_first
             {| index := 4; matched := "decltype" |} in
  let term := {| Popover.element := 3; Popover.tooltipId := Some "decltype" |} in
  TooltipManager.findMatches 30 Defaults.manager text = Some [m]
  ∧ ∃ definition,
      Popover.activeTerm (Popover.showTooltip Defaults.manager term (Popover.constructor 0))
      = Some term
      ∧ Popover.innerHTML
          (Popover.tooltipElement
             (Popover.showTooltip Defaults.manager term (Popover.constructor 0)))
        = Some definition
      ∧ Popover.classVisible
          (Popover.tooltipElement
             (Popover.showTooltip Defaults.manager term (Popover.constructor 0)))
        = true
      ∧ Def.id definition = "decltype"
      ∧ definition ∈ Defaults.DEFAULT_TOOLTIP_DEFINITIONS.
Proof.
  intros text m term.
  assert (Hf : TooltipManager.findMatches 30
                 (TooltipManager.constructor Defaults.DEFAULT_TOOLTIP_DEFINITIONS) text
               = Some [m]) by (vm_compute; reflexivity).
  split; [exact Hf |].
  apply (matched_term_gets_its_popover 30 Defaults.DEFAULT_TOOLTIP_DEFINITIONS text [m] m
           term (Popover.constructor 0) Hf); [by left | reflexivity].
Defined.

(** ** The controller: its cache and [switchTab] *)

Section PageFacts.
Import CPPGuideApp.




(** What [finish] writes. *)
Lemma finish_Return (tabId content : string) (page : Page.t) :
  Page.finish tabId (Return content) page
  = Page.make (Page.app page) (Some tabId) (Page.buttons page) (Page.Content content)
      (Page.pending page).
Proof. reflexivity. Qed.

Lemma finish_Throw (tabId message : string) (page : Page.t) :
  Page.finish tabId (Throw message) page
  = Page.make (Page.app page) (Page.currentTab page) (Page.buttons page)
      (Page.ErrorMessage "Failed to load content. Please try again.")
      (Page.pending page).
Proof. reflexivity. Qed.

(** The invariant of the page on the event loop: the cache holds
    configured tabs only, the page is in step, and every [switchTab] that
    awaits a response is for a configured tab. *)
Lemma page_in_step_step (ev : Page.Event) (page page' : Page.t) :
  cache_within_config (Page.app page)
  ∧ page_in_step page
  ∧ Forall (λ activation,
              is_Some (find (λ tab, String.eqb (id tab) (Page.tabId activation))
                         (tabsConfig (Page.app page))))
      (Page.pending page) →
  Page.step ev page = Some page' →
  cache_within_config (Page.app page')
  ∧ page_in_step page'
  ∧ Forall (λ activation,
              is_Some (find (λ tab, String.eqb (id tab) (Page.tabId activation))
                         (tabsConfig (Page.app page'))))
      (Page.pending page').
Proof.
  intros (Hcfg & [Hcur Hshown] & Hpending) Hstep.
  destruct ev as [tabId | request resp]; cbn [Page.step] in Hstep.
  - injection Hstep as <-. unfold Page.switchTab.
    cbn [Page.showLoading Page.updateTabStates Page.app Page.currentTab Page.buttons
           Page.container Page.pending].
    destruct (contentCache (Page.app page) !! tabId) as [content |] eqn:Hc.
    { rewrite finish_Return. unfold page_in_step. cbn.
      split; [done |]. split; [| done]. split.
      - intros k [= <-]. split; [| by eexists]. apply Hcfg. by eexists.
      - intros c [= <-]. by exists tabId. }
    destruct (find _ (tabsConfig (Page.app page))) as [tabConfig |] eqn:Hfind.
    + unfold page_in_step. cbn. split; [done |]. split.
      * split; [done |]. intros c [=].
      * apply Forall_app. split; [done |]. constructor; [| constructor].
        cbn. rewrite Hfind. by eexists.
    + rewrite finish_Throw. unfold page_in_step. cbn.
      split; [done |]. split; [| done]. split; [done |]. intros c [=].
  - destruct (find _ (Page.pending page)) as [activation |] eqn:Hfind; [| done].
    cbn [mbind option_bind] in Hstep. injection Hstep as <-.
    apply find_some in Hfind as [Hin _].
    pose proof Hin as Hknown. eapply List.Forall_forall in Hknown; [| exact Hpending].
    assert (Hrest : Forall (λ activation,
                              is_Some (find (λ tab, String.eqb (id tab)
                                                      (Page.tabId activation))
                                         (tabsConfig (Page.app page))))
                      (List.filter (λ a, negb (Page.request a =? request))
                         (Page.pending page))).
    { apply List.Forall_forall. intros a Ha. apply filter_In in Ha as [Ha _].
      eapply List.Forall_forall in Ha; [| exact Hpending]. exact Ha. }
    assert (Hfail : ∀ message p,
              Page.app p = Page.app page → Page.currentTab p = Page.currentTab page →
              Page.pending p = List.filter (λ a, negb (Page.request a =? request))
                                 (Page.pending page) →
              cache_within_config (Page.app (Page.finish (Page.tabId activation)
                                               (Throw message) p))
              ∧ page_in_step (Page.finish (Page.tabId activation) (Throw message) p)
              ∧ Forall (λ activation0,
                          is_Some (find (λ tab, String.eqb (id tab)
                                                  (Page.tabId activation0))
                                     (tabsConfig
                                        (Page.app (Page.finish (Page.tabId activation)
                                                     (Throw message) p)))))
                  (Page.pending (Page.finish (Page.tabId activation) (Throw message) p))).
    { intros message p Happ Hcurrent Hpend. rewrite finish_Throw.
      unfold page_in_step. cbn. rewrite Happ, Hcurrent, Hpend.
      split; [done |]. split; [| done]. split; [done |]. intros c [=]. }
    unfold Page.resume. destruct resp as [message | ok status statusText content].
    + by apply Hfail.
    + destruct ok; cbn [negb]; [| by apply Hfail].
      rewrite finish_Return. unfold page_in_step. cbn. split; [| split; [split |]].
      * intros k Hk. cbn in Hk |- *.
        destruct (decide (Page.tabId activation = k)) as [<- | Hne]; [done |].
        rewrite lookup_insert_ne in Hk by done. by apply Hcfg.
      * intros k [= <-]. split; [done |]. rewrite lookup_insert_eq. by eexists.
      * intros c [= <-]. exists (Page.tabId activation). split; [done |].
        apply lookup_insert_eq.
      * exact Hrest.
Qed.

Lemma page_in_step_run (events : list Page.Event) :
  ∀ page page',
    cache_within_config (Page.app page)
    ∧ page_in_step page
    ∧ Forall (λ activation,
                is_Some (find (λ tab, String.eqb (id tab) (Page.tabId activation))
                           (tabsConfig (Page.app page))))
        (Page.pending page) →
    Page.run events page = Some page' →
    page_in_step page'.
Proof.
  induction events as [|ev events IH]; intros page page' Hinv Hrun; cbn in Hrun.
  - injection Hrun as <-. by destruct Hinv as (_ & ? & _).
  - destruct (Page.step ev page) as [page1 |] eqn:Hstep; [| done].
    eapply (IH page1); [| exact Hrun]. by eapply page_in_step_step.
Qed.

End PageFacts.



(** X19: on the event loop, however clicks on tabs and responses
    interleave and whether the loads succeed or fail, [currentTab] is
    either unset or a configured tab whose content is in [contentCache],
    and a document that [displayContent] was the last to write to
    [#content-container] is the cached document of [currentTab].  When a
    response arrives, a good one makes its tab the current one, caches and
    displays its body; a rejected request or a response that is not [ok]
    puts the error message in the container and leaves [currentTab] and
    the cache as they were, and so does a click on a tab that is neither
    cached nor configured, without a request.  ([clearCache] is not
    called.) *)
Theorem current_tab_has_content (w : World) (events : list Page.Event) (page : Page.t) :
  Page.run events (Page.constructor w) = Some page →
  page_in_step page
  ∧ (∀ request resp page',
       Page.step (Page.responds request resp) page = Some page' →
       ∃ tabId,
         In {| Page.request := request; Page.tabId := tabId |} (Page.pending page)
         ∧ match resp with
           | Replied true _ _ content =>
               Page.currentTab page' = Some tabId
               ∧ Page.container page' = Page.Content content
               ∧ CPPGuideApp.contentCache (Page.app page') !! tabId = Some content
           | _ =>
               Page.currentTab page' = Page.currentTab page
               ∧ Page.container page'
                 = Page.ErrorMessage "Failed to load content. Please try again."
               ∧ CPPGuideApp.contentCache (Page.app page')
                 = CPPGuideApp.contentCache (Page.app page)
           end)
  ∧ (∀ tabId,
       CPPGuideApp.contentCache (Page.app page) !! tabId = None →
       find (λ tab, String.eqb (CPPGuideApp.id tab) tabId)
         (CPPGuideApp.tabsConfig (Page.app page)) = None →
       Page.currentTab (Page.switchTab tabId page) = Page.currentTab page
       ∧ Page.container (Page.switchTab tabId page)
         = Page.ErrorMessage "Failed to load content. Please try again."
       ∧ Page.app (Page.switchTab tabId page) = Page.app page).
Proof.
  intros Hrun. split; [| split].
  - eapply page_in_step_run; [| exact Hrun].
    split; [apply cache_within_config_constructor |].
    split; [| constructor]. split; [by intros tabId [=] | by intros content [=]].
  - intros request resp page' Hstep. cbn [Page.step] in Hstep.
    destruct (find _ (Page.pending page)) as [[request' tabId] |] eqn:Hfind; [| done].
    cbn [mbind option_bind] in Hstep. injection Hstep as <-.
    apply find_some in Hfind as [Hin Heq]. cbn in Heq. apply Nat.eqb_eq in Heq. subst request'.
    exists tabId. split; [exact Hin |].
    unfold Page.resume. cbn [Page.tabId].
    destruct resp as [message | [|] status statusText content]; cbn [negb].
    + by rewrite finish_Throw.
    + rewrite finish_Return. cbn. by rewrite lookup_insert_eq.
    + by rewrite finish_Throw.
  - intros tabId Hc Hnone. unfold Page.switchTab.
    cbn [Page.showLoading Page.updateTabStates Page.app Page.currentTab Page.buttons
           Page.container Page.pending].
    rewrite Hc, Hnone. by rewrite finish_Throw.
Qed.

Lemma current_tab_has_content_witness :
  let w := {| now := 0; requests := [] |} in
  let events := [ Page.click "vector"; Page.click "map";
                  Page.responds 1 (Replied true 200 "OK" "<h1>std::map</h1>");
                  Page.responds 0 (Replied false 404 "Not Found" "");
                  Page.click "set" ] in
  ∃ page,
    Page.run events (Page.constructor w) = Some page
    ∧ Page.currentTab page = Some "map"
    ∧ Page.container page = Page.LoadingIndicator
    ∧ page_in_step page
    ∧ (∀ page',
         Page.step (Page.responds 2 (Rejected "Failed to fetch")) page = Some page' →
         ∃ tabId,
           In {| Page.request := 2; Page.tabId := tabId |} (Page.pending page)
           ∧ Page.currentTab page' = Some "map"
           ∧ Page.container page'
             = Page.ErrorMessage "Failed to load content. Please try again.").
Proof.
  intros w events.
  destruct (Page.run events (Page.constructor w)) as [page |] eqn:Hrun;
    [| by vm_compute in Hrun].
  assert (Hcur : Page.currentTab page = Some "map").
  { vm_compute in Hrun. inversion Hrun as [Hpage]. reflexivity. }
  assert (Hbox : Page.container page = Page.LoadingIndicator).
  { vm_compute in Hrun. inversion Hrun as [Hpage]. reflexivity. }
  destruct (current_tab_has_content w events page Hrun) as (Hstep & Hresp & _).
  exists page. split; [reflexivity |]. split; [exact Hcur |]. split; [exact Hbox |].
  split; [exact Hstep |].
  intros page' Hlater.
  destruct (Hresp 2 (Rejected "Failed to fetch") page' Hlater) as (tabId & Hin & Hc & Hb & _).
  exists tabId. split; [exact Hin |]. split; [by rewrite Hc, Hcur | exact Hb].
Defined.

(** ** [throttle] *)

Section ThrottleFacts.
Import Throttle.
Context {A : Type} (limit : Z).

Lemma last_map {B C : Type} (f : B → C) (l : list B) :
  last (map f l) = option_map f (last l).
Proof.
  induction l as [|x l IH]; [done |]. destruct l as [|y l]; [done |]. exact IH.
Qed.

Lemma spaced_snoc (times : list Z) (t : Z) :
  spaced limit times →
  (∀ tl, last times = Some tl → (tl + limit ≤ t)%Z) →
  spaced limit (times ++ [t]).
Proof.
  intros Hsp Hlast i t1 t2 H1 H2.
  destruct (decide (S i < length times)) as [Hlt | Hge].
  - rewrite lookup_app_l in H1 by lia. rewrite lookup_app_l in H2 by lia. by eapply Hsp.
  - assert (Hi : S i = length times).
    { apply lookup_lt_Some in H2. rewrite length_app in H2. cbn in H2. lia. }
    rewrite lookup_app_l in H1 by lia.
    rewrite lookup_app_r in H2 by lia.
    replace (S i - length times) with 0 in H2 by lia. injection H2 as <-.
    apply Hlast. rewrite last_lookup. by replace (pred (length times)) with i by lia.
Qed.

Lemma throttled_step (ev : Event A) (st st' : Throttle.t A) :
  throttled limit st → step limit ev st = Some st' → throttled limit st'.
Proof.
  intros Hinv Hstep. pose proof Hinv as [Hsp Hlast].
  destruct ev as [args | id | elapsed]; cbn in Hstep.
  - injection Hstep as <-. unfold invoke.
    destruct (inThrottle st) eqn:Hin; [done |].
    split; cbn [applied].
    + rewrite map_app. apply spaced_snoc; [done |].
      intros tl Htl. rewrite last_map in Htl.
      destruct (last (applied st)) as [[tl' a] |]; [| done].
      injection Htl as <-. by destruct Hlast as [_ [_ ?]].
    + rewrite last_snoc. cbn. split; [lia |].
      destruct (last (applied st)) as [[tl' a] |].
      * destruct Hlast as [_ [-> _]]. by eexists.
      * destruct Hlast as [_ ->]. by eexists.
  - destruct (find _ _) as [[id' due] |] eqn:Hfind; [| done].
    destruct (Z.leb_spec due (now st)); [| done]. injection Hstep as <-.
    split; [done |]. cbn.
    destruct (last (applied st)) as [[tl a] |].
    + destruct Hlast as [Hle Hlast]. split; [done |].
      destruct (inThrottle st).
      * destruct Hlast as [id0 Hts]. rewrite Hts in Hfind |- *. cbn in Hfind |- *.
        destruct (Nat.eqb_spec id0 id); [| done]. injection Hfind as _ <-.
        split; [done | lia].
      * destruct Hlast as [Hts _]. by rewrite Hts in Hfind.
    + destruct Hlast as [_ Hts]. by rewrite Hts in Hfind.
  - destruct (Z.leb_spec 0 elapsed); [| done]. injection Hstep as <-.
    split; [done |]. cbn.
    destruct (last (applied st)) as [[tl a] |]; [| done].
    destruct Hlast as [Hle Hlast]. split; [lia |].
    destruct (inThrottle st); [done |]. destruct Hlast. split; [done | lia].
Qed.

Lemma throttled_run (events : list (Event A)) :
  ∀ st st', throttled limit st → run limit events st = Some st' → throttled limit st'.
Proof.
  induction events as [|ev events IH]; intros st st' Hinv Hrun; cbn in Hrun.
  - by injection Hrun as <-.
  - destruct (step limit ev st) as [st1 |] eqn:Hstep; [| done].
    eapply IH; [| exact Hrun]. by eapply throttled_step.
Qed.

End ThrottleFacts.

(** X20: a function wrapped by [throttle] runs at most once per [limit]
    milliseconds: between one call of [func] and the next at least [limit]
    pass, however often and whenever the wrapper is called. *)
Theorem throttle_spaces_the_calls {A : Type} (limit clock : Z)
    (events : list (Throttle.Event A)) (st : Throttle.t A) :
  Throttle.run limit events (Throttle.throttle clock) = Some st →
  spaced limit (map fst (Throttle.applied st)).
Proof.
  intros Hrun.
  assert (Hinit : throttled limit (Throttle.throttle (A := A) clock)).
  { split; [| done]. by intros i t1 t2 Hi. }
  by destruct (throttled_run limit events _ _ Hinit Hrun).
Qed.

Lemma throttle_spaces_the_calls_witness :
  let events := [ Throttle.call "a"; Throttle.tick 60; Throttle.call "b";
                  Throttle.tick 50; Throttle.timeout 1; Throttle.call "c";
                  Throttle.call "d" ] in
  ∃ st,
    Throttle.run 100 events (Throttle.throttle 0) = Some st
    ∧ Throttle.applied st = [(0%Z, "a"); (110%Z, "c")]
    ∧ spaced 100 (map fst (Throttle.applied st)).
Proof.
  intros events.
  destruct (Throttle.run 100 events (Throttle.throttle 0)) as [st |] eqn:Hrun;
    [| by vm_compute in Hrun].
  assert (Happ : Throttle.applied st = [(0%Z, "a"); (110%Z, "c")]).
  { vm_compute in Hrun. inversion Hrun as [Hst]. reflexivity. }
  exists st. split; [reflexivity |]. split; [exact Happ |].
  exact (throttle_spaces_the_calls 100 0 events st Hrun).
Defined.

(** ** [debounce] *)

Section DebounceFacts.
Import Debounce.
Context {A : Type} (wait : Z) (immediate : bool).

Lemma Forall_In {B : Type} (Q : B → Prop) (l : list B) (x : B) :
  Forall Q l → In x l → Q x.
Proof. intros Hall Hin. by eapply List.Forall_forall in Hall. Qed.

(** The invariant of the closure with what it says of the calls of [func]
    so far, by the mode. *)
Lemma debouncing_step (ev : Event A) (st st' : Debounce.t A) :
  debouncing wait st ∧
  Forall (if immediate then at_leading_edge wait (called st)
          else after_silence wait (called st)) (applied st) →
  step wait immediate ev st = Some st' →
  debouncing wait st' ∧
  Forall (if immediate then at_leading_edge wait (called st')
          else after_silence wait (called st')) (applied st').
Proof.
  intros [(Hcalled & Happlied & Hpending) Hhist] Hstep.
  destruct ev as [args | id | elapsed]; cbn [step] in Hstep.
  - injection Hstep as <-. unfold executedFunction.
    assert (Hclear : clearTimeout (timeout_ st) (timers st) = []).
    { destruct Hpending as [(-> & -> & _) | (id & t0 & a0 & -> & -> & _)]; [done |].
      cbn. by rewrite Nat.eqb_refl. }
    rewrite Hclear. cbn [app].
    assert (Hold : Forall (if immediate
                           then at_leading_edge wait (called st ++ [(now st, args)])
                           else after_silence wait (called st ++ [(now st, args)]))
                     (applied st)).
    { apply List.Forall_forall. intros [t a] Hin.
      pose proof (Forall_In _ _ _ Happlied Hin) as Hle.
      apply (Forall_In _ _ _ Hhist) in Hin as Hhist'. clear Hhist.
      rename Hhist' into Hhist. cbn in Hle.
      destruct immediate.
      - destruct Hhist as [Hc Hearlier]. split; [apply in_or_app; by left |].
        intros c Hc' Hlt. apply in_app_or in Hc' as [Hc' | [<- | []]];
          [by apply Hearlier | cbn in Hlt; lia].
      - destruct Hhist as (t0 & Hc & Hwait & Hquiet). exists t0.
        split; [apply in_or_app; by left |]. split; [done |].
        intros c Hc'. apply in_app_or in Hc' as [Hc' | [<- | []]];
          [by apply Hquiet | right; cbn; lia]. }
    split.
    + split; [| split]; cbn.
      * apply Forall_app. split; [done |]. constructor; [cbn; lia | constructor].
      * destruct (immediate && _); [| done].
        apply Forall_app. split; [done |]. constructor; [cbn; lia | constructor].
      * right. exists (S (created st)), (now st), args.
        split; [done |]. split; [done |]. split; [apply in_or_app; right; by left |].
        apply Forall_app. split; [done |]. constructor; [cbn; lia | constructor].
    + cbn [called applied].
      destruct immediate; cbn [andb]; [| exact Hold].
      destruct (timeout_ st) as [id |] eqn:Hto; cbn; [exact Hold |].
      apply Forall_app. split; [exact Hold |]. constructor; [| constructor].
      split; [apply in_or_app; right; by left |].
      intros c Hc Hlt. cbn in Hlt |- *.
      apply in_app_or in Hc as [Hc | [<- | []]]; [| cbn in Hlt; lia].
      destruct Hpending as [(_ & _ & Hquiet) | (id & t0 & a0 & Hsome & _)]; [| done].
      eapply Forall_In in Hquiet; [| exact Hc]. done.
  - destruct (find _ _) as [[[id' due] args] |] eqn:Hfind; [| done].
    destruct (Z.leb_spec due (now st)); [| done]. injection Hstep as <-.
    destruct Hpending as [(_ & Hts & _) | (id0 & t0 & a0 & Hto & Hts & Hin & Hmax)];
      [by rewrite Hts in Hfind |].
    rewrite Hts in Hfind |- *. cbn in Hfind |- *.
    destruct (Nat.eqb_spec id0 id); [| done]. injection Hfind as _ <- <-.
    unfold later. cbn. split.
    + split; [done |]. split.
      * destruct (negb immediate); [| done].
        apply Forall_app. split; [done |]. constructor; [cbn; lia | constructor].
      * left. split; [done |]. split; [done |].
        eapply Forall_impl; [exact Hmax |]. intros c Hc. cbn in Hc |- *. lia.
    + destruct immediate; cbn; [done |].
      apply Forall_app. split; [done |]. constructor; [| constructor].
      exists t0. split; [done |]. split; [cbn; lia |].
      intros c Hc. left. eapply Forall_In in Hmax; [| exact Hc]. done.
  - destruct (Z.leb_spec 0 elapsed); [| done]. injection Hstep as <-. cbn.
    split; [| done]. split; [| split].
    + eapply Forall_impl; [exact Hcalled |]. intros c Hc. cbn in Hc |- *. lia.
    + eapply Forall_impl; [exact Happlied |]. intros c Hc. cbn in Hc |- *. lia.
    + destruct Hpending as [(Hto & Hts & Hquiet) | Hpending]; [| by right].
      left. split; [done |]. split; [done |].
      eapply Forall_impl; [exact Hquiet |]. intros c Hc. cbn in Hc |- *. lia.
Qed.

Lemma debouncing_run (events : list (Event A)) :
  ∀ st st',
    debouncing wait st ∧
    Forall (if immediate then at_leading_edge wait (called st)
            else after_silence wait (called st)) (applied st) →
    run wait immediate events st = Some st' →
    debouncing wait st' ∧
    Forall (if immediate then at_leading_edge wait (called st')
            else after_silence wait (called st')) (applied st').
Proof.
  induction events as [|ev events IH]; intros st st' Hinv Hrun; cbn in Hrun.
  - by injection Hrun as <-.
  - destruct (step wait immediate ev st) as [st1 |] eqn:Hstep; [| done].
    eapply IH; [| exact Hrun]. by eapply debouncing_step.
Qed.

Lemma debouncing_debounce (clock : Z) :
  debouncing wait (debounce (A := A) clock) ∧
  Forall (if immediate then at_leading_edge wait (called (debounce (A := A) clock))
          else after_silence wait (called (debounce (A := A) clock)))
    (applied (debounce (A := A) clock)).
Proof.
  split; [| constructor]. split; [constructor |]. split; [constructor |].
  left. by repeat split.
Qed.

End DebounceFacts.

(** X21: a function wrapped by [debounce] without [immediate] runs only
    after [wait] milliseconds of silence: each call of [func] has the
    arguments of a call of the wrapper that was made at least [wait]
    before, and no call of the wrapper lies between the two. *)
Theorem debounce_waits_for_silence {A : Type} (wait clock : Z)
    (events : list (Debounce.Event A)) (st : Debounce.t A) (t : Z) (args : A) :
  Debounce.run wait false events (Debounce.debounce clock) = Some st →
  In (t, args) (Debounce.applied st) →
  ∃ t0, In (t0, args) (Debounce.called st)
        ∧ (t0 + wait ≤ t)%Z
        ∧ ∀ t1 args1, In (t1, args1) (Debounce.called st) → (t1 ≤ t0)%Z ∨ (t ≤ t1)%Z.
Proof.
  intros Hrun Hin.
  destruct (debouncing_run wait false events _ _ (debouncing_debounce wait false clock) Hrun)
    as [_ Hhist].
  eapply Forall_In in Hhist; [| exact Hin].
  destruct Hhist as (t0 & Hc & Hwait & Hquiet). exists t0.
  split; [done |]. split; [done |]. intros t1 args1 Hc1. exact (Hquiet _ Hc1).
Qed.

Lemma debounce_waits_for_silence_witness :
  let events := [ Debounce.call "a"; Debounce.tick 200; Debounce.call "ab";
                  Debounce.tick 120; Debounce.call "abc"; Debounce.tick 300;
                  Debounce.timeout 3 ] in
  ∃ st,
    Debounce.run 300 false events (Debounce.debounce 0) = Some st
    ∧ Debounce.applied st = [(620%Z, "abc")]
    ∧ ∃ t0, In (t0, "abc") (Debounce.called st)
            ∧ (t0 + 300 ≤ 620)%Z
            ∧ ∀ t1 args1, In (t1, args1) (Debounce.called st) → (t1 ≤ t0)%Z ∨ (620 ≤ t1)%Z.
Proof.
  intros events.
  destruct (Debounce.run 300 false events (Debounce.debounce 0)) as [st |] eqn:Hrun;
    [| by vm_compute in Hrun].
  assert (Happ : Debounce.applied st = [(620%Z, "abc")]).
  { vm_compute in Hrun. inversion Hrun as [Hst]. reflexivity. }
  exists st. split; [reflexivity |]. split; [exact Happ |].
  apply (debounce_waits_for_silence 300 0 events st 620 "abc" Hrun).
  rewrite Happ. by left.
Defined.



(** ** [EventEmitter] *)

Section EventEmitterFacts.
Import EventEmitter.

Lemma filter_filter_andb {B : Type} (f g : B → bool) (l : list B) :
  List.filter (λ x, f x && g x) l = List.filter g (List.filter f l).
Proof.
  induction l as [|x l IH]; [done |]. cbn.
  destruct (f x); cbn; [destruct (g x) |]; by rewrite IH.
Qed.

Lemma forEach_returns (throws : nat → bool) (callbacks : list nat) :
  Forall (λ cb, throws cb = false) callbacks →
  forEach throws callbacks = (Return (), callbacks).
Proof.
  induction 1 as [|cb callbacks Hcb _ IH]; [done |]. cbn. by rewrite Hcb, IH.
Qed.

(** What is registered for [event] after the operations [ops]. *)
Lemma run_registered (event : string) (ops : list Op) :
  inherited event = false →
  ∀ st,
    default [] (events (run ops st) !! event)
    = List.filter (λ cb, negb (removed_by event cb ops)) (default [] (events st !! event))
      ++ listening event ops.
Proof.
  intros Hown. induction ops as [|op ops IH]; intros st.
  - cbn. rewrite app_nil_r. induction (default [] _) as [|x l IHl]; [done |].
    cbn. by rewrite <- IHl.
  - cbn [run foldl]. change (foldl _ (apply op st) ops) with (run ops (apply op st)).
    rewrite IH. clear IH. destruct op as [e cb | e cb]; cbn [apply listening removed_by existsb].
    + unfold on. destruct (inherited e) eqn:He; cbn [snd orb].
      * destruct (String.eqb_spec e event) as [-> | Hne]; [congruence | done].
      * destruct (String.eqb_spec e event) as [-> | Hne]; cbn [events andb].
        -- rewrite lookup_insert_eq. unfold default at 1; cbn [from_option id]. rewrite List.filter_app. cbn [List.filter].
           rewrite <- app_assoc. by destruct (negb (removed_by event cb ops)).
        -- by rewrite lookup_insert_ne.
    + unfold off. destruct (inherited e) eqn:He; cbn [snd].
      * destruct (String.eqb_spec e event) as [-> | Hne]; [congruence | done].
      * destruct (String.eqb_spec e event) as [-> | Hne]; cbn [andb orb].
        -- destruct (events st !! event) as [registered |] eqn:Hreg; cbn [snd events].
           ++ rewrite lookup_insert_eq. unfold default at 1; cbn [from_option id]. f_equal.
              rewrite <- filter_filter_andb. apply filter_ext. intros c.
              rewrite negb_orb. by rewrite (Nat.eqb_sym cb c).
           ++ by rewrite Hreg.
        -- destruct (events st !! e); cbn [snd events]; [| done].
           by rewrite lookup_insert_ne.
Qed.

End EventEmitterFacts.

(** X23: after any registrations and removals, [emit(event)] calls the
    callbacks registered for the event and not removed since, once for
    each registration and in the order of the registrations; an [off]
    removes every registration of its callback made before it.  (The event
    is not a name of [Object.prototype], and none of these callbacks
    throws.) *)
Theorem emit_calls_the_listeners (throws : nat → bool) (event : string)
    (ops : list EventEmitter.Op) :
  EventEmitter.inherited event = false →
  Forall (λ cb, throws cb = false) (listening event ops) →
  EventEmitter.emit throws event (EventEmitter.run ops EventEmitter.constructor)
  = (Return (), listening event ops).
Proof.
  intros Hown Hquiet.
  pose proof (run_registered event ops Hown EventEmitter.constructor) as Hreg.
  cbn [EventEmitter.constructor EventEmitter.events] in Hreg.
  rewrite lookup_empty in Hreg. cbn in Hreg.
  unfold EventEmitter.emit. rewrite Hown.
  destruct (EventEmitter.events _ !! event) as [registered |]; cbn in Hreg.
  - rewrite Hreg. by apply forEach_returns.
  - by rewrite <- Hreg.
Qed.

Lemma emit_calls_the_listeners_witness :
  let ops := [ EventEmitter.On "contentLoaded" 1; EventEmitter.On "contentLoaded" 2;
               EventEmitter.On "contentLoaded" 1; EventEmitter.On "toString" 5;
               EventEmitter.Off "contentLoaded" 1; EventEmitter.On "contentLoaded" 3;
               EventEmitter.On "contentError" 4; EventEmitter.Off "contentError" 3;
               EventEmitter.On "contentLoaded" 1 ] in
  listening "contentLoaded" ops = [2; 3; 1]
  ∧ EventEmitter.emit (λ _, false) "contentLoaded"
      (EventEmitter.run ops EventEmitter.constructor)
    = (Return (), [2; 3; 1]).
Proof.
  intros ops. split; [reflexivity |].
  apply (emit_calls_the_listeners (λ _, false) "contentLoaded" ops); [reflexivity |].
  repeat constructor.
Defined.

(** ** The heading ids of [generateTOC] *)

Section SlugFacts.
Import TOC.

Lemma slug_alphabet_replace_other (s : string) :
  slug_alphabet (replace_other s) = true.
Proof.
  induction s as [|c s IH]; [done |]. cbn [replace_other slug_alphabet]. rewrite IH.
  destruct (alnum c) eqn:Hc; [by rewrite Hc | by rewrite Ascii.eqb_refl, orb_true_r].
Qed.

Lemma slug_alphabet_replace_runs (s : string) :
  slug_alphabet s = true → slug_alphabet (replace_runs s) = true.
Proof.
  induction s as [|c s IH]; [done |]. cbn [slug_alphabet replace_runs].
  intros [Hc Hs]%andb_true_iff. specialize (IH Hs).
  destruct (Ascii.eqb c dash) eqn:Hd; [destruct s as [|c' s'] |].
  - cbn [slug_alphabet]. by rewrite Hd, Hc.
  - destruct (Ascii.eqb c' dash); [done |]. cbn [slug_alphabet]. by rewrite Hd, Hc, IH.
  - cbn [slug_alphabet]. by rewrite Hd, Hc, IH.
Qed.

Lemma starts_with_dash_replace_runs (s : string) :
  starts_with_dash (replace_runs s) = starts_with_dash s.
Proof.
  induction s as [|c s IH]; [done |]. cbn [replace_runs starts_with_dash].
  destruct (Ascii.eqb c dash) eqn:Hc; [| cbn; by rewrite Hc].
  destruct s as [|c' s']; [cbn; by rewrite Hc |].
  destruct (Ascii.eqb c' dash) eqn:Hc'; [| cbn; by rewrite Hc].
  rewrite IH. cbn. by rewrite Hc'.
Qed.

Lemma has_double_dash_replace_runs (s : string) :
  has_double_dash (replace_runs s) = false.
Proof.
  induction s as [|c s IH]; [done |]. cbn [replace_runs].
  destruct (Ascii.eqb c dash) eqn:Hc.
  - destruct s as [|c' s']; [cbn; by rewrite Hc |].
    destruct (Ascii.eqb c' dash) eqn:Hc'; [done |].
    cbn [has_double_dash]. rewrite IH, starts_with_dash_replace_runs. cbn.
    by rewrite Hc', andb_false_r.
  - cbn [has_double_dash]. by rewrite IH, Hc.
Qed.

Lemma drop_last_dash_cons (c c' : ascii) (s : string) :
  drop_last_dash (String c (String c' s)) = String c (drop_last_dash (String c' s)).
Proof. reflexivity. Qed.

Lemma drop_last_dash_single (c : ascii) :
  drop_last_dash (String c "") = if Ascii.eqb c dash then "" else String c "".
Proof. reflexivity. Qed.

Lemma slug_alphabet_drop_last_dash (s : string) :
  slug_alphabet s = true → slug_alphabet (drop_last_dash s) = true.
Proof.
  induction s as [|c s IH]; [done |]. cbn [slug_alphabet].
  intros [Hc Hs]%andb_true_iff. specialize (IH Hs).
  destruct s as [|c' s']; rewrite ?drop_last_dash_cons, ?drop_last_dash_single.
  - destruct (Ascii.eqb c dash) eqn:Hd; [done |]. cbn [slug_alphabet]. by rewrite Hd, Hc.
  - cbn [slug_alphabet] in IH |- *. by rewrite Hc, IH.
Qed.

Lemma starts_with_dash_drop_last_dash (s : string) :
  starts_with_dash s = false → starts_with_dash (drop_last_dash s) = false.
Proof.
  destruct s as [|c [|c' s']]; [done | |].
  - rewrite drop_last_dash_single. cbn [starts_with_dash]. intros Hd. by rewrite Hd.
  - by rewrite drop_last_dash_cons.
Qed.

Lemma has_double_dash_drop_last_dash (s : string) :
  has_double_dash s = false → has_double_dash (drop_last_dash s) = false.
Proof.
  induction s as [|c s IH]; [done |]. cbn [has_double_dash].
  intros [Hc Hs]%orb_false_iff. specialize (IH Hs).
  destruct s as [|c' s'].
  - rewrite drop_last_dash_single. destruct (Ascii.eqb c dash) eqn:Hd; [done |].
    cbn. by rewrite Hd.
  - rewrite drop_last_dash_cons. cbn [has_double_dash]. rewrite IH, orb_false_r.
    destruct (Ascii.eqb c dash) eqn:Hd; [| done]. cbn [andb] in Hc |- *.
    by apply starts_with_dash_drop_last_dash.
Qed.

Lemma ends_with_dash_cons (c c' : ascii) (s : string) :
  ends_with_dash (String c (String c' s)) = ends_with_dash (String c' s).
Proof. reflexivity. Qed.

Lemma ends_with_dash_drop_last_dash (s : string) :
  has_double_dash s = false → ends_with_dash (drop_last_dash s) = false.
Proof.
  induction s as [|c s IH]; [done |]. cbn [has_double_dash].
  intros [Hc Hs]%orb_false_iff. specialize (IH Hs).
  destruct s as [|c' s'].
  - rewrite drop_last_dash_single. destruct (Ascii.eqb c dash) eqn:Hd; [done |].
    cbn. exact Hd.
  - rewrite drop_last_dash_cons.
    destruct (drop_last_dash (String c' s')) as [|c'' s''] eqn:Hdrop.
    + (* the rest was a single dash *)
      destruct s' as [|c'' s''].
      * rewrite drop_last_dash_single in Hdrop.
        destruct (Ascii.eqb c' dash) eqn:Hd'; [| done].
        cbn [starts_with_dash] in Hc. rewrite Hd', andb_true_r in Hc.
        cbn. exact Hc.
      * by rewrite drop_last_dash_cons in Hdrop.
    + rewrite ends_with_dash_cons. exact IH.
Qed.

Lemma all_digits_pretty_N_go (x : N) :
  ∀ s, all_digits s = true → all_digits (pretty_N_go x s) = true.
Proof.
  induction (N.lt_wf_0 x) as [x _ IH]; intros s Hs.
  assert (x = 0 ∨ 0 < x)%N as [-> | Hpos] by lia; [by rewrite pretty_N_go_0 |].
  rewrite pretty_N_go_step by done. apply IH; [by apply N.div_lt |].
  cbn [all_digits]. rewrite Hs, andb_true_r.
  unfold pretty_N_char. by repeat case_match.
Qed.

Lemma all_digits_pretty (index : nat) : all_digits (pretty index) = true.
Proof.
  unfold pretty, pretty_nat, pretty, pretty_N.
  case_decide; [done |]. by apply all_digits_pretty_N_go.
Qed.

Lemma append_inj_l (s x y : string) : s +:+ x = s +:+ y → x = y.
Proof.
  induction s as [|c s IH]; [done |]. rewrite !append_cons. intros [= Heq]. by apply IH.
Qed.

Lemma digits_then_dash (d1 d2 x y : string) :
  all_digits d1 = true → all_digits d2 = true →
  d1 +:+ String dash x = d2 +:+ String dash y → d1 = d2.
Proof.
  revert d2. induction d1 as [|c1 d1 IH]; intros [|c2 d2] H1 H2 Heq.
  - done.
  - rewrite append_cons in Heq. injection Heq as <- _.
    cbn in H2. by vm_compute in H2.
  - rewrite append_cons in Heq. injection Heq as -> _.
    cbn in H1. by vm_compute in H1.
  - rewrite !append_cons in Heq. injection Heq as -> Heq.
    cbn [all_digits] in H1, H2.
    apply andb_true_iff in H1 as [_ H1]. apply andb_true_iff in H2 as [_ H2].
    f_equal. by eapply IH.
Qed.

Lemma heading_id_inj (i j : nat) (h1 h2 : Heading) :
  heading_id i h1 = heading_id j h2 → i = j.
Proof.
  unfold heading_id. intros Heq. apply append_inj_l in Heq.
  change ("-" +:+ slug (textContent h1)) with (String dash (slug (textContent h1))) in Heq.
  change ("-" +:+ slug (textContent h2)) with (String dash (slug (textContent h2))) in Heq.
  apply digits_then_dash in Heq; [| apply all_digits_pretty..].
  by apply (inj pretty) in Heq.
Qed.

Lemma forEach_lookup (headings : list Heading) :
  ∀ index i, forEach index headings !! i = entry (index + i) <$> headings !! i.
Proof.
  induction headings as [|h hs IH]; intros index i; [done |].
  destruct i as [|i]; cbn [forEach].
  - cbn. by rewrite Nat.add_0_r.
  - cbn. rewrite IH. by replace (S index + i) with (index + S i) by lia.
Qed.

End SlugFacts.

(** X24: the part of a generated heading id that is made from the text of
    the heading has only characters of [[a-z0-9]] and single dashes
    between them: no dash at its start, none at its end, no two in a
    row. *)
Theorem slug_is_clean (textContent : string) :
  slug_alphabet (TOC.slug textContent) = true
  ∧ starts_with_dash (TOC.slug textContent) = false
  ∧ ends_with_dash (TOC.slug textContent) = false
  ∧ has_double_dash (TOC.slug textContent) = false.
Proof.
  unfold TOC.slug.
  pose proof (slug_alphabet_replace_runs _
                (slug_alphabet_replace_other (TOC.toLowerCase textContent))) as Halpha.
  pose proof (has_double_dash_replace_runs
                (TOC.replace_other (TOC.toLowerCase textContent))) as Hdouble.
  destruct (TOC.replace_runs _) as [|c s]; [done |].
  cbn [slug_alphabet has_double_dash] in Halpha, Hdouble.
  apply andb_true_iff in Halpha as [Hc Hs].
  apply orb_false_iff in Hdouble as [Hcs Hss].
  unfold TOC.replace_ends. destruct (Ascii.eqb c TOC.dash) eqn:Hd.
  - cbn [andb] in Hcs. split; [by apply slug_alphabet_drop_last_dash |].
    split; [by apply starts_with_dash_drop_last_dash |].
    split; [by apply ends_with_dash_drop_last_dash |].
    by apply has_double_dash_drop_last_dash.
  - assert (Halpha : slug_alphabet (String c s) = true) by (cbn [slug_alphabet]; by rewrite Hd, Hc, Hs).
    assert (Hdouble : has_double_dash (String c s) = false) by (cbn [has_double_dash]; by rewrite Hd, Hss).
    split; [by apply slug_alphabet_drop_last_dash |].
    split; [apply starts_with_dash_drop_last_dash; cbn; exact Hd |].
    split; [by apply ends_with_dash_drop_last_dash |].
    by apply has_double_dash_drop_last_dash.
Qed.

(** X25: the ids that [generateTOC] gives to headings without an id are
    distinct from each other, also for headings with the same text: the
    index in front, closed by a dash, tells them apart. *)
Theorem generated_ids_are_distinct (headings : list TOC.Heading) (i j : nat)
    (h1 h2 : TOC.Heading) :
  i ≠ j →
  headings !! i = Some h1 → TOC.id h1 = "" →
  headings !! j = Some h2 → TOC.id h2 = "" →
  ∃ g1 g2,
    fst (TOC.generateTOC headings) !! i = Some g1
    ∧ fst (TOC.generateTOC headings) !! j = Some g2
    ∧ TOC.id g1 = TOC.heading_id i h1
    ∧ TOC.id g2 = TOC.heading_id j h2
    ∧ TOC.id g1 ≠ TOC.id g2.
Proof.
  intros Hne Hi Hid1 Hj Hid2.
  assert (Hlookup : ∀ k h, headings !! k = Some h →
            fst (TOC.generateTOC headings) !! k = Some (fst (TOC.entry k h))).
  { intros k h Hk. cbn [TOC.generateTOC fst].
    change (map fst (TOC.forEach 0 headings)) with (fst <$> TOC.forEach 0 headings).
    by rewrite list_lookup_fmap, forEach_lookup, Hk. }
  exists (fst (TOC.entry i h1)), (fst (TOC.entry j h2)).
  split; [by apply Hlookup |]. split; [by apply Hlookup |].
  unfold TOC.entry. rewrite Hid1, Hid2. cbn.
  split; [done |]. split; [done |].
  intros Heq. by apply heading_id_inj in Heq.
Qed.

Lemma generated_ids_are_distinct_witness :
  let intro := {| TOC.id := ""; TOC.textContent := "Overview"; TOC.tagName := "H2" |} in
  let named := {| TOC.id := "usage"; TOC.textContent := "Usage"; TOC.tagName := "H2" |} in
  let again := {| TOC.id := ""; TOC.textContent := "Overview"; TOC.tagName := "H3" |} in
  ∃ g1 g2,
    fst (TOC.generateTOC [intro; named; again]) !! 0 = Some g1
    ∧ fst (TOC.generateTOC [intro; named; again]) !! 2 = Some g2
    ∧ TOC.id g1 = TOC.heading_id 0 intro
    ∧ TOC.id g2 = TOC.heading_id 2 again
    ∧ TOC.id g1 ≠ TOC.id g2.
Proof.
  intros intro named again.
  exact (generated_ids_are_distinct [intro; named; again] 0 2 intro again
           ltac:(lia) eq_refl eq_refl eq_refl eq_refl).
Defined.

(** ** Loads never fail *)

Section NeverFails.
Import ContentLoader EventLoop.
Context (cfg : Config.t).

Lemma emitted_step (ev : EventLoop.Event) (m m' : EventLoop.t) :
  accounted cfg m →
  Forall (λ e, ∃ tabId content, e = contentLoaded tabId content) (emitted (loader m)) →
  step cfg ev m = Some m' →
  Forall (λ e, ∃ tabId content, e = contentLoaded tabId content) (emitted (loader m')).
Proof.
  intros Hinv Hem Hstep.
  destruct ev as [tabId useCache | p resp | p | p | tabId | elapsed]; cbn in Hstep.
  - injection Hstep as <-. unfold call.
    destruct (if useCache then cached cfg tabId (loader m) else None); [done |].
    by destruct (loadingPromises (loader m) !! tabId).
  - destruct (find_task p (tasks m)) as [task |]; [| done]. cbn in Hstep.
    destruct (phase task) as [retries | |]; try done.
    destruct (received resp) as [content | error]; [by injection Hstep as <- |].
    unfold recover in Hstep.
    by destruct (retries <? _)%Z; injection Hstep as <-.
  - destruct (find_task p (tasks m)) as [task |]; [| done]. cbn in Hstep.
    destruct (phase task); try done. by injection Hstep as <-.
  - destruct (find_task p (tasks m)) as [task |] eqn:Hfind; [| done]. cbn in Hstep.
    destruct (phase task) as [| | result] eqn:Hphase; try done.
    injection Hstep as <-. apply find_task_spec in Hfind as [Hin _].
    destruct Hinv as (_ & Hts & _). apply Hts in Hin as [_ Hph].
    rewrite Hphase in Hph. destruct Hph as (content & -> & _).
    cbn. apply Forall_app. split; [done |]. constructor; [by eexists _, _ | constructor].
  - injection Hstep as <-. cbn. destruct tabId as [tabId |]; [| done].
    unfold clearCache. by destruct (JS.truthy tabId).
  - by injection Hstep as <-.
Qed.

Lemma emitted_run (events : list EventLoop.Event) :
  ∀ m m',
    accounted cfg m →
    Forall (λ e, ∃ tabId content, e = contentLoaded tabId content) (emitted (loader m)) →
    run cfg events m = Some m' →
    Forall (λ e, ∃ tabId content, e = contentLoaded tabId content) (emitted (loader m')).
Proof.
  induction events as [|ev events IH]; intros m m' Hinv Hem Hrun; cbn in Hrun.
  - by injection Hrun as <-.
  - destruct (step cfg ev m) as [m1 |] eqn:Hstep; [| done].
    eapply (IH m1); [by eapply accounted_step | by eapply emitted_step | exact Hrun].
Qed.

End NeverFails.

(** X26: on the event loop no load ever fails: whatever the network
    answers, every activation of [_fetchContent] that has settled holds a
    document, never an error, so the [catch] block of [loadContent] does
    not run and [contentError] is never emitted. *)
Theorem contentError_is_never_emitted (cfg : Config.t) (w : World)
    (events : list EventLoop.Event) (m : EventLoop.t) :
  EventLoop.run cfg events (EventLoop.init w) = Some m →
  (∀ task result,
     In task (EventLoop.tasks m) →
     EventLoop.phase task = EventLoop.AwaitResume result →
     ∃ content, result = Return content)
  ∧ ∀ tabId error,
      ¬ In (ContentLoader.contentError tabId error)
          (ContentLoader.emitted (EventLoop.loader m)).
Proof.
  intros Hrun. split.
  - intros task result Hin Hphase.
    pose proof (accounted_run cfg events _ _ (accounted_init cfg w) Hrun) as (_ & Hts & _).
    apply Hts in Hin as [_ Hph]. rewrite Hphase in Hph.
    destruct Hph as (content & -> & _). by exists content.
  - intros tabId error Hin.
    pose proof (emitted_run cfg events _ _ (accounted_init cfg w)
                  ltac:(constructor) Hrun) as Hem.
    eapply List.Forall_forall in Hem; [| exact Hin].
    by destruct Hem as (k & c & Heq).
Qed.

Lemma contentError_is_never_emitted_witness :
  let w := {| now := 0; requests := [] |} in
  let events := [ EventLoop.Call "vector" true;
                  EventLoop.FetchSettles 0 (Rejected "Failed to fetch");
                  EventLoop.TimerFires 0;
                  EventLoop.FetchSettles 0 (Replied false 500 "Internal Server Error" "");
                  EventLoop.TimerFires 0;
                  EventLoop.FetchSettles 0 (Replied true 200 "OK" "");
                  EventLoop.TimerFires 0;
                  EventLoop.FetchSettles 0 (Rejected "Failed to fetch");
                  EventLoop.Resumes 0 ] in
  ∃ m,
    EventLoop.run APP_CONFIG events (EventLoop.init w) = Some m
    ∧ ContentLoader.emitted (EventLoop.loader m)
      = [ContentLoader.contentLoaded "vector"
           (ContentLoader._getFallbackContent APP_CONFIG "vector" "Failed to fetch")]
    ∧ ∀ tabId error,
        ¬ In (ContentLoader.contentError tabId error)
            (ContentLoader.emitted (EventLoop.loader m)).
Proof.
  intros w events.
  destruct (EventLoop.run APP_CONFIG events (EventLoop.init w)) as [m |] eqn:Hrun;
    [| by vm_compute in Hrun].
  assert (Hem : ContentLoader.emitted (EventLoop.loader m)
                = [ContentLoader.contentLoaded "vector"
                     (ContentLoader._getFallbackContent APP_CONFIG "vector"
                        "Failed to fetch")]).
  { vm_compute in Hrun. inversion Hrun as [Hm]. reflexivity. }
  exists m. split; [reflexivity |]. split; [exact Hem |].
  exact (proj2 (contentError_is_never_emitted APP_CONFIG w events m Hrun)).
Defined.
